(** * GrahamScan: a shallow embedding of [grahamscan.h] and its properties

    The header implements the Graham scan: anchor selection with
    [std::min_element], an angular [std::sort] of the remaining points around
    the anchor, and a stack sweep that pops while the last two stack entries
    and the candidate make a clockwise turn.

    The development has three layers.  The program is embedded on binary64
    floating-point coordinates, with the rounding, the infinities and the
    NaN of every operation.  [Module Exact] is the same algorithm on exact
    integer coordinates: the geometry the comments of the header reason
    with.  The two are related on every range on which rounding changes no
    comparison ([exact_on]), and the properties of the exact run are carried
    over to the program there; what holds of the program on every range is
    proved on the program itself. *)

From Stdlib Require Import ZArith List Lia Bool Arith Permutation Sorted.
From Stdlib Require Import SpecFloat.
Import ListNotations.

Open Scope Z_scope.

(** ** Coordinates

    [Vector<2>] comes from [matrix.h], which is not part of the sources.
    Modelled from the spec: a Point2D is "an immutable value with two numeric
    coordinates (x, y)" with subtraction and the scalar 2D cross product
    [a.x*b.y - a.y*b.x]; the spec's scenarios have the coordinate 0.5 and its
    section 7 names "floating-point precision in the cross-product sign
    test".  A coordinate is an IEEE 754 binary64 value ([double]): a signed
    zero, an infinity, NaN, or a finite [m * 2^e].  Every operation rounds
    its exact result to nearest, ties to even, and overflows to an
    infinity; a product and the difference of two products are rounded
    separately (no fused multiply-add). *)
Definition double : Set := spec_float.

Definition prec : Z := 53.
Definition emax : Z := 1024.

Definition fadd : double -> double -> double := SFadd prec emax.
Definition fsub : double -> double -> double := SFsub prec emax.
Definition fmul : double -> double -> double := SFmul prec emax.

(** The comparisons [==], [<] and [>=]; each is false when an operand is
    NaN. *)
Definition feq : double -> double -> bool := SFeqb.
Definition flt : double -> double -> bool := SFltb.
Definition fge (x y : double) : bool := SFleb y x.

(** The [double] nearest to [m * 2^e], and to the integer [n]. *)
Definition double_of (m e : Z) : double := binary_normalize prec emax m e false.
Definition of_int (n : Z) : double := double_of n 0.

(** The constant [0] of line 167, converted to [double]. *)
Definition zero : double := S754_zero false.

Definition double_eq_dec (a b : double) : {a = b} + {a <> b}.
Proof.
  decide equality; try apply Z.eq_dec; try apply Pos.eq_dec; apply Bool.bool_dec.
Defined.

(** ** Points

    [vx v] stands for [v[0]] and [vy v] for [v[1]]. *)
Record Vector2 : Set := mkVector { vx : double; vy : double }.

Definition Vector2_eq_dec (a b : Vector2) : {a = b} + {a <> b}.
Proof. decide equality; apply double_eq_dec. Defined.

(** The point with the integer coordinates [x] and [y]. *)
Definition point (x y : Z) : Vector2 := mkVector (of_int x) (of_int y).

(** [operator-] on [Vector<2>]. *)
Definition vsub (a b : Vector2) : Vector2 :=
  mkVector (fsub (vx a) (vx b)) (fsub (vy a) (vy b)).

(** The 2D cross product as line 167 writes it inline:
    [last[0] * curr[1] - last[1] * curr[0]]. *)
Definition CrossProduct (a b : Vector2) : double :=
  fsub (fmul (vx a) (vy b)) (fmul (vy a) (vx b)).

Definition NormSquared (a : Vector2) : double :=
  fadd (fmul (vx a) (vx a)) (fmul (vy a) (vy a)).

(** ** The comparators of [grahamscan_detail]

    Only their declarations are in the header; the bodies live in
    [grahamscan.cpp], which is not part of the sources. *)

(** Modelled from the spec: the body of [CompareYCoordinates] is missing.
    "The comparator orders first by y ascending, then by x ascending"; the
    header says "returning whether the lhs has a y coordinate strictly less
    than the rhs's y coordinate.  In the event of a tie, they are then
    compared by their x coordinate." *)
Definition CompareYCoordinates (lhs rhs : Vector2) : bool :=
  if feq (vy lhs) (vy rhs) then flt (vx lhs) (vx rhs)
  else flt (vy lhs) (vy rhs).

(** Modelled from the spec: the body of [CompareByAngle::operator()] is
    missing.  The header: "returning whether lhs makes a smaller angle with
    the origin than rhs.  If lhs and rhs make the same angle, the distance
    from the origin to these points is used as a tiebreaker, with the closer
    point winning the tiebreaker."  The spec: "use the sign of the 2D cross
    product of the two candidate vectors to determine relative angular
    order, and fall back to squared distance from the anchor only when the
    cross product is exactly zero"; "the closer point precedes the farther
    one".  The functor's captured [origin] is the first argument. *)
Definition CompareByAngle (origin lhs rhs : Vector2) : bool :=
  let one := vsub lhs origin in
  let two := vsub rhs origin in
  let c := CrossProduct one two in
  if feq c zero then flt (NormSquared one) (NormSquared two) else flt zero c.

(** ** The standard algorithms the function calls *)

Section Algorithms.
Variable comp : Vector2 -> Vector2 -> bool.

(** [std::min_element]: one pass that keeps the position of the smallest
    element seen so far and replaces it only by a strictly smaller one, so
    the first minimum wins.  Positions are indices into the range. *)
Fixpoint min_element_from (smallest : nat) (sv : Vector2) (i : nat)
         (l : list Vector2) : nat :=
  match l with
  | [] => smallest
  | x :: l' =>
      if comp x sv then min_element_from i x (S i) l'
      else min_element_from smallest sv (S i) l'
  end.

Definition min_element (l : list Vector2) : nat :=
  match l with
  | [] => 0%nat
  | x :: l' => min_element_from 0%nat x 1%nat l'
  end.

(** [std::sort] rearranges the range into an order in which no element
    compares less than an element before it.  It is modelled by insertion
    into a sorted prefix.  Where the comparator agrees with the exact one
    ([exact_on]) it is a strict weak order whose equivalent points have
    equal coordinates, there is only one such order of the coordinates and
    the choice of the algorithm does not show.  Where rounding makes the
    comparator inconsistent the model still returns a rearrangement; the
    standard promises nothing for [std::sort] there. *)
Fixpoint sort_insert (x : Vector2) (l : list Vector2) : list Vector2 :=
  match l with
  | [] => [x]
  | y :: l' => if comp x y then x :: y :: l' else y :: sort_insert x l'
  end.

Fixpoint std_sort (l : list Vector2) : list Vector2 :=
  match l with
  | [] => []
  | x :: l' => sort_insert x (std_sort l')
  end.
End Algorithms.

(** ** The hull stack

    [result] is a [std::vector] used as a stack.  It is kept newest first:
    the head of the list is [result[result.size() - 1]], the next entry is
    [result[result.size() - 2]]; [push_back] is a cons and [pop_back] drops
    the head.  [stack_contents] gives the vector in index order. *)
Definition push_back (result : list Vector2) (p : Vector2) := p :: result.
Definition pop_back (result : list Vector2) : option (list Vector2) :=
  match result with
  | [] => None
  | _ :: r => Some r
  end.
Definition stack_contents (result : list Vector2) : list Vector2 := rev result.

(** The condition of line 167 for the candidate [p] on a stack whose last
    two entries are [second] and [top]: the two differences of lines 145 and
    146, the two products and their difference, each rounded, compared with
    zero.  It is false when the difference is negative and when it is NaN. *)
Definition keeps (second top p : Vector2) : bool :=
  let last := vsub top second in
  let curr := vsub p top in
  fge (fsub (fmul (vx last) (vy curr)) (fmul (vy last) (vx curr))) zero.

(** The [while (true)] loop of lines 140-173 for the candidate [p].  The two
    subscripts need two entries; with fewer the access is out of bounds,
    which is the [None] result.  Every iteration that does not break pops
    one entry, so the loop is a recursion on the stack. *)
Fixpoint pop_loop (p : Vector2) (result : list Vector2)
  : option (list Vector2) :=
  match result with
  | top :: (second :: _) as popped =>
      if keeps second top p then Some result
      else pop_loop p popped
  | _ => None
  end.

(** The [for] loop of lines 135-177 over the candidates [points[1..]]. *)
Fixpoint sweep (candidates : list Vector2) (result : list Vector2)
  : option (list Vector2) :=
  match candidates with
  | [] => Some result
  | p :: rest =>
      match pop_loop p result with
      | Some r => sweep rest (push_back r p)
      | None => None
      end
  end.

(** The local vector [points] before sorting: the range without the element
    at position [minY]. *)
Definition without_position (minY : nat) (input : list Vector2) :=
  firstn minY input ++ skipn (S minY) input.

(** The sorted working sequence with the anchor appended (lines 108-122). *)
Definition working_sequence (anchor : Vector2) (minY : nat)
           (input : list Vector2) : list Vector2 :=
  std_sort (CompareByAngle anchor) (without_position minY input) ++ [anchor].

(** [GrahamScan(begin, end, out)]: the sequence written through [out], or
    [None] when a subscript or [pop_back] is applied out of bounds. *)
Definition GrahamScan (input : list Vector2) : option (list Vector2) :=
  if (length input <? 3)%nat then Some input
  else
    let minY := min_element CompareYCoordinates input in
    match nth_error input minY with
    | None => None
    | Some anchor =>
        let points := working_sequence anchor minY input in
        match points with
        | [] => None
        | p0 :: candidates =>
            let result := push_back (push_back [] anchor) p0 in
            match sweep candidates result with
            | None => None
            | Some result =>
                match pop_back result with
                | None => None
                | Some result => Some (stack_contents result)
                end
            end
        end
    end.

(** ** The stages of [GrahamScan], named

    The anchor [*minY] and the sorted local vector [points] as functions of
    the input, for stating properties of the intermediate stages. *)
Definition anchor_of (input : list Vector2) : option Vector2 :=
  nth_error input (min_element CompareYCoordinates input).

Definition sorted_points (input : list Vector2) : list Vector2 :=
  match anchor_of input with
  | Some anchor =>
      std_sort (CompareByAngle anchor)
        (without_position (min_element CompareYCoordinates input) input)
  | None => []
  end.

(** ** The loop condition, instrumented

    Every evaluation of the loop body's first statement (line 145) with the
    candidate and the stack it sees, in execution order.  The recursion is
    the one of [pop_loop] and [sweep]. *)
Fixpoint pop_loop_visits (p : Vector2) (result : list Vector2)
  : list (Vector2 * list Vector2) :=
  (p, result) ::
  match result with
  | top :: (second :: _) as popped =>
      if keeps second top p then []
      else pop_loop_visits p popped
  | _ => []
  end.

Fixpoint sweep_visits (candidates : list Vector2) (result : list Vector2)
  : list (Vector2 * list Vector2) :=
  match candidates with
  | [] => []
  | p :: rest =>
      pop_loop_visits p result ++
      match pop_loop p result with
      | Some r => sweep_visits rest (push_back r p)
      | None => []
      end
  end.

Definition GrahamScan_visits (input : list Vector2)
  : list (Vector2 * list Vector2) :=
  if (length input <? 3)%nat then []
  else
    match anchor_of input, sorted_points input with
    | Some anchor, p0 :: rest =>
        sweep_visits (rest ++ [anchor]) (push_back (push_back [] anchor) p0)
    | _, _ => []
    end.

(** The stack on which the [pop_back] of line 182 is performed. *)
Definition GrahamScan_final_stack (input : list Vector2)
  : option (list Vector2) :=
  if (length input <? 3)%nat then None
  else
    match anchor_of input, sorted_points input with
    | Some anchor, p0 :: rest =>
        sweep (rest ++ [anchor]) (push_back (push_back [] anchor) p0)
    | _, _ => None
    end.

(** ** The function as a sequence of statements on a store

    The caller's memory is one sequence of cells, and the iterators
    [begin], [end] and [out] are positions in it: the cells written through
    [out] may lie anywhere, also inside the range [begin, end).  The two
    local vectors are components of their own.  Each statement of the
    function is a command on the store; a subscript or an iterator outside
    its sequence is undefined behaviour, the [None] result. *)
Record Store : Set := mkStore {
  memory : list Vector2;
  points : list Vector2;
  result : list Vector2;
  out_pos : nat
}.

Definition Cmd (A : Type) : Type := Store -> option (A * Store).

Definition ret {A : Type} (a : A) : Cmd A := fun s => Some (a, s).

Definition bind {A B : Type} (c : Cmd A) (k : A -> Cmd B) : Cmd B :=
  fun s => match c s with
           | Some (a, s') => k a s'
           | None => None
           end.

Definition undefined_behaviour {A : Type} : Cmd A := fun _ => None.

Notation "x <- c ;; k" := (bind c (fun x => k))
  (at level 61, c at next level, right associativity).
Notation "c ;;; k" := (bind c (fun _ => k))
  (at level 61, right associativity).

Definition set_points (s : Store) (v : list Vector2) : Store :=
  mkStore (memory s) v (result s) (out_pos s).
Definition set_result (s : Store) (v : list Vector2) : Store :=
  mkStore (memory s) (points s) v (out_pos s).

(** The cells from position [first] up to, not including, [last]. *)
Definition slice (l : list Vector2) (first last : nat) : list Vector2 :=
  firstn (last - first) (skipn first l).

(** The memory after a store into the cell at position [i]. *)
Fixpoint store_at (i : nat) (v : Vector2) (l : list Vector2)
  : list Vector2 :=
  match l, i with
  | [], _ => []
  | _ :: l', O => v :: l'
  | x :: l', S i' => x :: store_at i' v l'
  end.

(** [std::distance(first, last)]. *)
Definition range_distance (first last : nat) : Cmd nat :=
  fun s => Some ((last - first)%nat, s).

(** [std::min_element(first, last, comp)], an iterator into the range. *)
Definition range_min_element (comp : Vector2 -> Vector2 -> bool)
           (first last : nat) : Cmd nat :=
  fun s => Some ((first + min_element comp (slice (memory s) first last))%nat, s).

(** [*it] for an iterator into the caller's memory. *)
Definition deref (it : nat) : Cmd Vector2 :=
  fun s => match nth_error (memory s) it with
           | Some v => Some (v, s)
           | None => None
           end.

(** [*out++ = v]. *)
Definition write_out (v : Vector2) : Cmd unit :=
  fun s => if (out_pos s <? length (memory s))%nat
           then Some (tt, mkStore (store_at (out_pos s) v (memory s))
                                  (points s) (result s) (S (out_pos s)))
           else None.

Definition current_out : Cmd nat := fun s => Some (out_pos s, s).

(** [points.insert(points.end(), first, last)] for two iterators into the
    caller's memory. *)
Definition points_insert_range (first last : nat) : Cmd unit :=
  fun s => Some (tt, set_points s (points s ++ slice (memory s) first last)).

Definition points_sort (comp : Vector2 -> Vector2 -> bool) : Cmd unit :=
  fun s => Some (tt, set_points s (std_sort comp (points s))).

Definition points_push_back (v : Vector2) : Cmd unit :=
  fun s => Some (tt, set_points s (points s ++ [v])).

Definition points_size : Cmd nat := fun s => Some (length (points s), s).

Definition points_at (i : nat) : Cmd Vector2 :=
  fun s => match nth_error (points s) i with
           | Some v => Some (v, s)
           | None => None
           end.

Definition result_push_back (v : Vector2) : Cmd unit :=
  fun s => Some (tt, set_result s (push_back (result s) v)).

Definition result_pop_back : Cmd unit :=
  fun s => match pop_back (result s) with
           | Some r => Some (tt, set_result s r)
           | None => None
           end.

Definition result_size : Cmd nat := fun s => Some (length (result s), s).

Definition result_at (i : nat) : Cmd Vector2 :=
  fun s => match nth_error (stack_contents (result s)) i with
           | Some v => Some (v, s)
           | None => None
           end.

(** [result[result.size() - k]]: the unsigned difference wraps around when
    [k] exceeds the size, and the subscript is then out of bounds. *)
Definition result_from_back (k : nat) : Cmd Vector2 :=
  fun s => if (length (result s) <? k)%nat then None
           else match nth_error (stack_contents (result s))
                                (length (result s) - k) with
                | Some v => Some (v, s)
                | None => None
                end.

(** [while (true) { ... if (...) break; ... }]: the body answers whether it
    left through [break].  The iteration count is bounded by [fuel]. *)
Fixpoint while_true (fuel : nat) (body : Cmd bool) : Cmd unit :=
  match fuel with
  | O => undefined_behaviour
  | S fuel' => stop <- body ;; if stop : bool then ret tt else while_true fuel' body
  end.

(** [for (size_t i = from; i < from + count; ++i) body(i)]. *)
Fixpoint for_loop (from count : nat) (body : nat -> Cmd unit) : Cmd unit :=
  match count with
  | O => ret tt
  | S count' => body from ;;; for_loop (S from) count' body
  end.

(** [std::copy(first, last, out)]: one cell after the other is read and
    written through [out], in increasing order. *)
Definition copy_cell (it : nat) : Cmd unit := v <- deref it ;; write_out v.

Definition copy_range_to_out (first last : nat) : Cmd unit :=
  for_loop first (last - first) copy_cell.

(** [std::copy(result.begin(), result.end(), out)]. *)
Definition copy_entry (i : nat) : Cmd unit := v <- result_at i ;; write_out v.

Definition copy_result_to_out : Cmd unit :=
  n <- result_size ;;
  for_loop 0 n copy_entry.

(** Lines 140-173: one pass of the loop body. *)
Definition pop_loop_body (i : nat) : Cmd bool :=
  top <- result_from_back 1 ;;
  second <- result_from_back 2 ;;
  let last := vsub top second in
  p <- points_at i ;;
  top' <- result_from_back 1 ;;
  let curr := vsub p top' in
  if fge (fsub (fmul (vx last) (vy curr)) (fmul (vy last) (vx curr))) zero
  then ret true
  else result_pop_back ;;; ret false.

(** Lines 135-177: the body of the [for] loop.  Each pass of the inner loop
    that does not break removes one entry, so the size of [result] plus one
    bounds the number of passes. *)
Definition refine_hull (i : nat) : Cmd unit :=
  n <- result_size ;;
  while_true (S n) (pop_loop_body i) ;;;
  p <- points_at i ;;
  result_push_back p.

(** The body of [GrahamScan(first, last, out)], statement by statement;
    [*minY] is read from the caller's memory wherever the source reads it.
    The value is the returned iterator. *)
Definition GrahamScan_cmd (first last : nat) : Cmd nat :=
  n <- range_distance first last ;;
  if (n <? 3)%nat then copy_range_to_out first last ;;; current_out
  else
    minY <- range_min_element CompareYCoordinates first last ;;
    let next := S minY in
    points_insert_range first minY ;;;
    points_insert_range next last ;;;
    origin <- deref minY ;;
    points_sort (CompareByAngle origin) ;;;
    lowest <- deref minY ;;
    points_push_back lowest ;;;
    lowest' <- deref minY ;;
    result_push_back lowest' ;;;
    p0 <- points_at 0 ;;
    result_push_back p0 ;;;
    size <- points_size ;;
    for_loop 1 (size - 1) refine_hull ;;;
    result_pop_back ;;;
    copy_result_to_out ;;;
    current_out.

(** The store at the call: the caller's memory, the output iterator, and
    the two local vectors freshly constructed. *)
Definition initial_store (mem : list Vector2) (o : nat) : Store :=
  mkStore mem [] [] o.

(** What the two copies do to the memory, as functions: [copy_cells] reads
    each cell when its turn comes, so a cell read after it was written
    gives the new value. *)
Fixpoint write_all (o : nat) (vs : list Vector2) (mem : list Vector2)
  : option (list Vector2) :=
  match vs with
  | [] => Some mem
  | v :: vs' =>
      if (o <? length mem)%nat then write_all (S o) vs' (store_at o v mem)
      else None
  end.

Fixpoint copy_cells (src dst n : nat) (mem : list Vector2)
  : option (list Vector2) :=
  match n with
  | O => Some mem
  | S n' =>
      match nth_error mem src with
      | Some v =>
          if (dst <? length mem)%nat
          then copy_cells (S src) (S dst) n' (store_at dst v mem)
          else None
      | None => None
      end
  end.

(** * The exact model

    The same algorithm on points with exact integer coordinates: what the
    program computes when no operation rounds.  The definitions repeat the
    ones of the program with [Z] for [double]; they are the reference the
    properties of the geometry are proved on. *)

Module Exact.

(** ** Points

    [Vector<2>] comes from [matrix.h], which is not part of the sources.
    Modelled from the spec: a Point2D is "an immutable value with two numeric
    coordinates (x, y)" with subtraction and the scalar 2D cross product
    [a.x*b.y - a.y*b.x].  Coordinates are exact integers here: this is the
    arithmetic without rounding.  [vx v] stands for
    [v[0]] and [vy v] for [v[1]]. *)
Record Vector2 : Set := mkVector { vx : Z; vy : Z }.

Definition Vector2_eq_dec (a b : Vector2) : {a = b} + {a <> b}.
Proof. decide equality; apply Z.eq_dec. Defined.

(** [operator-] on [Vector<2>]. *)
Definition vsub (a b : Vector2) : Vector2 :=
  mkVector (vx a - vx b) (vy a - vy b).

(** The 2D cross product written inline at line 167:
    [last[0] * curr[1] - last[1] * curr[0]]. *)
Definition CrossProduct (a b : Vector2) : Z := vx a * vy b - vy a * vx b.

Definition NormSquared (a : Vector2) : Z := vx a * vx a + vy a * vy a.

(** ** The comparators of [grahamscan_detail]

    Only their declarations are in the header; the bodies live in
    [grahamscan.cpp], which is not part of the sources. *)

(** Modelled from the spec: the body of [CompareYCoordinates] is missing.
    "The comparator orders first by y ascending, then by x ascending"; the
    header says "returning whether the lhs has a y coordinate strictly less
    than the rhs's y coordinate.  In the event of a tie, they are then
    compared by their x coordinate." *)
Definition CompareYCoordinates (lhs rhs : Vector2) : bool :=
  if vy lhs =? vy rhs then vx lhs <? vx rhs else vy lhs <? vy rhs.

(** Modelled from the spec: the body of [CompareByAngle::operator()] is
    missing.  The header: "returning whether lhs makes a smaller angle with
    the origin than rhs.  If lhs and rhs make the same angle, the distance
    from the origin to these points is used as a tiebreaker, with the closer
    point winning the tiebreaker."  The spec: "use the sign of the 2D cross product of the two candidate
    vectors to determine relative angular order, and fall back to squared
    distance from the anchor only when the cross product is exactly zero";
    "the closer point precedes the farther one".  The functor's captured
    [origin] is the first argument. *)
Definition CompareByAngle (origin lhs rhs : Vector2) : bool :=
  let one := vsub lhs origin in
  let two := vsub rhs origin in
  let c := CrossProduct one two in
  if c =? 0 then NormSquared one <? NormSquared two else 0 <? c.

(** ** The standard algorithms the function calls *)

Section Algorithms.
Variable comp : Vector2 -> Vector2 -> bool.

(** [std::min_element]: one pass that keeps the position of the smallest
    element seen so far and replaces it only by a strictly smaller one, so
    the first minimum wins.  Positions are indices into the range. *)
Fixpoint min_element_from (smallest : nat) (sv : Vector2) (i : nat)
         (l : list Vector2) : nat :=
  match l with
  | [] => smallest
  | x :: l' =>
      if comp x sv then min_element_from i x (S i) l'
      else min_element_from smallest sv (S i) l'
  end.

Definition min_element (l : list Vector2) : nat :=
  match l with
  | [] => 0%nat
  | x :: l' => min_element_from 0%nat x 1%nat l'
  end.

(** [std::sort] rearranges the range into an order in which no element
    compares less than an element before it.  It is modelled by insertion
    into a sorted prefix; the properties below only use that the result is
    such a rearrangement, and around the anchor there is only one
    ([sorted_points_unique]). *)
Fixpoint sort_insert (x : Vector2) (l : list Vector2) : list Vector2 :=
  match l with
  | [] => [x]
  | y :: l' => if comp x y then x :: y :: l' else y :: sort_insert x l'
  end.

Fixpoint std_sort (l : list Vector2) : list Vector2 :=
  match l with
  | [] => []
  | x :: l' => sort_insert x (std_sort l')
  end.
End Algorithms.

(** ** The hull stack

    [result] is a [std::vector] used as a stack.  It is kept newest first:
    the head of the list is [result[result.size() - 1]], the next entry is
    [result[result.size() - 2]]; [push_back] is a cons and [pop_back] drops
    the head.  [stack_contents] gives the vector in index order. *)
Definition push_back (result : list Vector2) (p : Vector2) := p :: result.
Definition pop_back (result : list Vector2) : option (list Vector2) :=
  match result with
  | [] => None
  | _ :: r => Some r
  end.
Definition stack_contents (result : list Vector2) : list Vector2 := rev result.

(** The [while (true)] loop of lines 140-173 for the candidate [p].  The two
    subscripts need two entries; with fewer the access is out of bounds,
    which is the [None] result.  Every iteration that does not break pops
    one entry, so the loop is a recursion on the stack. *)
Fixpoint pop_loop (p : Vector2) (result : list Vector2)
  : option (list Vector2) :=
  match result with
  | top :: (second :: _) as popped =>
      let last := vsub top second in
      let curr := vsub p top in
      if vx last * vy curr - vy last * vx curr >=? 0 then Some result
      else pop_loop p popped
  | _ => None
  end.

(** The [for] loop of lines 135-177 over the candidates [points[1..]]. *)
Fixpoint sweep (candidates : list Vector2) (result : list Vector2)
  : option (list Vector2) :=
  match candidates with
  | [] => Some result
  | p :: rest =>
      match pop_loop p result with
      | Some r => sweep rest (push_back r p)
      | None => None
      end
  end.

(** The local vector [points] before sorting: the range without the element
    at position [minY]. *)
Definition without_position (minY : nat) (input : list Vector2) :=
  firstn minY input ++ skipn (S minY) input.

(** The sorted working sequence with the anchor appended (lines 108-122). *)
Definition working_sequence (anchor : Vector2) (minY : nat)
           (input : list Vector2) : list Vector2 :=
  std_sort (CompareByAngle anchor) (without_position minY input) ++ [anchor].

(** [GrahamScan(begin, end, out)]: the sequence written through [out], or
    [None] when a subscript or [pop_back] is applied out of bounds. *)
Definition GrahamScan (input : list Vector2) : option (list Vector2) :=
  if (length input <? 3)%nat then Some input
  else
    let minY := min_element CompareYCoordinates input in
    match nth_error input minY with
    | None => None
    | Some anchor =>
        let points := working_sequence anchor minY input in
        match points with
        | [] => None
        | p0 :: candidates =>
            let result := push_back (push_back [] anchor) p0 in
            match sweep candidates result with
            | None => None
            | Some result =>
                match pop_back result with
                | None => None
                | Some result => Some (stack_contents result)
                end
            end
        end
    end.

(** ** The stages of [GrahamScan], named

    The anchor [*minY] and the sorted local vector [points] as functions of
    the input, for stating properties of the intermediate stages. *)
Definition anchor_of (input : list Vector2) : option Vector2 :=
  nth_error input (min_element CompareYCoordinates input).

Definition sorted_points (input : list Vector2) : list Vector2 :=
  match anchor_of input with
  | Some anchor =>
      std_sort (CompareByAngle anchor)
        (without_position (min_element CompareYCoordinates input) input)
  | None => []
  end.

(** ** The loop condition, instrumented

    Every evaluation of the loop body's first statement (line 145) with the
    candidate and the stack it sees, in execution order.  The recursion is
    the one of [pop_loop] and [sweep]. *)
Fixpoint pop_loop_visits (p : Vector2) (result : list Vector2)
  : list (Vector2 * list Vector2) :=
  (p, result) ::
  match result with
  | top :: (second :: _) as popped =>
      let last := vsub top second in
      let curr := vsub p top in
      if vx last * vy curr - vy last * vx curr >=? 0 then []
      else pop_loop_visits p popped
  | _ => []
  end.

Fixpoint sweep_visits (candidates : list Vector2) (result : list Vector2)
  : list (Vector2 * list Vector2) :=
  match candidates with
  | [] => []
  | p :: rest =>
      pop_loop_visits p result ++
      match pop_loop p result with
      | Some r => sweep_visits rest (push_back r p)
      | None => []
      end
  end.

Definition GrahamScan_visits (input : list Vector2)
  : list (Vector2 * list Vector2) :=
  if (length input <? 3)%nat then []
  else
    match anchor_of input, sorted_points input with
    | Some anchor, p0 :: rest =>
        sweep_visits (rest ++ [anchor]) (push_back (push_back [] anchor) p0)
    | _, _ => []
    end.

(** The stack on which the [pop_back] of line 182 is performed. *)
Definition GrahamScan_final_stack (input : list Vector2)
  : option (list Vector2) :=
  if (length input <? 3)%nat then None
  else
    match anchor_of input, sorted_points input with
    | Some anchor, p0 :: rest =>
        sweep (rest ++ [anchor]) (push_back (push_back [] anchor) p0)
    | _, _ => None
    end.

(** ** Notions the properties are stated with *)

(** Turn of the path a -> b -> c: positive for a counter-clockwise turn,
    negative for a clockwise one, zero when collinear. *)
Definition turn (a b c : Vector2) : Z := CrossProduct (vsub b a) (vsub c b).

(** The closed upper half-plane without the negative x-axis: where the
    vectors from the anchor to the other points live. *)
Definition upper (u : Vector2) : Prop := 0 < vy u \/ (vy u = 0 /\ 0 <= vx u).

(** [CompareByAngle] as a proposition on the two translated vectors. *)
Definition angle_lt (u v : Vector2) : Prop :=
  0 < CrossProduct u v \/
  (CrossProduct u v = 0 /\ NormSquared u < NormSquared v).

Definition angle_le (u v : Vector2) : Prop := ~ angle_lt v u.

(** The order of [CompareYCoordinates], non-strict. *)
Definition lex_le (a b : Vector2) : Prop :=
  vy a < vy b \/ (vy a = vy b /\ vx a <= vx b).



(** A stack (newest first) without clockwise turn: every three adjacent
    entries, read in index order, turn left or go straight. *)
Definition clockwise_free (st : list Vector2) : Prop :=
  forall l1 c b a l2, st = l1 ++ c :: b :: a :: l2 -> 0 <= turn a b c.

(** The triple [(p[i-1], p[i], p[i+1])] of a closed polygon, indices taken
    modulo its length. *)
Definition zero_vector : Vector2 := mkVector 0 0.

Definition cyclic_triple (out : list Vector2) (i : nat)
  : Vector2 * Vector2 * Vector2 :=
  let n := length out in
  (nth ((i + n - 1) mod n) out zero_vector,
   nth i out zero_vector,
   nth ((i + 1) mod n) out zero_vector).

Definition no_clockwise_turn (out : list Vector2) : Prop :=
  forall i, (i < length out)%nat ->
    let '(a, b, c) := cyclic_triple out i in 0 <= turn a b c.

(** The edges of the closed polygon through [out], the last one leading
    back to the first vertex. *)
Definition edges (out : list Vector2) : list (Vector2 * Vector2) :=
  combine out (tl out ++ firstn 1 out).

(** The header: "the resulting hull is the intersections of the positive
    half-spaces of all the edges".  A point is in the positive half-space of
    the edge a -> b when it is on the line through it or to its left. *)
Definition positive_half_space (e : Vector2 * Vector2) (q : Vector2) : Prop :=
  0 <= CrossProduct (vsub (snd e) (fst e)) (vsub q (fst e)).

Definition inside_hull (out : list Vector2) (q : Vector2) : Prop :=
  forall e, In e (edges out) -> positive_half_space e q.

(** What [std::sort] establishes between an entry and a later one: the
    later one does not compare less. *)
Definition not_after (comp : Vector2 -> Vector2 -> bool) (a b : Vector2)
  : Prop := comp b a = false.

(** Multiset inclusion of sequences of points: [count l p] is the number
    of occurrences of [p] in [l]. *)
Abbreviation count := (count_occ Vector2_eq_dec).

Definition sub_multiset (out input : list Vector2) : Prop :=
  forall p, (count out p <= count input p)%nat.

(** "Points collinear with the current hull edge are retained in the
    output", read on a run: whenever the loop body meets a candidate whose
    cross product with the two newest stack entries is exactly zero, the
    candidate and the newest entry are points of the output. *)
Definition collinear_retained (input : list Vector2) : Prop :=
  forall out p top second rest,
    GrahamScan input = Some out ->
    In (p, top :: second :: rest) (GrahamScan_visits input) ->
    turn second top p = 0 ->
    In top out /\ In p out.

(** ** Notions for the order and the symmetries of the output *)

(** [subsequence l m]: [l] is [m] with some entries left out, order kept. *)
Inductive subsequence : list Vector2 -> list Vector2 -> Prop :=
| subsequence_empty : forall m, subsequence [] m
| subsequence_keep : forall x l m, subsequence l m -> subsequence (x :: l) (x :: m)
| subsequence_drop : forall x l m, subsequence l m -> subsequence l (x :: m).

(** Moving a point by the vector [d], and stretching it from the origin by
    the factor [k]. *)
Definition translate (d p : Vector2) : Vector2 :=
  mkVector (vx p + vx d) (vy p + vy d).

Definition scale (k : Z) (p : Vector2) : Vector2 :=
  mkVector (k * vx p) (k * vy p).

(** "Not clockwise around the anchor": the vector to [b] is not clockwise
    of the vector to [a]. *)
Definition around (anchor a b : Vector2) : Prop :=
  0 <= CrossProduct (vsub a anchor) (vsub b anchor).

(** All points of a sequence on one line. *)
Definition collinear (l : list Vector2) : Prop :=
  forall a b c, In a l -> In b l -> In c l -> turn a b c = 0.

(** [DotProduct] of [matrix.h], on the two components. *)
Definition DotProduct (a b : Vector2) : Z := vx a * vx b + vy a * vy b.

(** [q] is on the line from [a] to [b] or to its left: in the positive
    half-space of that edge. *)
Definition left_of (a b q : Vector2) : Prop :=
  0 <= CrossProduct (vsub b a) (vsub q a).

(** [a] comes strictly before [b] in the order of [CompareByAngle] around
    the anchor. *)
Definition before (anchor a b : Vector2) : Prop :=
  angle_lt (vsub a anchor) (vsub b anchor).

(** Every point of [seen] is in the positive half-space of every edge
    between two adjacent entries of the stack (newest first). *)
Definition hull_so_far (st seen : list Vector2) : Prop :=
  forall q, In q seen ->
    forall l1 b a l2, st = l1 ++ b :: a :: l2 -> left_of a b q.

(** A stack, newest first, whose entries (the anchor at the bottom
    included) each come strictly after the older ones. *)
Definition descending (anchor : Vector2) (st : list Vector2) : Prop :=
  StronglySorted (fun x y => before anchor y x) st.

(** What the sweep keeps true of the stack and of the points it has seen:
    the stack is sorted around the anchor, holds only the anchor and seen
    points, has the last seen point on top and no clockwise turn, and
    every seen point is to the left of each of its edges. *)
Definition sweep_invariant (anchor : Vector2) (seen st : list Vector2)
  : Prop :=
  descending anchor st /\
  (forall x, In x st -> x = anchor \/ In x seen) /\
  (forall q t r, In q seen -> st = t :: r ->
                 angle_le (vsub q anchor) (vsub t anchor)) /\
  clockwise_free st /\
  hull_so_far st seen.


End Exact.

(** * The program and the exact model

    ** The value of a point

    A finite [double] [m * 2^e] is the integer [m * 2^(e - k)] on the grid
    of step [2^k], when it lies on that grid; a point of the program is
    then a point of the exact model, at the scale [2^-k].  The signs of
    cross products and the comparisons of squared distances and of
    coordinates are the same at every scale. *)
Definition scaled (k : Z) (c : double) : Z :=
  match c with
  | S754_finite s m e => cond_Zopp s (Z.shiftl (Zpos m) (e - k))
  | _ => 0
  end.

(** [c] is finite and a multiple of [2^k]: [scaled k c] loses no digit. *)
Definition on_grid (k : Z) (c : double) : bool :=
  match c with
  | S754_zero _ => true
  | S754_finite _ m e => Z.shiftl (Z.shiftl (Zpos m) (e - k)) (k - e) =? Zpos m
  | _ => false
  end.

Definition value (k : Z) (p : Vector2) : Exact.Vector2 :=
  Exact.mkVector (scaled k (vx p)) (scaled k (vy p)).

Definition values (k : Z) (l : list Vector2) : list Exact.Vector2 :=
  map (value k) l.

(** A pass of the loop body, the candidate and the stack it sees, by
    value. *)
Definition visit_value (f : Vector2 -> Exact.Vector2)
           (v : Vector2 * list Vector2)
  : Exact.Vector2 * list Exact.Vector2 := (f (fst v), map f (snd v)).

Definition point_on_grid (k : Z) (p : Vector2) : bool :=
  on_grid k (vx p) && on_grid k (vy p).

(** ** Ranges on which rounding changes no comparison

    [exact_on k input]: the coordinates of the range are finite multiples
    of [2^k], and for all points of the range the two comparators and the
    test of line 167, computed in [double], answer as exact arithmetic does
    on the values.  This is the range of validity of the reasoning in the
    header's comments; the spec's section 7 names what lies outside it: "the
    only implicit risk is floating-point precision in the cross-product sign
    test". *)
Definition same_answers (k : Z) (o a b : Vector2) : bool :=
  Bool.eqb (CompareYCoordinates a b)
           (Exact.CompareYCoordinates (value k a) (value k b)) &&
  Bool.eqb (CompareByAngle o a b)
           (Exact.CompareByAngle (value k o) (value k a) (value k b)) &&
  Bool.eqb (keeps o a b)
           (Exact.turn (value k o) (value k a) (value k b) >=? 0).

Definition exact_on (k : Z) (input : list Vector2) : bool :=
  forallb (point_on_grid k) input &&
  forallb (fun o =>
    forallb (fun a =>
      forallb (fun b => same_answers k o a b) input) input) input.

(** Multiset inclusion of sequences of points: [count l p] is the number
    of occurrences of [p] in [l]. *)
Abbreviation count := (count_occ Vector2_eq_dec).

Definition sub_multiset (out input : list Vector2) : Prop :=
  forall p, (count out p <= count input p)%nat.

(** "Points collinear with the current hull edge are retained in the
    output", read on a run: whenever the loop body meets a candidate whose
    computed cross product with the two newest stack entries is zero, the
    candidate and the newest entry are points of the output. *)
Definition collinear_retained (input : list Vector2) : Prop :=
  forall out p top second rest,
    GrahamScan input = Some out ->
    In (p, top :: second :: rest) (GrahamScan_visits input) ->
    feq (CrossProduct (vsub top second) (vsub p top)) zero = true ->
    In top out /\ In p out.

(** ** Doubles that hold integers *)

(** A mantissa in the shift register of [SpecFloat] of which no digit has
    been shifted out. *)
Definition exact_record (m : Z) : shr_record := Build_shr_record m false false.

(** [represents x n]: the double [x] is the integer [n], in normal form
    when it is not zero. *)
Definition represents (x : double) (n : Z) : Prop :=
  match x with
  | S754_zero _ => n = 0
  | S754_finite s m e =>
      n <> 0 /\ s = (n <? 0) /\ e = Zdigits2 n - 53 /\
      Zpos m = Z.abs n * 2 ^ (53 - Zdigits2 n)
  | _ => False
  end.

(** [holds v z B]: the point [v] of the program has the integer
    coordinates of [z], of magnitude at most [B]. *)
Definition holds (v : Vector2) (z : Exact.Vector2) (B : Z) : Prop :=
  represents (vx v) (Exact.vx z) /\ represents (vy v) (Exact.vy z) /\
  Z.abs (Exact.vx z) <= B /\ Z.abs (Exact.vy z) <= B.

(** The point of the program with the coordinates of an integer point. *)
Definition integer_point (z : Exact.Vector2) : Vector2 :=
  point (Exact.vx z) (Exact.vy z).

(** ** What the loop has tested

    A stack, newest entry first, of which every three adjacent entries
    have passed the test of line 167 when the newest of them was pushed. *)
Definition kept_chain (st : list Vector2) : Prop :=
  forall l1 c b a l2, st = l1 ++ c :: b :: a :: l2 -> keeps a b c = true.

(** * Properties of the exact model *)

Module ExactFacts.
Import Exact.


Lemma CompareByAngle_spec o a b :
  CompareByAngle o a b = true <-> angle_lt (vsub a o) (vsub b o).
Proof.
  unfold CompareByAngle, angle_lt.
  destruct (Z.eqb_spec (CrossProduct (vsub a o) (vsub b o)) 0) as [E|E].
  - rewrite E, Z.ltb_lt. split; [right; split; auto | intros [H|[_ H]]; [lia | exact H]].
  - rewrite Z.ltb_lt. split; [intros; left; assumption | intros [H|[H _]]; [exact H | contradiction]].
Qed.

Lemma angle_le_iff u v :
  angle_le u v <->
  0 < CrossProduct u v \/ (CrossProduct u v = 0 /\ NormSquared u <= NormSquared v).
Proof.
  unfold angle_le, angle_lt, CrossProduct. lia.
Qed.

Lemma angle_le_trans u v w :
  upper u -> upper v -> upper w ->
  angle_le u v -> angle_le v w -> angle_le u w.
Proof.
  rewrite !angle_le_iff. unfold upper, CrossProduct, NormSquared.
  destruct u as [a b], v as [c d], w as [e f]; simpl.
  intros Hu Hv Hw H1 H2.
  nia.
Qed.



(** ** [std::min_element] *)

Section MinElement.
Variable comp : Vector2 -> Vector2 -> bool.
Hypothesis comp_irrefl : forall x, comp x x = false.
Hypothesis comp_below :
  forall x y z, comp x y = false -> comp z y = true -> comp x z = false.

Lemma min_element_from_spec l :
  forall pre smallest sv,
    nth_error pre smallest = Some sv ->
    (forall q, In q pre -> comp q sv = false) ->
    exists a,
      nth_error (pre ++ l) (min_element_from comp smallest sv (length pre) l)
      = Some a /\
      forall q, In q (pre ++ l) -> comp q a = false.
Proof.
  induction l as [|x l IH]; intros pre smallest sv Hnth Hmin; simpl.
  - exists sv. rewrite app_nil_r. auto.
  - assert (Hlen : length (pre ++ [x]) = S (length pre))
      by (rewrite length_app; simpl; lia).
    assert (Happ : (pre ++ [x]) ++ l = pre ++ x :: l)
      by (rewrite <- app_assoc; reflexivity).
    destruct (comp x sv) eqn:E.
    + destruct (IH (pre ++ [x]) (length pre) x) as [a Ha].
      * rewrite nth_error_app2, Nat.sub_diag by lia. reflexivity.
      * intros q Hq. apply in_app_or in Hq as [Hq|[<-|[]]]; eauto.
      * rewrite Hlen, Happ in Ha. exists a. exact Ha.
    + destruct (IH (pre ++ [x]) smallest sv) as [a Ha].
      * rewrite nth_error_app1; auto.
        apply nth_error_Some. congruence.
      * intros q Hq. apply in_app_or in Hq as [Hq|[<-|[]]]; auto.
      * rewrite Hlen, Happ in Ha. exists a. exact Ha.
Qed.

Lemma min_element_spec l :
  l <> [] ->
  exists a, nth_error l (min_element comp l) = Some a /\
            forall q, In q l -> comp q a = false.
Proof.
  destruct l as [|x l]; [congruence|intros _].
  apply (min_element_from_spec l [x] 0%nat x); [reflexivity|].
  intros q [<-|[]]. apply comp_irrefl.
Qed.
End MinElement.

Lemma CompareYCoordinates_false a b :
  CompareYCoordinates a b = false <-> lex_le b a.
Proof.
  unfold CompareYCoordinates, lex_le.
  destruct (Z.eqb_spec (vy a) (vy b)); rewrite Z.ltb_ge; lia.
Qed.

Lemma CompareYCoordinates_true a b :
  CompareYCoordinates a b = true <-> ~ lex_le b a.
Proof.
  rewrite <- CompareYCoordinates_false. destruct (CompareYCoordinates a b); split; congruence.
Qed.

Lemma anchor_of_spec input :
  input <> [] ->
  exists anchor,
    anchor_of input = Some anchor /\ In anchor input /\
    forall q, In q input -> lex_le anchor q.
Proof.
  intros Hne.
  destruct (min_element_spec CompareYCoordinates) with (l := input)
    as [a [Ha Hmin]]; auto.
  - intros x. apply CompareYCoordinates_false. unfold lex_le. lia.
  - intros x y z. rewrite !CompareYCoordinates_false, CompareYCoordinates_true.
    unfold lex_le. lia.
  - exists a. split; [exact Ha|]. split.
    + eapply nth_error_In; eauto.
    + intros q Hq. apply CompareYCoordinates_false. auto.
Qed.

Lemma lex_le_upper anchor q : lex_le anchor q -> upper (vsub q anchor).
Proof. unfold lex_le, upper, vsub; simpl. lia. Qed.

(** The range is the anchor followed by the other points, up to order. *)
Lemma without_position_perm (input : list Vector2) i a :
  nth_error input i = Some a ->
  Permutation input (a :: without_position i input).
Proof.
  unfold without_position. revert i.
  induction input as [|x l IH]; intros [|i] H; try discriminate.
  - injection H as <-. reflexivity.
  - simpl in H. change (Permutation (x :: l)
      (a :: x :: firstn i l ++ skipn (S i) l)).
    rewrite perm_swap. constructor. apply IH. exact H.
Qed.

(** ** [std::sort] *)

Section Sort.
Variable comp : Vector2 -> Vector2 -> bool.
Variable dom : Vector2 -> Prop.

Hypothesis comp_asym : forall a b, comp a b = true -> comp b a = false.
Hypothesis not_after_trans :
  forall a b c, dom a -> dom b -> dom c ->
                not_after comp a b -> not_after comp b c -> not_after comp a c.

Lemma sort_insert_perm x l : Permutation (sort_insert comp x l) (x :: l).
Proof.
  induction l as [|y l IH]; simpl; auto.
  destruct (comp x y); auto.
  rewrite IH. apply perm_swap.
Qed.

Lemma std_sort_perm l : Permutation (std_sort comp l) l.
Proof.
  induction l as [|x l IH]; simpl; auto.
  rewrite sort_insert_perm. auto.
Qed.

Lemma sort_insert_sorted x l :
  dom x -> Forall dom l ->
  StronglySorted (not_after comp) l ->
  StronglySorted (not_after comp) (sort_insert comp x l).
Proof.
  intros Hx Hd Hs. induction Hs as [|y l Hs IH Hy]; simpl.
  - constructor; constructor.
  - inversion Hd as [|? ? Dy Dl]; subst.
    destruct (comp x y) eqn:E.
    + constructor; [constructor; assumption|].
      constructor; [apply comp_asym; exact E|].
      rewrite Forall_forall in *. intros z Hz.
      apply (not_after_trans x y z); auto. apply comp_asym. exact E.
    + constructor; [apply IH; assumption|].
      rewrite Forall_forall in *. intros z Hz.
      apply (Permutation_in _ (sort_insert_perm x l)) in Hz.
      destruct Hz as [<-|Hz]; auto.
Qed.

Lemma std_sort_sorted l :
  Forall dom l -> StronglySorted (not_after comp) (std_sort comp l).
Proof.
  induction l as [|x l IH]; intros Hd; simpl.
  - constructor.
  - inversion Hd; subst. apply sort_insert_sorted; auto.
    rewrite Forall_forall in *. intros z Hz.
    apply (Permutation_in _ (std_sort_perm l)) in Hz. auto.
Qed.
End Sort.


(** Two rearrangements of the same points that are both sorted are the
    same sequence when mutual "not after" forces equality: the outcome of
    [std::sort] then does not depend on how it sorts. *)
Lemma sorted_rearrangement_unique comp (dom : Vector2 -> Prop) :
  (forall a b, dom a -> dom b ->
               not_after comp a b -> not_after comp b a -> a = b) ->
  forall l l',
    Forall dom l -> Permutation l l' ->
    StronglySorted (not_after comp) l -> StronglySorted (not_after comp) l' ->
    l = l'.
Proof.
  intros Hanti l. induction l as [|x l IH]; intros l' Hd Hp Hs Hs'.
  - apply Permutation_nil in Hp. congruence.
  - destruct l' as [|y l'].
    + apply Permutation_sym, Permutation_nil in Hp. discriminate.
    + inversion Hd as [|? ? Dx Dl]; subst.
      inversion Hs as [|? ? Hs1 Hx]; subst.
      inversion Hs' as [|? ? Hs1' Hy]; subst.
      rewrite Forall_forall in Hx, Hy, Dl.
      assert (Dy : dom y).
      { destruct (Permutation_in y (Permutation_sym Hp)) as [<-|Hin]; auto.
        left. reflexivity. }
      assert (E : x = y).
      { destruct (Permutation_in x Hp) as [->|Hxin]; [left; reflexivity|reflexivity|].
        destruct (Permutation_in y (Permutation_sym Hp)) as [->|Hyin];
          [left; reflexivity|reflexivity|].
        apply Hanti; auto. }
      subst y. f_equal. apply IH; auto.
      * rewrite Forall_forall. exact Dl.
      * apply Permutation_cons_inv in Hp. exact Hp.
Qed.

Lemma angle_le_antisym u v :
  upper u -> upper v -> angle_le u v -> angle_le v u -> u = v.
Proof.
  rewrite !angle_le_iff. unfold upper, CrossProduct, NormSquared.
  destruct u as [a b], v as [c d]; simpl.
  intros Hu Hv H1 H2.
  assert (E : a * d = b * c) by lia.
  assert (N : a * a + b * b = c * c + d * d) by lia.
  clear H1 H2.
  assert (E2 : (a * d) * (a * d) = (b * c) * (b * c)) by (rewrite E; reflexivity).
  assert (P : (a * a + b * b) * (d * d - b * b) = 0).
  { replace ((a * a + b * b) * (d * d - b * b))
      with ((a * d) * (a * d) + b * b * (d * d) - b * b * (a * a + b * b)) by ring.
    rewrite E2, N. ring. }
  assert (Hb : b = d).
  { apply Z.mul_eq_0 in P as [P|P]; nia. }
  subst d.
  assert (Ha : a = c).
  { assert (Q : b * (a - c) = 0) by lia.
    apply Z.mul_eq_0 in Q as [Q|Q]; nia. }
  subst c. reflexivity.
Qed.

Lemma vsub_injective o a b : vsub a o = vsub b o -> a = b.
Proof.
  destruct a as [ax ay], b as [bx by_], o as [ox oy]. unfold vsub; simpl.
  intros H. injection H as H1 H2. f_equal; lia.
Qed.

Lemma angle_lt_asym u v : angle_lt u v -> ~ angle_lt v u.
Proof. unfold angle_lt, CrossProduct. lia. Qed.

Lemma CompareByAngle_false o a b :
  CompareByAngle o a b = false <-> angle_le (vsub b o) (vsub a o).
Proof.
  unfold angle_le. rewrite <- CompareByAngle_spec.
  destruct (CompareByAngle o a b); split; congruence.
Qed.

(** The sorted local vector of a range with at least one point: a
    rearrangement of the points other than the anchor, in which nothing
    compares less than an entry before it. *)
Lemma sorted_points_spec input anchor :
  anchor_of input = Some anchor ->
  (forall q, In q input -> lex_le anchor q) ->
  Permutation input (anchor :: sorted_points input) /\
  StronglySorted (not_after (CompareByAngle anchor))
                 (sorted_points input).
Proof.
  intros Ha Hmin. unfold sorted_points. rewrite Ha. split.
  - rewrite std_sort_perm. apply without_position_perm. exact Ha.
  - apply std_sort_sorted with (dom := fun p => upper (vsub p anchor)).
    + intros a b. rewrite CompareByAngle_spec, CompareByAngle_false.
      intros H. unfold angle_le. apply angle_lt_asym in H. exact H.
    + cbv beta. unfold not_after. intros a b c Da Db Dc.
      rewrite !CompareByAngle_false.
      intros H1 H2. exact (angle_le_trans _ _ _ Da Db Dc H1 H2).
    + rewrite Forall_forall. intros q Hq. apply lex_le_upper, Hmin.
      apply (Permutation_in _ (Permutation_sym (without_position_perm _ _ _ Ha))).
      right. exact Hq.
Qed.

(** Whatever rearrangement of the points other than the anchor [std::sort]
    produces, if it is sorted by [CompareByAngle] it is [sorted_points]. *)
Lemma sorted_points_unique input anchor l :
  anchor_of input = Some anchor ->
  (forall q, In q input -> lex_le anchor q) ->
  Permutation l (without_position (min_element CompareYCoordinates input) input) ->
  StronglySorted (not_after (CompareByAngle anchor)) l ->
  l = sorted_points input.
Proof.
  intros Ha Hmin Hp Hs.
  destruct (sorted_points_spec input anchor Ha Hmin) as [Hperm Hsorted].
  assert (Hl : Permutation l (sorted_points input)).
  { unfold sorted_points. rewrite Ha, std_sort_perm. exact Hp. }
  apply (sorted_rearrangement_unique (CompareByAngle anchor)
           (fun p => upper (vsub p anchor))); auto.
  - cbv beta. unfold not_after. intros a b Da Db.
    rewrite !CompareByAngle_false. intros H1 H2.
    apply (vsub_injective anchor). apply angle_le_antisym; assumption.
  - rewrite Forall_forall. intros q Hq. apply lex_le_upper, Hmin.
    apply (Permutation_in _ (Permutation_sym Hperm)). right.
    apply (Permutation_in _ Hl). exact Hq.
Qed.

(** ** The pop loop *)

Lemma pop_loop_eq p top second rest :
  pop_loop p (top :: second :: rest) =
  if turn second top p >=? 0 then Some (top :: second :: rest)
  else pop_loop p (second :: rest).
Proof. reflexivity. Qed.

Lemma pop_loop_visits_eq p top second rest :
  pop_loop_visits p (top :: second :: rest) =
  (p, top :: second :: rest) ::
  if turn second top p >=? 0 then [] else pop_loop_visits p (second :: rest).
Proof. reflexivity. Qed.

(** What the loop leaves: a suffix of the stack whose two newest entries
    and the candidate do not turn clockwise, after popping entries that each
    turned clockwise. *)
Lemma pop_loop_Some p st st' :
  pop_loop p st = Some st' ->
  exists popped top second rest,
    st = popped ++ st' /\ st' = top :: second :: rest /\
    0 <= turn second top p /\
    forall l1 t s l2, st = l1 ++ t :: s :: l2 ->
                      (length l1 < length popped)%nat -> turn s t p < 0.
Proof.
  revert st'. induction st as [|top st IH]; intros st' H; [discriminate|].
  destruct st as [|second rest]; [discriminate|].
  rewrite pop_loop_eq in H.
  destruct (Z.geb_spec (turn second top p) 0) as [Hge|Hlt].
  - injection H as <-. exists [], top, second, rest.
    repeat split; auto; try lia. simpl. intros; lia.
  - destruct (IH _ H) as (popped & t' & s' & r' & E & E' & Hturn & Hpop).
    exists (top :: popped), t', s', r'. repeat split; auto.
    + simpl. rewrite <- E. reflexivity.
    + intros l1 t s l2 Hst Hlen.
      destruct l1 as [|x l1]; simpl in Hst.
      * injection Hst as <- <- _. lia.
      * injection Hst as _ Hst. apply (Hpop l1 t s l2 Hst). simpl in Hlen. lia.
Qed.

(** The two oldest entries are never popped by a candidate that does not
    turn clockwise after them. *)
Lemma pop_loop_bottom p a p0 pre :
  0 <= turn a p0 p ->
  exists popped pre',
    pre = popped ++ pre' /\
    pop_loop p (pre ++ [p0; a]) = Some (pre' ++ [p0; a]).
Proof.
  intros Hp. induction pre as [|t pre IH].
  - exists [], []. split; [reflexivity|]. simpl app. rewrite pop_loop_eq.
    destruct (Z.geb_spec (turn a p0 p) 0); [reflexivity|lia].
  - destruct IH as (popped & pre' & E & IH).
    assert (Hs : exists s r, pre ++ [p0; a] = s :: r)
      by (destruct pre; simpl; eauto).
    destruct Hs as (s & r & Hs).
    simpl app. rewrite Hs, pop_loop_eq.
    destruct (turn s t p >=? 0).
    + exists [], (t :: pre). split; [reflexivity|]. simpl. rewrite Hs. reflexivity.
    + rewrite <- Hs, IH. exists (t :: popped), pre'. split; [|reflexivity].
      simpl. rewrite E. reflexivity.
Qed.

(** ** The sweep *)

Lemma sweep_app cs1 cs2 st :
  sweep (cs1 ++ cs2) st =
  match sweep cs1 st with
  | Some r => sweep cs2 r
  | None => None
  end.
Proof.
  revert st. induction cs1 as [|c cs1 IH]; intros st; simpl; auto.
  destruct (pop_loop c st); auto.
Qed.

Lemma sweep_bottom a p0 cs :
  (forall c, In c cs -> 0 <= turn a p0 c) ->
  forall pre, exists pre',
    sweep cs (pre ++ [p0; a]) = Some (pre' ++ [p0; a]).
Proof.
  induction cs as [|c cs IH]; intros Hcs pre; simpl.
  - eauto.
  - destruct (pop_loop_bottom c a p0 pre) as (popped & pre' & _ & ->).
    + apply Hcs. left. reflexivity.
    + unfold push_back. apply (IH (fun x Hx => Hcs x (or_intror Hx)) (c :: pre')).
Qed.

(** After the last candidate the stack is that candidate on top of what is
    left above the two oldest entries. *)
Lemma sweep_bottom_last a p0 cs c :
  (forall x, In x (cs ++ [c]) -> 0 <= turn a p0 x) ->
  forall pre, exists pre',
    sweep (cs ++ [c]) (pre ++ [p0; a]) = Some (c :: pre' ++ [p0; a]).
Proof.
  intros Hcs pre. rewrite sweep_app.
  destruct (sweep_bottom a p0 cs) with (pre := pre) as [pre1 ->].
  - intros x Hx. apply Hcs, in_or_app. auto.
  - simpl. destruct (pop_loop_bottom c a p0 pre1) as (popped & pre' & _ & ->).
    + apply Hcs, in_or_app. right. left. reflexivity.
    + exists pre'. reflexivity.
Qed.

Lemma clockwise_free_suffix l st : clockwise_free (l ++ st) -> clockwise_free st.
Proof.
  intros H l1 c b a l2 E. apply (H (l ++ l1) c b a l2).
  rewrite E, app_assoc. reflexivity.
Qed.

Lemma clockwise_free_push p top second rest :
  clockwise_free (top :: second :: rest) ->
  0 <= turn second top p ->
  clockwise_free (p :: top :: second :: rest).
Proof.
  intros H Hp l1 c b a l2 E. destruct l1 as [|x l1]; simpl in E.
  - injection E as <- <- <- _. exact Hp.
  - injection E as _ E. exact (H l1 c b a l2 E).
Qed.

Lemma clockwise_free_short st : (length st <= 2)%nat -> clockwise_free st.
Proof.
  intros Hlen l1 c b a l2 E. rewrite E, length_app in Hlen. simpl in Hlen. lia.
Qed.

(** A triple appended at the old end. *)
Lemma clockwise_free_snoc m c b a :
  clockwise_free (m ++ [c; b]) -> 0 <= turn a b c ->
  clockwise_free (m ++ [c; b; a]).
Proof.
  intros H Hp l1 c' b' a' l2 E.
  destruct (exists_last (l := c' :: b' :: a' :: l2)) as (l3 & z & E3);
    [discriminate|].
  assert (E' : (m ++ [c; b]) ++ [a] = (l1 ++ l3) ++ [z]).
  { rewrite <- !app_assoc. simpl. rewrite <- E3. exact E. }
  apply app_inj_tail in E' as [E' <-].
  destruct l3 as [|x3 [|y3 [|z3 l3]]]; simpl in E3.
  - discriminate.
  - discriminate.
  - injection E3 as <- <- <- _.
    change (m ++ [c; b] = l1 ++ [c'; b']) in E'.
    replace (m ++ [c; b]) with ((m ++ [c]) ++ [b]) in E'
      by (rewrite <- app_assoc; reflexivity).
    replace (l1 ++ [c'; b']) with ((l1 ++ [c']) ++ [b']) in E'
      by (rewrite <- app_assoc; reflexivity).
    apply app_inj_tail in E' as [E' <-].
    apply app_inj_tail in E' as [_ <-]. exact Hp.
  - injection E3 as <- <- <- _. apply (H l1 c' b' a' l3). exact E'.
Qed.

Lemma sweep_clockwise_free cs :
  forall st st', sweep cs st = Some st' ->
                 clockwise_free st -> clockwise_free st'.
Proof.
  induction cs as [|c cs IH]; intros st st' H Hst; simpl in H.
  - injection H as <-. exact Hst.
  - destruct (pop_loop c st) as [r|] eqn:E; [|discriminate].
    apply (IH _ _ H).
    destruct (pop_loop_Some _ _ _ E) as (popped & t & s & rest & E1 & E2 & Ht & _).
    subst st. apply clockwise_free_suffix in Hst. subst r.
    apply clockwise_free_push; assumption.
Qed.

Lemma sweep_count cs :
  forall st st' x, sweep cs st = Some st' ->
                   (count st' x <= count st x + count cs x)%nat.
Proof.
  induction cs as [|c cs IH]; intros st st' x H; simpl in H.
  - injection H as <-. simpl. lia.
  - destruct (pop_loop c st) as [r|] eqn:E; [|discriminate].
    specialize (IH _ _ x H).
    destruct (pop_loop_Some _ _ _ E) as (popped & _ & _ & _ & E1 & _).
    subst st. unfold push_back in IH.
    rewrite count_occ_app.
    change (count (c :: cs) x) with (count ([c] ++ cs) x).
    change (count (c :: r) x) with (count ([c] ++ r) x) in IH.
    rewrite count_occ_app in *. lia.
Qed.

(** ** The whole function on a range of at least three points *)

Lemma turn_from_anchor a p0 x :
  turn a p0 x = CrossProduct (vsub p0 a) (vsub x a).
Proof. unfold turn, CrossProduct, vsub; simpl. ring. Qed.

Lemma turn_back_to_anchor a p0 : turn a p0 a = 0.
Proof. unfold turn, CrossProduct, vsub; simpl. ring. Qed.

Lemma turn_through_anchor a p0 x :
  turn x a p0 = CrossProduct (vsub p0 a) (vsub x a).
Proof. unfold turn, CrossProduct, vsub; simpl. ring. Qed.

Lemma not_before_cross a p0 x :
  CompareByAngle a x p0 = false ->
  0 <= CrossProduct (vsub p0 a) (vsub x a).
Proof.
  rewrite CompareByAngle_false, angle_le_iff. lia.
Qed.

Lemma GrahamScan_stages input anchor p0 rest :
  (3 <= length input)%nat ->
  anchor_of input = Some anchor ->
  sorted_points input = p0 :: rest ->
  GrahamScan_final_stack input = sweep (rest ++ [anchor]) [p0; anchor] /\
  GrahamScan_visits input = sweep_visits (rest ++ [anchor]) [p0; anchor] /\
  GrahamScan input =
  match sweep (rest ++ [anchor]) [p0; anchor] with
  | Some st => match pop_back st with
               | Some r => Some (stack_contents r)
               | None => None
               end
  | None => None
  end.
Proof.
  intros Hlen Ha Hs.
  assert (Hlt : (length input <? 3)%nat = false) by (apply Nat.ltb_ge; exact Hlen).
  unfold GrahamScan_final_stack, GrahamScan_visits, GrahamScan.
  rewrite Hlt, Ha, Hs. repeat split.
  unfold anchor_of in Ha. rewrite Ha.
  unfold working_sequence.
  unfold sorted_points, anchor_of in Hs. rewrite Ha in Hs. rewrite Hs.
  reflexivity.
Qed.

(** The shape of a run on at least three points.  The anchor is a least
    point of the range in the order of [CompareYCoordinates]; the sorted
    vector [p0 :: rest] rearranges the other points; the sweep ends with the
    anchor on top of a stack whose two oldest entries are still the anchor
    and [p0]; the output is that stack without its top. *)
Lemma GrahamScan_run input :
  (3 <= length input)%nat ->
  exists anchor p0 rest pre,
    anchor_of input = Some anchor /\
    In anchor input /\
    (forall q, In q input -> lex_le anchor q) /\
    sorted_points input = p0 :: rest /\
    Permutation input (anchor :: p0 :: rest) /\
    StronglySorted (not_after (CompareByAngle anchor)) (p0 :: rest) /\
    (forall x, In x (rest ++ [anchor]) -> 0 <= turn anchor p0 x) /\
    GrahamScan_final_stack input = Some (anchor :: pre ++ [p0; anchor]) /\
    GrahamScan_visits input = sweep_visits (rest ++ [anchor]) [p0; anchor] /\
    GrahamScan input = Some (anchor :: p0 :: rev pre) /\
    clockwise_free (anchor :: pre ++ [p0; anchor]) /\
    (forall x, (count pre x <= count rest x)%nat).
Proof.
  intros Hlen.
  destruct (anchor_of_spec input) as (anchor & Ha & Hin & Hmin).
  { destruct input; simpl in Hlen; [lia|discriminate]. }
  destruct (sorted_points_spec input anchor Ha Hmin) as [Hperm Hsorted].
  destruct (sorted_points input) as [|p0 rest] eqn:Hs.
  { apply Permutation_length in Hperm. simpl in Hperm. lia. }
  assert (Hturn : forall x, In x (rest ++ [anchor]) -> 0 <= turn anchor p0 x).
  { intros x Hx. apply in_app_or in Hx as [Hx|[<-|[]]].
    - rewrite turn_from_anchor. apply not_before_cross.
      inversion Hsorted as [|? ? _ Hall]; subst.
      rewrite Forall_forall in Hall. apply Hall. exact Hx.
    - rewrite turn_back_to_anchor. lia. }
  destruct (sweep_bottom_last anchor p0 rest anchor Hturn []) as [pre Hsweep].
  simpl app in Hsweep at 2.
  destruct (GrahamScan_stages input anchor p0 rest Hlen Ha Hs) as (Hf & Hv & Hg).
  exists anchor, p0, rest, pre. repeat split; auto.
  - rewrite Hf. exact Hsweep.
  - rewrite Hg, Hsweep. simpl. unfold stack_contents.
    rewrite rev_app_distr. reflexivity.
  - apply (sweep_clockwise_free _ _ _ Hsweep).
    apply clockwise_free_short. simpl. lia.
  - intros x. pose proof (sweep_count _ _ _ x Hsweep) as Hc.
    change (anchor :: pre ++ [p0; anchor]) with ([anchor] ++ pre ++ [p0; anchor]) in Hc.
    rewrite !count_occ_app in Hc. lia.
Qed.

Lemma pop_loop_visits_bottom p a p0 pre :
  0 <= turn a p0 p ->
  Forall (fun v => (2 <= length (snd v))%nat)
         (pop_loop_visits p (pre ++ [p0; a])).
Proof.
  intros Hp. induction pre as [|t pre IH].
  - simpl app. rewrite pop_loop_visits_eq.
    destruct (Z.geb_spec (turn a p0 p) 0); [|lia].
    constructor; [simpl; lia|constructor].
  - assert (Hs : exists s r, pre ++ [p0; a] = s :: r)
      by (destruct pre; simpl; eauto).
    destruct Hs as (s & r & Hs).
    simpl app. rewrite Hs, pop_loop_visits_eq.
    constructor; [simpl; lia|].
    destruct (turn s t p >=? 0); [constructor|].
    rewrite <- Hs. exact IH.
Qed.

Lemma sweep_visits_bottom a p0 cs :
  (forall c, In c cs -> 0 <= turn a p0 c) ->
  forall pre,
    Forall (fun v => (2 <= length (snd v))%nat)
           (sweep_visits cs (pre ++ [p0; a])).
Proof.
  induction cs as [|c cs IH]; intros Hcs pre; simpl.
  - constructor.
  - apply Forall_app. split.
    + apply pop_loop_visits_bottom. apply Hcs. left. reflexivity.
    + destruct (pop_loop_bottom c a p0 pre) as (popped & pre' & _ & ->).
      * apply Hcs. left. reflexivity.
      * unfold push_back.
        apply (IH (fun x Hx => Hcs x (or_intror Hx)) (c :: pre')).
Qed.

(** ** The scenarios of the spec, evaluated *)

(** Square plus interior point, coordinates doubled to keep them integral:
    the four corners, counter-clockwise from (0,0). *)
Example scenario_square_with_interior_point :
  GrahamScan [mkVector 0 0; mkVector 2 0; mkVector 2 2; mkVector 0 2;
              mkVector 1 1]
  = Some [mkVector 0 0; mkVector 2 0; mkVector 2 2; mkVector 0 2].
Proof. reflexivity. Qed.

(** Triangle with a midpoint on an edge: the midpoint stays between the
    endpoints of its edge. *)
Example scenario_midpoint_on_edge :
  GrahamScan [mkVector 0 0; mkVector 2 0; mkVector 1 0; mkVector 1 2]
  = Some [mkVector 0 0; mkVector 1 0; mkVector 2 0; mkVector 1 2].
Proof. reflexivity. Qed.

(** All points collinear: the segment, walked away from the anchor. *)
Example scenario_collinear :
  GrahamScan [mkVector 2 0; mkVector 0 0; mkVector 3 0; mkVector 1 0]
  = Some [mkVector 0 0; mkVector 1 0; mkVector 2 0; mkVector 3 0].
Proof. reflexivity. Qed.

(** ** Ranges of fewer than three points *)

Lemma small_range_copied input :
  (length input < 3)%nat -> GrahamScan input = Some input.
Proof.
  intros H. apply Nat.ltb_lt in H. unfold GrahamScan. rewrite H. reflexivity.
Qed.

(** A range of fewer than three points is copied to the output as it
    is, in its order; no stack is built and the loop condition is never
    evaluated. *)
Theorem GrahamScan_small_range_exact input :
  (length input < 3)%nat ->
  GrahamScan input = Some input /\
  GrahamScan_visits input = [] /\
  GrahamScan_final_stack input = None.
Proof.
  intros H. apply Nat.ltb_lt in H.
  unfold GrahamScan, GrahamScan_visits, GrahamScan_final_stack.
  rewrite H. auto.
Qed.

(** ** Ranges of at least three points *)

Lemma output_counts input :
  (3 <= length input)%nat ->
  exists out,
    GrahamScan input = Some out /\ sub_multiset out input.
Proof.
  intros Hlen.
  destruct (GrahamScan_run input Hlen)
    as (anchor & p0 & rest & pre & _ & _ & _ & _ & Hperm & _ & _ & _ & _ & Hg & _ & Hc).
  exists (anchor :: p0 :: rev pre). split; [exact Hg|].
  intros x. rewrite (Permutation_count_occ Vector2_eq_dec) in Hperm.
  rewrite (Hperm x).
  change (anchor :: p0 :: rev pre) with ([anchor; p0] ++ rev pre).
  change (anchor :: p0 :: rest) with ([anchor; p0] ++ rest).
  rewrite !count_occ_app.
  pose proof (Permutation_rev pre) as Hrev.
  rewrite (Permutation_count_occ Vector2_eq_dec) in Hrev.
  rewrite <- (Hrev x). specialize (Hc x). lia.
Qed.

Lemma sub_multiset_In out input p :
  sub_multiset out input -> In p out -> In p input.
Proof.
  intros Hsub Hp. apply (count_occ_In Vector2_eq_dec) in Hp.
  apply (count_occ_In Vector2_eq_dec). specialize (Hsub p). lia.
Qed.

(** The output is a sub-multiset of the input: no point occurs in it
    more often than in the input, so every output point is an input
    point. *)
Theorem GrahamScan_sub_multiset_exact input :
  (3 <= length input)%nat ->
  exists out,
    GrahamScan input = Some out /\
    sub_multiset out input /\
    forall p, In p out -> In p input.
Proof.
  intros Hlen. destruct (output_counts input Hlen) as (out & Hg & Hsub).
  exists out. repeat split; auto.
  intros p. apply sub_multiset_In. exact Hsub.
Qed.

(** The output starts with the anchor, and the anchor is a point of the
    input that is least in the order "y ascending, then x ascending": no
    input point has a smaller y, and among the points with the anchor's y
    none has a smaller x. *)
Theorem GrahamScan_starts_at_anchor_exact input :
  (3 <= length input)%nat ->
  exists anchor out,
    GrahamScan input = Some (anchor :: out) /\
    In anchor input /\
    (forall q, In q input -> lex_le anchor q) /\
    (forall q, In q input ->
               vy anchor <= vy q /\ (vy q = vy anchor -> vx anchor <= vx q)).
Proof.
  intros Hlen.
  destruct (GrahamScan_run input Hlen)
    as (anchor & p0 & rest & pre & _ & Hin & Hmin & _ & _ & _ & _ & _ & _ & Hg & _).
  exists anchor, (p0 :: rev pre). repeat split; auto;
    specialize (Hmin q H); unfold lex_le in Hmin; lia.
Qed.

(** On every range of at least three points the function returns an
    output; a range whose points all coincide gives an output whose points
    all coincide with them; four copies of (2,2) give four copies of
    (2,2). *)
Theorem GrahamScan_total_exact input :
  (3 <= length input)%nat ->
  (exists out,
      GrahamScan input = Some out /\
      forall c, (forall p, In p input -> p = c) ->
                forall p, In p out -> p = c) /\
  (exists out,
      GrahamScan (repeat (mkVector 2 2) 4) = Some out /\
      forall p, In p out -> p = mkVector 2 2).
Proof.
  intros Hlen. split.
  - destruct (output_counts input Hlen) as (out & Hg & Hsub).
    exists out. split; [exact Hg|]. intros c Hc p Hp.
    apply Hc. exact (sub_multiset_In _ _ _ Hsub Hp).
  - exists (repeat (mkVector 2 2) 4). split; [reflexivity|].
    intros p Hp. apply repeat_spec in Hp. exact Hp.
Qed.

(** Whenever the loop body starts, the stack holds at least two
    entries, so both subscripts are in bounds and a [pop_back] in the loop
    has an entry to remove; the final [pop_back] finds the anchor on top of
    at least two more entries; the function does not leave through an
    out-of-bounds access. *)
Theorem GrahamScan_stack_in_bounds_exact input :
  (3 <= length input)%nat ->
  Forall (fun v => (2 <= length (snd v))%nat) (GrahamScan_visits input) /\
  (exists anchor st,
      anchor_of input = Some anchor /\
      GrahamScan_final_stack input = Some (anchor :: st) /\
      (2 <= length st)%nat /\
      GrahamScan input = Some (stack_contents st)) /\
  GrahamScan input <> None.
Proof.
  intros Hlen.
  destruct (GrahamScan_run input Hlen)
    as (anchor & p0 & rest & pre & Ha & _ & _ & _ & _ & _ & Hturn & Hf & Hv & Hg & _).
  repeat split.
  - rewrite Hv. apply (sweep_visits_bottom anchor p0 _ Hturn []).
  - exists anchor, (pre ++ [p0; anchor]). repeat split; auto.
    + rewrite length_app. simpl. lia.
    + rewrite Hg. unfold stack_contents. rewrite rev_app_distr. reflexivity.
  - rewrite Hg. discriminate.
Qed.

(** ** Turns of the output polygon *)

Lemma nth_split3 (l : list Vector2) d :
  forall i, (i + 2 < length l)%nat ->
    l = firstn i l ++ nth i l d :: nth (S i) l d :: nth (S (S i)) l d
                   :: skipn (i + 3) l.
Proof.
  induction l as [|x l IH]; intros i Hi; simpl in Hi; [lia|].
  destruct i as [|i].
  - destruct l as [|y [|z l]]; simpl in *; try lia. reflexivity.
  - simpl firstn. simpl skipn. rewrite <- app_comm_cons. f_equal.
    apply IH. simpl in Hi. lia.
Qed.

(** The cyclic triples of [out] are the adjacent triples of [out] with its
    last entry put in front and its first entry put behind. *)
Lemma cyclic_extension_nth (out : list Vector2) d i :
  (i < length out)%nat ->
  let n := length out in
  let ext := nth (n - 1) out d :: out ++ [nth 0 out d] in
  nth i ext d = nth ((i + n - 1) mod n) out d /\
  nth (S i) ext d = nth i out d /\
  nth (S (S i)) ext d = nth ((i + 1) mod n) out d.
Proof.
  intros Hi n ext. subst ext. repeat split.
  - destruct i as [|i]; simpl.
    + rewrite Nat.mod_small by lia. reflexivity.
    + rewrite app_nth1 by lia.
      replace (i + n - 0)%nat with (i + 1 * n)%nat by lia.
      rewrite Nat.Div0.mod_add, Nat.mod_small by (fold n; lia). reflexivity.
  - simpl. rewrite app_nth1 by exact Hi. reflexivity.
  - simpl. destruct (Nat.eq_dec (S i) n) as [E|E].
    + rewrite app_nth2 by (fold n; lia). fold n.
      replace (i + 1)%nat with n by lia.
      rewrite Nat.Div0.mod_same. rewrite E, Nat.sub_diag. reflexivity.
    + rewrite app_nth1 by (fold n; lia).
      rewrite Nat.mod_small by (fold n; lia).
      replace (i + 1)%nat with (S i) by lia. reflexivity.
Qed.

Lemma no_clockwise_turn_of_stack st top first :
  nth (length st - 1) (rev st) zero_vector = top ->
  nth 0 (rev st) zero_vector = first ->
  clockwise_free (first :: st ++ [top]) ->
  no_clockwise_turn (rev st).
Proof.
  intros Htop Hfirst Hcf i Hi. unfold cyclic_triple.
  destruct (cyclic_extension_nth (rev st) zero_vector i Hi) as (E1 & E2 & E3).
  cbv zeta in E1, E2, E3. rewrite length_rev in *.
  rewrite Htop, Hfirst in *. rewrite <- E1, <- E2, <- E3.
  set (ext := top :: rev st ++ [first]).
  assert (Hext : ext = rev (first :: st ++ [top])).
  { unfold ext. simpl. rewrite rev_app_distr. reflexivity. }
  assert (Hlen : (i + 2 < length ext)%nat).
  { unfold ext. simpl. rewrite length_app, length_rev. simpl. lia. }
  pose proof (nth_split3 ext zero_vector i Hlen) as Hsplit.
  apply (Hcf (rev (skipn (i + 3) ext)) _ _ _ (rev (firstn i ext))).
  apply (f_equal (@rev Vector2)) in Hsplit.
  rewrite Hext in Hsplit at 1. rewrite rev_involutive in Hsplit.
  rewrite Hsplit, rev_app_distr. simpl. rewrite <- !app_assoc. reflexivity.
Qed.

(** In the output, read as a closed polygon, no three consecutive
    points (indices modulo the length, so also the triples through the
    anchor) turn clockwise: the cross product of the two edge vectors of
    each triple is non-negative. *)
Theorem GrahamScan_no_clockwise_turn_exact input :
  (3 <= length input)%nat ->
  exists out,
    GrahamScan input = Some out /\
    no_clockwise_turn out /\
    forall i, (i < length out)%nat ->
      0 <= CrossProduct
             (vsub (nth i out zero_vector)
                   (nth ((i + length out - 1) mod length out) out zero_vector))
             (vsub (nth ((i + 1) mod length out) out zero_vector)
                   (nth i out zero_vector)).
Proof.
  intros Hlen.
  destruct (GrahamScan_run input Hlen)
    as (anchor & p0 & rest & pre & _ & _ & _ & _ & _ & Hsorted & _ & _ & _ & Hg & Hcf & Hc).
  set (st := pre ++ [p0; anchor]).
  assert (Hout : anchor :: p0 :: rev pre = rev st).
  { unfold st. rewrite rev_app_distr. reflexivity. }
  set (top := hd p0 pre).
  assert (Hst : exists r, st = top :: r).
  { unfold st, top. destruct pre; simpl; eauto. }
  destruct Hst as [r Hst].
  assert (Hno : no_clockwise_turn (rev st)).
  { apply (no_clockwise_turn_of_stack st top anchor).
    - rewrite Hst. simpl. rewrite Nat.sub_0_r, <- (length_rev r).
      apply nth_middle.
    - rewrite <- Hout. reflexivity.
    - unfold st. rewrite <- app_assoc. simpl app.
      apply (clockwise_free_snoc (anchor :: pre) p0 anchor top); [exact Hcf|].
      rewrite turn_through_anchor. unfold top. destruct pre as [|x pre]; simpl.
      + unfold CrossProduct. lia.
      + apply not_before_cross.
        inversion Hsorted as [|? ? _ Hall]; subst.
        rewrite Forall_forall in Hall. apply Hall.
        apply (count_occ_In Vector2_eq_dec). specialize (Hc x).
        simpl in Hc. destruct (Vector2_eq_dec x x); [lia|contradiction]. }
  exists (rev st). rewrite <- Hout. split; [exact Hg|]. rewrite Hout.
  split; [exact Hno|].
  intros i Hi. specialize (Hno i Hi). unfold cyclic_triple in Hno. exact Hno.
Qed.

(** ** The angular order of the working sequence *)


(** ** Collinear points in the sweep *)

(** The loop stops at the first stack whose two
    newest entries and the candidate have a non-negative cross product,
    every entry popped before had a strictly negative one, a cross product
    of exactly zero at the top pops nothing, and the candidate is then
    pushed on the stack the loop left.  A point collinear with the current
    hull edge thus stays on the stack under the candidate; whether it is in
    the output depends on the later candidates. *)
Theorem pop_loop_pops_while_clockwise_exact p st st' :
  pop_loop p st = Some st' ->
  (exists popped top second rest,
      st = popped ++ st' /\ st' = top :: second :: rest /\
      0 <= turn second top p /\
      forall l1 t s l2, st = l1 ++ t :: s :: l2 ->
                        (length l1 < length popped)%nat -> turn s t p < 0) /\
  (forall top second rest,
      st = top :: second :: rest -> turn second top p = 0 -> st' = st) /\
  (forall cs, sweep (p :: cs) st = sweep cs (p :: st')).
Proof.
  intros H. split; [|split].
  - apply pop_loop_Some. exact H.
  - intros top second rest E Hz. subst st. rewrite pop_loop_eq in H.
    destruct (Z.geb_spec (turn second top p) 0); [|lia]. congruence.
  - intros cs. simpl. rewrite H. reflexivity.
Qed.

(** On this range the candidate (0,2) meets the
    stack top (1,1) over (2,0) with a cross product of exactly zero and is
    pushed without a pop, yet the later candidate (0,3) pops both, and the
    output holds neither, although (0,2) lies on the hull edge from (0,3)
    to (0,0). *)
Lemma collinear_point_not_retained_exact :
  GrahamScan [mkVector 0 0; mkVector 2 0; mkVector 1 1; mkVector 0 2;
              mkVector 0 3]
  = Some [mkVector 0 0; mkVector 2 0; mkVector 0 3] /\
  turn (mkVector 0 3) (mkVector 0 2) (mkVector 0 0) = 0 /\
  ~ collinear_retained [mkVector 0 0; mkVector 2 0; mkVector 1 1;
                        mkVector 0 2; mkVector 0 3].
Proof.
  split; [reflexivity|]. split; [reflexivity|].
  intros H.
  destruct (H [mkVector 0 0; mkVector 2 0; mkVector 0 3]
              (mkVector 0 2) (mkVector 1 1) (mkVector 2 0) [mkVector 0 0])
    as [_ Hin].
  - reflexivity.
  - simpl. right. left. reflexivity.
  - reflexivity.
  - simpl in Hin. destruct Hin as [E|[E|[E|[]]]]; discriminate.
Qed.

(** ** A duplicated point *)

(** On a range with a duplicated point the output is not the
    convex hull.  After the second (3,1) is pushed the last hull edge has
    length zero, its cross product with every later candidate is zero, and
    nothing below is popped any more.  So (3,1) stays in the output, twice,
    although it lies strictly inside the square that is the hull, and the
    input point (4,4) lies strictly on the negative side of the output edge
    from (4,0) to (3,1): it is outside the intersection of the positive
    half-spaces of the output's edges. *)
Theorem GrahamScan_duplicate_point_not_hull_exact :
  GrahamScan [mkVector 0 0; mkVector 4 0; mkVector 3 1; mkVector 3 1;
              mkVector 4 4; mkVector 0 4]
  = Some [mkVector 0 0; mkVector 4 0; mkVector 3 1; mkVector 3 1;
          mkVector 4 4; mkVector 0 4] /\
  In (mkVector 4 0, mkVector 3 1)
     (edges [mkVector 0 0; mkVector 4 0; mkVector 3 1; mkVector 3 1;
             mkVector 4 4; mkVector 0 4]) /\
  CrossProduct (vsub (mkVector 3 1) (mkVector 4 0))
               (vsub (mkVector 4 4) (mkVector 4 0)) = -4 /\
  ~ inside_hull [mkVector 0 0; mkVector 4 0; mkVector 3 1; mkVector 3 1;
                 mkVector 4 4; mkVector 0 4] (mkVector 4 4) /\
  (forall q, In q [mkVector 0 0; mkVector 4 0; mkVector 3 1; mkVector 3 1;
                   mkVector 4 4; mkVector 0 4] ->
             inside_hull [mkVector 0 0; mkVector 4 0; mkVector 4 4;
                          mkVector 0 4] q) /\
  (forall e, In e (edges [mkVector 0 0; mkVector 4 0; mkVector 4 4;
                          mkVector 0 4]) ->
             0 < CrossProduct (vsub (snd e) (fst e))
                              (vsub (mkVector 3 1) (fst e))).
Proof.
  split; [reflexivity|]. split; [simpl; auto|]. split; [reflexivity|].
  split; [|split].
  - intros H. specialize (H (mkVector 4 0, mkVector 3 1)).
    unfold positive_half_space in H. simpl in H.
    assert (Hc : 0 <= CrossProduct (mkVector (3 - 4) (1 - 0))
                                   (mkVector (4 - 4) (4 - 0))) by auto.
    unfold CrossProduct in Hc. simpl in Hc. lia.
  - intros q Hq e He. unfold positive_half_space.
    simpl in Hq, He.
    repeat (destruct Hq as [<-|Hq]); try contradiction;
      repeat (destruct He as [<-|He]); try contradiction;
      unfold CrossProduct, vsub; simpl; lia.
  - intros e He. simpl in He.
    repeat (destruct He as [<-|He]); try contradiction;
      unfold CrossProduct, vsub; simpl; lia.
Qed.

(** * Further properties of the sweep and of the output *)

(** ** Subsequences *)

Lemma subsequence_refl l : subsequence l l.
Proof. induction l; constructor; assumption. Qed.

Lemma subsequence_app_r l m k : subsequence l m -> subsequence l (m ++ k).
Proof. induction 1; simpl; constructor; assumption. Qed.

Lemma subsequence_app_l l m k : subsequence l m -> subsequence l (k ++ m).
Proof. intros H. induction k; simpl; [assumption|constructor; assumption]. Qed.

Lemma subsequence_insert k m1 :
  forall l m2, subsequence l (m1 ++ m2) -> subsequence l (m1 ++ k ++ m2).
Proof.
  induction m1 as [|x m1 IH]; intros l m2 H; simpl in *.
  - apply subsequence_app_l. exact H.
  - inversion H; subst; constructor; auto.
Qed.

Lemma subsequence_snoc l m x :
  subsequence l m -> subsequence (l ++ [x]) (m ++ [x]).
Proof.
  induction 1; simpl.
  - apply subsequence_app_l. constructor. constructor.
  - constructor. assumption.
  - constructor. assumption.
Qed.

Lemma subsequence_In l m x : subsequence l m -> In x l -> In x m.
Proof.
  induction 1; simpl; intros Hx; [contradiction| |auto].
  destruct Hx; auto.
Qed.

Lemma subsequence_length l m : subsequence l m -> (length l <= length m)%nat.
Proof. induction 1; simpl; lia. Qed.

Lemma subsequence_Forall (Q : Vector2 -> Prop) l m :
  subsequence l m -> Forall Q m -> Forall Q l.
Proof.
  intros Hs Hm. rewrite Forall_forall in *. intros x Hx.
  apply Hm. eapply subsequence_In; eauto.
Qed.

Lemma subsequence_sorted (R : Vector2 -> Vector2 -> Prop) l m :
  subsequence l m -> StronglySorted R m -> StronglySorted R l.
Proof.
  induction 1; intros Hm.
  - constructor.
  - inversion Hm; subst. constructor; auto.
    eapply subsequence_Forall; eauto.
  - inversion Hm; subst. auto.
Qed.

Lemma subsequence_NoDup l m : subsequence l m -> NoDup m -> NoDup l.
Proof.
  induction 1; intros Hm.
  - constructor.
  - inversion Hm; subst. constructor; auto.
    intros Hx. eapply subsequence_In in Hx; eauto.
  - inversion Hm; subst. auto.
Qed.

Lemma subsequence_count l m x :
  subsequence l m -> (count l x <= count m x)%nat.
Proof.
  induction 1; simpl; try lia.
  - destruct (Vector2_eq_dec x0 x); lia.
  - destruct (Vector2_eq_dec x0 x); lia.
Qed.

(** What is left of the stack above its two oldest entries lists, oldest
    first, a subsequence of what was there followed by the candidates. *)
Lemma sweep_bottom_subsequence a p0 cs :
  (forall c, In c cs -> 0 <= turn a p0 c) ->
  forall pre, exists pre',
    sweep cs (pre ++ [p0; a]) = Some (pre' ++ [p0; a]) /\
    subsequence (rev pre') (rev pre ++ cs) /\
    (cs <> [] -> exists pre'', pre' = last cs a :: pre'').
Proof.
  induction cs as [|c cs IH]; intros Hcs pre.
  - exists pre. simpl. rewrite app_nil_r.
    split; [reflexivity|]. split; [apply subsequence_refl|congruence].
  - destruct (pop_loop_bottom c a p0 pre) as (popped & pre1 & E & Hpop).
    { apply Hcs. left. reflexivity. }
    destruct (IH (fun x Hx => Hcs x (or_intror Hx)) (c :: pre1))
      as (pre' & Hsw & Hsub & Hlast).
    exists pre'. simpl sweep. rewrite Hpop. unfold push_back.
    split; [exact Hsw|]. split.
    + subst pre. rewrite rev_app_distr, <- app_assoc.
      simpl rev in Hsub. rewrite <- app_assoc in Hsub. simpl app in Hsub.
      apply subsequence_insert. exact Hsub.
    + intros _. destruct cs as [|c' cs].
      * simpl in Hsw. injection Hsw as Hsw.
        change (c :: pre1 ++ [p0; a]) with ((c :: pre1) ++ [p0; a]) in Hsw.
        apply app_inv_tail in Hsw. subst pre'. exists pre1. reflexivity.
      * change (last (c :: c' :: cs) a) with (last (c' :: cs) a).
        apply Hlast. discriminate.
Qed.

(** ** The shape of a run, with the order of the stack *)

Lemma turn_to_anchor a s t :
  turn s t a = CrossProduct (vsub s a) (vsub t a).
Proof. unfold turn, CrossProduct, vsub; simpl. ring. Qed.

Lemma StronglySorted_weaken (R S : Vector2 -> Vector2 -> Prop) l :
  (forall a b, R a b -> S a b) -> StronglySorted R l -> StronglySorted S l.
Proof.
  intros HRS. induction 1 as [|x l Hl IH Hx]; constructor; auto.
  rewrite Forall_forall in *. auto.
Qed.

Lemma StronglySorted_last_two (R : Vector2 -> Vector2 -> Prop) l s t :
  StronglySorted R (l ++ [s; t]) -> R s t.
Proof.
  induction l as [|x l IH]; simpl; intros H; inversion H as [|? ? H1 H2]; subst.
  - inversion H2; subst. assumption.
  - auto.
Qed.

Lemma around_sorted anchor l :
  StronglySorted (not_after (CompareByAngle anchor)) l ->
  StronglySorted (around anchor) (anchor :: l).
Proof.
  intros H. constructor.
  - apply (StronglySorted_weaken (not_after (CompareByAngle anchor))); auto.
    intros a b. unfold not_after, around. apply not_before_cross.
  - rewrite Forall_forall. intros x _. unfold around, CrossProduct, vsub.
    simpl. lia.
Qed.

(** A stack whose entries, oldest first, go around the anchor is left as
    it is by the anchor as candidate: the last pass of the [for] loop pops
    nothing. *)
Lemma pop_loop_anchor anchor st :
  (2 <= length st)%nat ->
  StronglySorted (around anchor) (rev st) ->
  pop_loop anchor st = Some st.
Proof.
  intros Hlen Hs. destruct st as [|t [|s r]]; simpl in Hlen; try lia.
  rewrite pop_loop_eq, turn_to_anchor.
  simpl rev in Hs. rewrite <- app_assoc in Hs. simpl app in Hs.
  apply StronglySorted_last_two in Hs. unfold around in Hs.
  destruct (Z.geb_spec (CrossProduct (vsub s anchor) (vsub t anchor)) 0);
    [reflexivity|lia].
Qed.

(** The run on at least three points, with the order of what it keeps:
    the sweep over the sorted points leaves [pre] above the first sorted
    point and the anchor, with the last sorted point on top; [pre], oldest
    first, is a subsequence of the sorted points after the first; the
    closing candidate, the anchor, pops nothing. *)
Lemma GrahamScan_shape input :
  (3 <= length input)%nat ->
  exists anchor p0 rest pre,
    anchor_of input = Some anchor /\
    (forall q, In q input -> lex_le anchor q) /\
    sorted_points input = p0 :: rest /\
    Permutation input (anchor :: p0 :: rest) /\
    StronglySorted (not_after (CompareByAngle anchor)) (p0 :: rest) /\
    sweep rest [p0; anchor] = Some (pre ++ [p0; anchor]) /\
    pop_loop anchor (pre ++ [p0; anchor]) = Some (pre ++ [p0; anchor]) /\
    subsequence (rev pre) rest /\
    (exists pre', pre = last rest anchor :: pre') /\
    GrahamScan_visits input = sweep_visits (rest ++ [anchor]) [p0; anchor] /\
    GrahamScan input = Some (anchor :: p0 :: rev pre) /\
    clockwise_free (anchor :: pre ++ [p0; anchor]).
Proof.
  intros Hlen.
  destruct (anchor_of_spec input) as (anchor & Ha & Hin & Hmin).
  { destruct input; simpl in Hlen; [lia|discriminate]. }
  destruct (sorted_points_spec input anchor Ha Hmin) as [Hperm Hsorted].
  destruct (sorted_points input) as [|p0 rest] eqn:Hs.
  { apply Permutation_length in Hperm. simpl in Hperm. lia. }
  assert (Hrest : rest <> []).
  { intros ->. apply Permutation_length in Hperm. simpl in Hperm. lia. }
  assert (Hturn : forall x, In x rest -> 0 <= turn anchor p0 x).
  { intros x Hx. rewrite turn_from_anchor. apply not_before_cross.
    inversion Hsorted as [|? ? _ Hall]; subst.
    rewrite Forall_forall in Hall. apply Hall. exact Hx. }
  destruct (sweep_bottom_subsequence anchor p0 rest Hturn [])
    as (pre & Hsw & Hsub & Hlast).
  simpl app in Hsw at 1. simpl in Hsub.
  assert (Hpop : pop_loop anchor (pre ++ [p0; anchor]) = Some (pre ++ [p0; anchor])).
  { apply pop_loop_anchor.
    - rewrite length_app. simpl. lia.
    - rewrite rev_app_distr. simpl.
      apply (subsequence_sorted _ _ (anchor :: p0 :: rest)).
      + constructor. constructor. exact Hsub.
      + apply around_sorted. exact Hsorted. }
  assert (Hfull : sweep (rest ++ [anchor]) [p0; anchor]
                  = Some (anchor :: pre ++ [p0; anchor])).
  { rewrite sweep_app, Hsw. simpl. rewrite Hpop. reflexivity. }
  destruct (GrahamScan_stages input anchor p0 rest Hlen Ha Hs) as (Hf & Hv & Hg).
  exists anchor, p0, rest, pre. repeat split; auto.
  - rewrite Hg, Hfull. simpl. unfold stack_contents.
    rewrite rev_app_distr. reflexivity.
  - apply (sweep_clockwise_free _ _ _ Hfull).
    apply clockwise_free_short. simpl. lia.
Qed.

(** ** How often the loop body runs *)

Lemma pop_loop_visits_length p st :
  forall st', pop_loop p st = Some st' ->
    (length (pop_loop_visits p st) + length st' = length st + 1)%nat.
Proof.
  induction st as [|top st IH]; intros st' H; [discriminate|].
  destruct st as [|second r]; [discriminate|].
  rewrite pop_loop_eq in H. rewrite pop_loop_visits_eq.
  destruct (turn second top p >=? 0).
  - injection H as <-. simpl. lia.
  - specialize (IH _ H). simpl length in *. lia.
Qed.

Lemma sweep_visits_length cs :
  forall st st', sweep cs st = Some st' ->
    (length (sweep_visits cs st) + length st'
     = length st + 2 * length cs)%nat.
Proof.
  induction cs as [|c cs IH]; intros st st' H; simpl in H.
  - injection H as <-. simpl. lia.
  - destruct (pop_loop c st) as [r|] eqn:E; [|discriminate].
    simpl sweep_visits. rewrite E, length_app.
    pose proof (pop_loop_visits_length _ _ _ E) as H1.
    specialize (IH _ _ H). unfold push_back in *. simpl length in *. lia.
Qed.

(** ** A chain without clockwise turn is swept without a pop *)

Lemma sweep_cons c cs st :
  sweep (c :: cs) st =
  match pop_loop c st with
  | Some r => sweep cs (c :: r)
  | None => None
  end.
Proof. reflexivity. Qed.

Lemma sweep_no_pop cs :
  forall st, (2 <= length st)%nat ->
             clockwise_free (rev cs ++ st) ->
             sweep cs st = Some (rev cs ++ st).
Proof.
  induction cs as [|c cs IH]; intros st Hlen Hcf; [reflexivity|].
  simpl rev in *. rewrite <- app_assoc in *. simpl app in *.
  destruct st as [|t [|s r]]; simpl in Hlen; try lia.
  rewrite sweep_cons, pop_loop_eq.
  pose proof (Hcf (rev cs) c t s r eq_refl) as Hturn.
  destruct (Z.geb_spec (turn s t c) 0); [|lia].
  apply IH; [simpl; lia|exact Hcf].
Qed.

(** ** [std::min_element] on a range that starts with a least element *)

Lemma min_element_from_keeps comp smallest sv l :
  forall i, (forall x, In x l -> comp x sv = false) ->
            min_element_from comp smallest sv i l = smallest.
Proof.
  induction l as [|x l IH]; intros i H; simpl; [reflexivity|].
  rewrite (H x) by (left; reflexivity).
  apply IH. intros y Hy. apply H. right. exact Hy.
Qed.

Lemma anchor_of_head a l :
  (forall q, In q l -> lex_le a q) ->
  min_element CompareYCoordinates (a :: l) = 0%nat /\
  anchor_of (a :: l) = Some a.
Proof.
  intros H.
  assert (E : min_element CompareYCoordinates (a :: l) = 0%nat).
  { simpl. apply min_element_from_keeps. intros x Hx.
    apply CompareYCoordinates_false. auto. }
  split; [exact E|]. unfold anchor_of. rewrite E. reflexivity.
Qed.

Lemma lex_le_antisym a b : lex_le a b -> lex_le b a -> a = b.
Proof.
  destruct a as [ax ay], b as [bx by_]. unfold lex_le; simpl.
  intros H1 H2. f_equal; lia.
Qed.

Lemma lex_le_refl a : lex_le a a.
Proof. unfold lex_le. lia. Qed.

(** ** The order and the size of the output *)

Lemma rest_nonempty input (anchor p0 : Vector2) rest :
  (3 <= length input)%nat ->
  Permutation input (anchor :: p0 :: rest) -> rest <> [].
Proof.
  intros Hlen Hp ->. apply Permutation_length in Hp. simpl in Hp. lia.
Qed.

(** On a range of at least three points the output is the anchor
    followed by a subsequence of the sorted working sequence: the points
    come in the order of the angular sort, and the first and the last
    point of that order are always kept. *)
Theorem GrahamScan_output_order_exact input :
  (3 <= length input)%nat ->
  exists anchor out,
    anchor_of input = Some anchor /\
    GrahamScan input = Some (anchor :: out) /\
    subsequence out (sorted_points input) /\
    hd anchor out = hd anchor (sorted_points input) /\
    last out anchor = last (sorted_points input) anchor.
Proof.
  intros Hlen.
  destruct (GrahamScan_shape input Hlen)
    as (anchor & p0 & rest & pre & Ha & _ & Hs & Hperm & _ & _ & _ & Hsub
        & (pre' & Hpre) & _ & Hg & _).
  exists anchor, (p0 :: rev pre). rewrite Hs. repeat split; auto.
  - constructor. exact Hsub.
  - pose proof (rest_nonempty _ _ _ _ Hlen Hperm) as Hne.
    subst pre. simpl rev. rewrite app_comm_cons, last_last.
    destruct rest; [congruence|reflexivity].
Qed.

(** On a range of at least three points the output has at least three
    points and at most as many as the range. *)
Theorem GrahamScan_output_length_exact input :
  (3 <= length input)%nat ->
  exists out,
    GrahamScan input = Some out /\
    (3 <= length out <= length input)%nat.
Proof.
  intros Hlen.
  destruct (GrahamScan_shape input Hlen)
    as (anchor & p0 & rest & pre & _ & _ & _ & Hperm & _ & _ & _ & Hsub
        & (pre' & Hpre) & _ & Hg & _).
  exists (anchor :: p0 :: rev pre). split; [exact Hg|].
  apply subsequence_length in Hsub. apply Permutation_length in Hperm.
  rewrite length_rev in Hsub. simpl in *. rewrite length_rev.
  subst pre. simpl in *. lia.
Qed.

(** A range of at least three points without a repeated point gives an
    output without a repeated point: the anchor that closes the sweep is
    not left in it a second time. *)
Theorem GrahamScan_output_NoDup_exact input :
  (3 <= length input)%nat ->
  NoDup input ->
  exists out, GrahamScan input = Some out /\ NoDup out.
Proof.
  intros Hlen Hnd.
  destruct (GrahamScan_shape input Hlen)
    as (anchor & p0 & rest & pre & _ & _ & _ & Hperm & _ & _ & _ & Hsub
        & _ & _ & Hg & _).
  exists (anchor :: p0 :: rev pre). split; [exact Hg|].
  apply (subsequence_NoDup _ (anchor :: p0 :: rest)).
  - constructor. constructor. exact Hsub.
  - eapply Permutation_NoDup; eauto.
Qed.

(** The loop body runs a number of times that is linear in the size
    of the range: together with the size of the output it makes twice the
    size of the range less one, so at most twice the size less four. *)
Theorem GrahamScan_visits_linear_exact input :
  (3 <= length input)%nat ->
  exists out,
    GrahamScan input = Some out /\
    (length (GrahamScan_visits input) + length out + 1
     = 2 * length input)%nat /\
    (length (GrahamScan_visits input) <= 2 * length input - 4)%nat.
Proof.
  intros Hlen.
  destruct (GrahamScan_shape input Hlen)
    as (anchor & p0 & rest & pre & _ & _ & _ & Hperm & _ & Hsw & Hpop & _
        & (pre' & Hpre) & Hv & Hg & _).
  exists (anchor :: p0 :: rev pre). split; [exact Hg|].
  assert (Hfull : sweep (rest ++ [anchor]) [p0; anchor]
                  = Some (anchor :: pre ++ [p0; anchor])).
  { rewrite sweep_app, Hsw. simpl. rewrite Hpop. reflexivity. }
  apply sweep_visits_length in Hfull. rewrite <- Hv in Hfull.
  apply Permutation_length in Hperm.
  rewrite length_app in Hfull. simpl in Hfull, Hperm.
  rewrite length_app in Hfull. simpl in Hfull.
  simpl length. rewrite length_rev. subst pre. simpl in *. lia.
Qed.

(** ** Running the function on its own output, and on a rearranged range *)

Lemma shape_lex_le input (anchor p0 : Vector2) rest x :
  (forall q, In q input -> lex_le anchor q) ->
  Permutation input (anchor :: p0 :: rest) ->
  In x (p0 :: rest) -> lex_le anchor x.
Proof.
  intros Hmin Hperm Hx. apply Hmin.
  apply (Permutation_in _ (Permutation_sym Hperm)). right. exact Hx.
Qed.

(** The run on a range that is the anchor followed by points already
    sorted around it, when that closed chain has no clockwise turn: nothing
    is popped and the range comes back. *)
Lemma convex_chain_run anchor p0 l :
  l <> [] ->
  (forall q, In q (p0 :: l) -> lex_le anchor q) ->
  StronglySorted (not_after (CompareByAngle anchor)) (p0 :: l) ->
  clockwise_free (anchor :: rev l ++ [p0; anchor]) ->
  sorted_points (anchor :: p0 :: l) = p0 :: l /\
  GrahamScan (anchor :: p0 :: l) = Some (anchor :: p0 :: l).
Proof.
  intros Hne Hmin Hsorted Hcf.
  destruct (anchor_of_head anchor (p0 :: l) Hmin) as [Hmin0 Ha].
  assert (Hall : forall q, In q (anchor :: p0 :: l) -> lex_le anchor q).
  { intros q [<-|Hq]; [apply lex_le_refl|auto]. }
  assert (Hs : sorted_points (anchor :: p0 :: l) = p0 :: l).
  { symmetry. apply (sorted_points_unique _ anchor); auto.
    rewrite Hmin0. reflexivity. }
  split; [exact Hs|].
  assert (Hlen : (3 <= length (anchor :: p0 :: l))%nat).
  { destruct l; [congruence|simpl; lia]. }
  destruct (GrahamScan_stages _ anchor p0 l Hlen Ha Hs) as (_ & _ & ->).
  rewrite (sweep_no_pop (l ++ [anchor]) [p0; anchor]).
  - rewrite rev_app_distr. simpl. unfold stack_contents.
    rewrite rev_app_distr, rev_involutive. reflexivity.
  - simpl; lia.
  - rewrite rev_app_distr. simpl. exact Hcf.
Qed.

(** The function is idempotent: run on its own output it returns that
    output. *)
Theorem GrahamScan_idempotent_exact input out :
  GrahamScan input = Some out -> GrahamScan out = Some out.
Proof.
  intros H. destruct (Nat.ltb_spec (length input) 3) as [Hlt|Hge].
  - rewrite (small_range_copied input Hlt) in H. injection H as <-.
    apply small_range_copied. exact Hlt.
  - destruct (GrahamScan_shape input Hge)
      as (anchor & p0 & rest & pre & _ & Hmin & _ & Hperm & Hsorted & _ & _
          & Hsub & (pre' & Hpre) & _ & Hg & Hcf).
    rewrite Hg in H. injection H as <-.
    apply convex_chain_run.
    + subst pre. simpl. destruct (rev pre'); discriminate.
    + intros q Hq. apply (shape_lex_le input anchor p0 rest); auto.
      destruct Hq as [<-|Hq]; [left; reflexivity|right].
      eapply subsequence_In; eauto.
    + apply (subsequence_sorted _ _ (p0 :: rest)); auto.
      constructor. exact Hsub.
    + rewrite rev_involutive. exact Hcf.
Qed.

(** On at least three points the output depends on the points of the
    range and not on their order: a rearranged range gives the same
    output. *)
Theorem GrahamScan_order_independent_exact input input' :
  (3 <= length input)%nat ->
  Permutation input input' ->
  GrahamScan input' = GrahamScan input.
Proof.
  intros Hlen Hp.
  assert (Hlen' : (3 <= length input')%nat)
    by (rewrite <- (Permutation_length Hp); exact Hlen).
  destruct (GrahamScan_shape input Hlen)
    as (a & p0 & rest & pre & Ha & Hmin & Hs & Hperm & _ & _ & _ & _ & _ & _
        & Hg & _).
  destruct (GrahamScan_shape input' Hlen')
    as (a' & p0' & rest' & pre' & Ha' & Hmin' & Hs' & Hperm' & Hsorted' & _
        & _ & _ & _ & _ & Hg' & _).
  assert (Ea : a' = a).
  { apply lex_le_antisym.
    - apply Hmin'. apply (Permutation_in _ Hp).
      apply (Permutation_in _ (Permutation_sym Hperm)). left. reflexivity.
    - apply Hmin. apply (Permutation_in _ (Permutation_sym Hp)).
      apply (Permutation_in _ (Permutation_sym Hperm')). left. reflexivity. }
  subst a'.
  assert (Es : p0' :: rest' = sorted_points input).
  { apply (sorted_points_unique input a); auto.
    apply (Permutation_cons_inv (a := a)).
    rewrite <- Hperm', <- Hp.
    apply without_position_perm. exact Ha. }
  rewrite Hs in Es. injection Es as -> ->.
  destruct (GrahamScan_stages input a p0 rest Hlen Ha Hs) as (_ & _ & ->).
  destruct (GrahamScan_stages input' a p0 rest Hlen' Ha' Hs') as (_ & _ & ->).
  reflexivity.
Qed.

(** ** Ranges of which no point is dropped *)

Lemma chain_kept input anchor :
  (3 <= length input)%nat ->
  anchor_of input = Some anchor ->
  clockwise_free (anchor :: rev (sorted_points input) ++ [anchor]) ->
  GrahamScan input = Some (anchor :: sorted_points input).
Proof.
  intros Hlen Ha Hcf.
  destruct (GrahamScan_shape input Hlen)
    as (a & p0 & rest & pre & Ha' & _ & Hs & _).
  rewrite Ha in Ha'. injection Ha' as <-.
  destruct (GrahamScan_stages input anchor p0 rest Hlen Ha Hs) as (_ & _ & ->).
  rewrite Hs in *.
  rewrite (sweep_no_pop (rest ++ [anchor]) [p0; anchor]).
  - rewrite rev_app_distr. simpl. unfold stack_contents.
    rewrite rev_app_distr, rev_involutive. reflexivity.
  - simpl; lia.
  - rewrite rev_app_distr. simpl. simpl rev in Hcf.
    rewrite <- app_assoc in Hcf. exact Hcf.
Qed.

(** On at least three points the output is the anchor followed by the
    whole sorted working sequence, no point dropped, exactly when that
    sequence, closed through the anchor, has no clockwise turn. *)
Theorem GrahamScan_keeps_all_iff_exact input :
  (3 <= length input)%nat ->
  exists anchor,
    anchor_of input = Some anchor /\
    Permutation input (anchor :: sorted_points input) /\
    (GrahamScan input = Some (anchor :: sorted_points input) <->
     clockwise_free (anchor :: rev (sorted_points input) ++ [anchor])).
Proof.
  intros Hlen.
  destruct (GrahamScan_shape input Hlen)
    as (anchor & p0 & rest & pre & Ha & _ & Hs & Hperm & _ & _ & _ & _ & _ & _
        & Hg & Hcf).
  exists anchor. rewrite Hs. repeat split; auto.
  - intros H. rewrite Hg in H. injection H as H.
    apply (f_equal (@rev Vector2)) in H. rewrite rev_involutive in H.
    subst pre. simpl rev. rewrite <- app_assoc. exact Hcf.
  - intros H. rewrite <- Hs. apply chain_kept; auto. rewrite Hs. exact H.
Qed.

(** When all points of a range of at least three lie on one line, the
    sweep pops nothing and the output is a rearrangement of the whole
    range: the anchor, then the other points by their distance from it. *)
Theorem GrahamScan_collinear_exact input :
  (3 <= length input)%nat ->
  collinear input ->
  exists anchor,
    anchor_of input = Some anchor /\
    GrahamScan input = Some (anchor :: sorted_points input) /\
    Permutation input (anchor :: sorted_points input).
Proof.
  intros Hlen Hcol.
  destruct (GrahamScan_shape input Hlen)
    as (anchor & p0 & rest & pre & Ha & _ & Hs & Hperm & _).
  exists anchor. rewrite <- Hs in Hperm. repeat split; auto.
  apply chain_kept; auto.
  assert (Hin : forall x, In x (anchor :: rev (sorted_points input) ++ [anchor])
                          -> In x input).
  { intros x Hx. apply (Permutation_in _ (Permutation_sym Hperm)).
    destruct Hx as [<-|Hx]; [left; reflexivity|].
    apply in_app_or in Hx as [Hx|[<-|[]]]; [|left; reflexivity].
    right. apply in_rev. exact Hx. }
  intros l1 c b a l2 E.
  rewrite (Hcol a b c); [lia| | |]; apply Hin; rewrite E;
    apply in_or_app; right; simpl; auto.
Qed.

(** ** Moving and stretching the range *)

Section Symmetry.
Variable f : Vector2 -> Vector2.
Hypothesis keeps_y_order :
  forall a b, CompareYCoordinates (f a) (f b) = CompareYCoordinates a b.
Hypothesis keeps_angle_order :
  forall o a b, CompareByAngle (f o) (f a) (f b) = CompareByAngle o a b.
Hypothesis keeps_turn_test :
  forall a b c, (turn (f a) (f b) (f c) >=? 0) = (turn a b c >=? 0).

Lemma min_element_from_map l :
  forall smallest sv i,
    min_element_from CompareYCoordinates smallest (f sv) i (map f l)
    = min_element_from CompareYCoordinates smallest sv i l.
Proof.
  induction l as [|x l IH]; intros smallest sv i; simpl; [reflexivity|].
  rewrite keeps_y_order. destruct (CompareYCoordinates x sv); apply IH.
Qed.

Lemma min_element_map l :
  min_element CompareYCoordinates (map f l)
  = min_element CompareYCoordinates l.
Proof. destruct l; simpl; [reflexivity|apply min_element_from_map]. Qed.

Lemma sort_insert_map o x l :
  sort_insert (CompareByAngle (f o)) (f x) (map f l)
  = map f (sort_insert (CompareByAngle o) x l).
Proof.
  induction l as [|y l IH]; simpl; [reflexivity|].
  rewrite keeps_angle_order. destruct (CompareByAngle o x y); simpl.
  - reflexivity.
  - rewrite IH. reflexivity.
Qed.

Lemma std_sort_map o l :
  std_sort (CompareByAngle (f o)) (map f l)
  = map f (std_sort (CompareByAngle o) l).
Proof.
  induction l as [|x l IH]; simpl; [reflexivity|].
  rewrite IH. apply sort_insert_map.
Qed.

Lemma pop_loop_map p st :
  pop_loop (f p) (map f st) = option_map (map f) (pop_loop p st).
Proof.
  induction st as [|top st IH]; [reflexivity|].
  destruct st as [|second r]; [reflexivity|].
  change (map f (top :: second :: r))
    with (f top :: f second :: map f r).
  rewrite !pop_loop_eq, keeps_turn_test.
  destruct (turn second top p >=? 0); [reflexivity|exact IH].
Qed.

Lemma sweep_map cs :
  forall st, sweep (map f cs) (map f st) = option_map (map f) (sweep cs st).
Proof.
  induction cs as [|c cs IH]; intros st; [reflexivity|].
  change (map f (c :: cs)) with (f c :: map f cs).
  rewrite !sweep_cons, pop_loop_map.
  destruct (pop_loop c st) as [r|]; [|reflexivity].
  simpl option_map. exact (IH (c :: r)).
Qed.

Lemma without_position_map i l :
  without_position i (map f l) = map f (without_position i l).
Proof.
  unfold without_position. rewrite firstn_map, skipn_map, map_app.
  reflexivity.
Qed.

(** A map of the plane that keeps the answers of the two comparators and
    of the test of line 167 commutes with the function. *)
Lemma GrahamScan_map input :
  GrahamScan (map f input) = option_map (map f) (GrahamScan input).
Proof.
  unfold GrahamScan. rewrite length_map, min_element_map, nth_error_map.
  destruct (length input <? 3)%nat; [reflexivity|].
  destruct (nth_error input (min_element CompareYCoordinates input))
    as [anchor|]; [|reflexivity].
  simpl option_map at 1. cbv zeta. unfold working_sequence.
  rewrite without_position_map, std_sort_map.
  destruct (std_sort (CompareByAngle anchor)
              (without_position (min_element CompareYCoordinates input) input))
    as [|p0 rest].
  - reflexivity.
  - unfold push_back.
    change (map f (p0 :: rest) ++ [f anchor])
      with (f p0 :: (map f rest ++ map f [anchor])).
    change ((p0 :: rest) ++ [anchor]) with (p0 :: (rest ++ [anchor])).
    cbv iota. rewrite <- (map_app f rest [anchor]).
    change [f p0; f anchor] with (map f [p0; anchor]).
    rewrite sweep_map.
    destruct (sweep (rest ++ [anchor]) [p0; anchor]) as [[|t st]|];
      try reflexivity.
    simpl. unfold stack_contents. rewrite map_rev. reflexivity.
Qed.
End Symmetry.

Lemma vsub_translate d a b : vsub (translate d a) (translate d b) = vsub a b.
Proof. unfold vsub, translate; simpl. f_equal; ring. Qed.

Lemma vsub_scale k a b : vsub (scale k a) (scale k b) = scale k (vsub a b).
Proof. unfold vsub, scale; simpl. f_equal; ring. Qed.

Lemma CrossProduct_scale k u v :
  CrossProduct (scale k u) (scale k v) = k * k * CrossProduct u v.
Proof. unfold CrossProduct, scale; simpl. ring. Qed.

Lemma NormSquared_scale k u :
  NormSquared (scale k u) = k * k * NormSquared u.
Proof. unfold NormSquared, scale; simpl. ring. Qed.

(** Moving every point of the range by the same vector moves the
    output by that vector: the function reads the points only through
    differences and through comparisons of coordinates. *)
Theorem GrahamScan_translate_exact d input :
  GrahamScan (map (translate d) input)
  = option_map (map (translate d)) (GrahamScan input).
Proof.
  apply GrahamScan_map.
  - intros a b. unfold CompareYCoordinates, translate; simpl.
    destruct (Z.eqb_spec (vy a + vy d) (vy b + vy d)),
             (Z.eqb_spec (vy a) (vy b)); lia.
  - intros o a b. unfold CompareByAngle. rewrite !vsub_translate.
    reflexivity.
  - intros a b c. unfold turn. rewrite !vsub_translate. reflexivity.
Qed.

Lemma positive_factor_sign k z : 0 < k -> (0 < k * k * z <-> 0 < z).
Proof.
  intros Hk. apply Z.mul_pos_cancel_l. apply Z.mul_pos_pos; exact Hk.
Qed.

Lemma positive_factor_zero k z : 0 < k -> (k * k * z = 0 <-> z = 0).
Proof.
  intros Hk. assert (0 < k * k) by (apply Z.mul_pos_pos; exact Hk).
  rewrite Z.mul_eq_0. lia.
Qed.

Lemma positive_factor_lt k y z : 0 < k -> (k * k * y < k * k * z <-> y < z).
Proof.
  intros Hk. symmetry. apply Z.mul_lt_mono_pos_l.
  apply Z.mul_pos_pos; exact Hk.
Qed.

(** Stretching every point of the range from the origin by the same
    positive factor stretches the output by that factor. *)
Theorem GrahamScan_scale_exact k input :
  0 < k ->
  GrahamScan (map (scale k) input)
  = option_map (map (scale k)) (GrahamScan input).
Proof.
  intros Hk. apply GrahamScan_map.
  - intros a b. unfold CompareYCoordinates, scale; simpl.
    destruct (Z.eqb_spec (k * vy a) (k * vy b)),
             (Z.eqb_spec (vy a) (vy b)); nia.
  - intros o a b. unfold CompareByAngle.
    rewrite !vsub_scale, CrossProduct_scale, !NormSquared_scale. cbv zeta.
    pose proof (positive_factor_zero k (CrossProduct (vsub a o) (vsub b o)) Hk).
    pose proof (positive_factor_sign k (CrossProduct (vsub a o) (vsub b o)) Hk).
    pose proof (positive_factor_lt k (NormSquared (vsub a o))
                                   (NormSquared (vsub b o)) Hk).
    destruct (Z.eqb_spec (k * k * CrossProduct (vsub a o) (vsub b o)) 0),
             (Z.eqb_spec (CrossProduct (vsub a o) (vsub b o)) 0); lia.
  - intros a b c. unfold turn. rewrite !vsub_scale, CrossProduct_scale.
    pose proof (positive_factor_sign k (- CrossProduct (vsub b a) (vsub c b)) Hk).
    lia.
Qed.

(** ** Cross products around the anchor *)

Ltac vec := unfold left_of, turn, CrossProduct, DotProduct, NormSquared, vsub in *; simpl in *.

Lemma lagrange x y :
  DotProduct x y * DotProduct x y + CrossProduct x y * CrossProduct x y
  = NormSquared x * NormSquared y.
Proof. vec. ring. Qed.

Lemma cross_through b x y :
  NormSquared b * CrossProduct x y
  = DotProduct x b * CrossProduct b y - CrossProduct b x * DotProduct b y.
Proof. vec. ring. Qed.

Lemma plucker u v w z :
  CrossProduct u w * CrossProduct v z
  = CrossProduct u v * CrossProduct w z + CrossProduct u z * CrossProduct v w.
Proof. vec. ring. Qed.

Lemma same_ray_dot_lt x y :
  CrossProduct x y = 0 -> NormSquared x < NormSquared y ->
  DotProduct x y < NormSquared y.
Proof.
  intros Hc Hn. pose proof (lagrange x y) as L. rewrite Hc in L.
  assert (0 <= NormSquared x) by (unfold NormSquared; nia).
  nia.
Qed.

Lemma same_ray_dot_le x y :
  CrossProduct x y = 0 -> NormSquared x <= NormSquared y ->
  DotProduct x y <= NormSquared y.
Proof.
  intros Hc Hn. pose proof (lagrange x y) as L. rewrite Hc in L.
  assert (0 <= NormSquared x) by (unfold NormSquared; nia).
  nia.
Qed.

Lemma same_ray_dot_gt x y :
  upper x -> upper y ->
  CrossProduct x y = 0 -> NormSquared x < NormSquared y -> 0 < NormSquared x ->
  NormSquared x < DotProduct x y.
Proof.
  intros Ux Uy Hc Hn Hx. pose proof (lagrange x y) as L. rewrite Hc in L.
  assert (Hd : 0 <= DotProduct x y).
  { unfold upper, CrossProduct, DotProduct, NormSquared in *.
    destruct x as [a b], y as [c d]; simpl in *. nia. }
  nia.
Qed.

Lemma left_of_after_pop a b P q :
  turn a b P < 0 -> left_of b P q -> left_of a b q -> left_of a P q.
Proof.
  unfold left_of. intros Ht H1 H2.
  assert (E : CrossProduct (vsub P a) (vsub q a)
              = CrossProduct (vsub P b) (vsub q b)
                + CrossProduct (vsub b a) (vsub q a) - turn a b P)
    by (vec; ring).
  lia.
Qed.

Lemma left_of_between A a b P q :
  turn a b P < 0 -> left_of a b q ->
  0 <= CrossProduct (vsub a A) (vsub P A) ->
  0 <= CrossProduct (vsub a A) (vsub q A) ->
  0 < CrossProduct (vsub q A) (vsub b A) ->
  left_of a P q.
Proof.
  unfold left_of. intros Ht Hb HaP Haq Hqb.
  assert (S : CrossProduct (vsub a A) (vsub b A)
              = CrossProduct (vsub b a) (vsub q a)
                + CrossProduct (vsub q A) (vsub b A)
                + CrossProduct (vsub a A) (vsub q A))
    by (vec; ring).
  assert (E : CrossProduct (vsub a A) (vsub b A)
              * CrossProduct (vsub P a) (vsub q a)
              = CrossProduct (vsub b a) (vsub q a)
                * CrossProduct (vsub a A) (vsub P A)
                + CrossProduct (vsub a A) (vsub q A) * (- turn a b P))
    by (vec; ring).
  nia.
Qed.

Lemma left_of_same_ray A t P q :
  angle_le (vsub q A) (vsub t A) ->
  0 <= CrossProduct (vsub t A) (vsub q A) ->
  0 <= CrossProduct (vsub t A) (vsub P A) ->
  left_of t P q.
Proof.
  rewrite angle_le_iff. unfold left_of. intros Hle Htq HtP.
  assert (Hanti : CrossProduct (vsub q A) (vsub t A)
                  = - CrossProduct (vsub t A) (vsub q A)) by (vec; ring).
  assert (Hc : CrossProduct (vsub q A) (vsub t A) = 0) by lia.
  assert (Hn : NormSquared (vsub q A) <= NormSquared (vsub t A)) by lia.
  pose proof (same_ray_dot_le _ _ Hc Hn) as Hd.
  pose proof (cross_through (vsub t A) (vsub q A) (vsub P A)) as I.
  assert (E : CrossProduct (vsub P t) (vsub q t)
              = CrossProduct (vsub t A) (vsub P A)
                - CrossProduct (vsub q A) (vsub P A)
                - CrossProduct (vsub t A) (vsub q A)) by (vec; ring).
  assert (Hz : CrossProduct (vsub t A) (vsub q A) = 0) by lia.
  rewrite Hz in I. rewrite E, Hz.
  set (N := NormSquared (vsub t A)) in *.
  set (G := CrossProduct (vsub t A) (vsub P A)) in *.
  set (X := CrossProduct (vsub q A) (vsub P A)) in *.
  set (D := DotProduct (vsub q A) (vsub t A)) in *.
  assert (HN : 0 <= N) by (unfold N, NormSquared; nia).
  destruct (Z.eq_dec N 0) as [HN0|HN0].
  - assert (Hq0 : NormSquared (vsub q A) = 0)
      by (assert (0 <= NormSquared (vsub q A)) by (unfold NormSquared; nia); lia).
    assert (X = 0).
    { unfold X, CrossProduct. unfold NormSquared in Hq0.
      assert (vx (vsub q A) = 0) by nia. assert (vy (vsub q A) = 0) by nia.
      nia. }
    lia.
  - assert (HNG : 0 <= N * (G - X - 0)) by nia.
    nia.
Qed.

Lemma mul_nonneg_cancel n m : 0 < n -> 0 <= n * m -> 0 <= m.
Proof. intros. nia. Qed.

Lemma norm_nonneg x : 0 <= NormSquared x.
Proof. unfold NormSquared. nia. Qed.

(** An edge along a ray from the anchor turns like the ray. *)
Lemma along_ray s t y :
  CrossProduct s t = 0 -> NormSquared s < NormSquared t ->
  exists k, 0 < k /\
    NormSquared t * CrossProduct (vsub t s) y = k * CrossProduct t y.
Proof.
  intros Hc Hn. exists (NormSquared t - DotProduct s t).
  split; [pose proof (same_ray_dot_lt _ _ Hc Hn); lia|].
  pose proof (cross_through t (vsub t s) y) as I.
  assert (E1 : CrossProduct t (vsub t s) = - CrossProduct t s) by (vec; ring).
  assert (E2 : CrossProduct t s = - CrossProduct s t) by (vec; ring).
  assert (E3 : DotProduct (vsub t s) t = NormSquared t - DotProduct s t)
    by (vec; ring).
  rewrite I, E1, E2, Hc, E3. ring.
Qed.

Lemma left_of_before A s t P q :
  angle_lt (vsub s A) (vsub t A) ->
  left_of s t q -> 0 <= turn s t P ->
  0 <= CrossProduct (vsub t A) (vsub P A) ->
  0 < CrossProduct (vsub q A) (vsub t A) ->
  left_of t P q.
Proof.
  unfold left_of. intros Hst Hq Ht HtP Hqt.
  pose proof (plucker (vsub t s) (vsub P t) (vsub q t) (vsub A t)) as Pl.
  assert (E1 : CrossProduct (vsub t s) (vsub q t)
               = CrossProduct (vsub t s) (vsub q s)) by (vec; ring).
  assert (E2 : CrossProduct (vsub P t) (vsub A t)
               = CrossProduct (vsub t A) (vsub P A)) by (vec; ring).
  assert (E3 : CrossProduct (vsub t s) (vsub P t) = turn s t P) by reflexivity.
  assert (E4 : CrossProduct (vsub q t) (vsub A t)
               = - CrossProduct (vsub q A) (vsub t A)) by (vec; ring).
  assert (E5 : CrossProduct (vsub t s) (vsub A t)
               = CrossProduct (vsub s A) (vsub t A)) by (vec; ring).
  rewrite E1, E2, E3, E4, E5 in Pl.
  destruct Hst as [Hpos|[Hzero Hn]].
  - apply (mul_nonneg_cancel (CrossProduct (vsub s A) (vsub t A))); auto.
    nia.
  - exfalso.
    destruct (along_ray _ _ (vsub q s) Hzero Hn) as (k & Hk & Hray).
    assert (E6 : vsub (vsub t A) (vsub s A) = vsub t s)
      by (unfold vsub; simpl; f_equal; ring).
    rewrite E6 in Hray.
    assert (E7 : CrossProduct (vsub t A) (vsub q s)
                 = - CrossProduct (vsub q A) (vsub t A)
                   - CrossProduct (vsub s A) (vsub t A) * 0
                   + CrossProduct (vsub s A) (vsub t A)) by (vec; ring).
    rewrite E7, Hzero in Hray.
    pose proof (norm_nonneg (vsub t A)).
    nia.
Qed.

Lemma left_of_lower_edge A a b c P :
  angle_lt (vsub a A) (vsub b A) ->
  angle_lt (vsub b A) (vsub c A) ->
  upper (vsub b A) -> upper (vsub c A) ->
  0 <= CrossProduct (vsub b A) (vsub P A) ->
  0 <= turn a b c -> left_of b c P -> left_of a b P.
Proof.
  unfold left_of. intros Hab Hbc Ub Uc HbP Ht HP.
  pose proof (plucker (vsub b a) (vsub c b) (vsub P b) (vsub A b)) as Pl.
  assert (E1 : CrossProduct (vsub b a) (vsub P b)
               = CrossProduct (vsub b a) (vsub P a)) by (vec; ring).
  assert (E2 : CrossProduct (vsub c b) (vsub A b)
               = CrossProduct (vsub b A) (vsub c A)) by (vec; ring).
  assert (E3 : CrossProduct (vsub b a) (vsub c b) = turn a b c) by reflexivity.
  assert (E4 : CrossProduct (vsub P b) (vsub A b)
               = CrossProduct (vsub b A) (vsub P A)) by (vec; ring).
  assert (E5 : CrossProduct (vsub b a) (vsub A b)
               = CrossProduct (vsub a A) (vsub b A)) by (vec; ring).
  assert (E6 : CrossProduct (vsub c b) (vsub P b)
               = CrossProduct (vsub c b) (vsub P b)) by reflexivity.
  rewrite E1, E2, E3, E4, E5 in Pl.
  assert (Hab0 : 0 <= CrossProduct (vsub a A) (vsub b A))
    by (destruct Hab as [?|[? _]]; lia).
  destruct Hbc as [Hpos|[Hzero Hn]].
  - apply (mul_nonneg_cancel (CrossProduct (vsub b A) (vsub c A))); auto.
    rewrite Z.mul_comm, Pl. nia.
  - (* b and c on one ray from the anchor *)
    assert (Hb0 : 0 < NormSquared (vsub b A)).
    { destruct Hab as [Hp|[_ Hp]].
      - pose proof (norm_nonneg (vsub b A)).
        assert (NormSquared (vsub b A) <> 0); [|lia].
        intros Hz. unfold NormSquared in Hz.
        assert (vx (vsub b A) = 0) by nia. assert (vy (vsub b A) = 0) by nia.
        unfold CrossProduct in Hp. nia.
      - pose proof (norm_nonneg (vsub a A)). lia. }
    pose proof (same_ray_dot_gt _ _ Ub Uc Hzero Hn Hb0) as Hdot.
    (* the turn at b forces a onto the ray *)
    pose proof (cross_through (vsub b A) (vsub c A) (vsub a A)) as I1.
    assert (F1 : CrossProduct (vsub b A) (vsub c A) = 0) by exact Hzero.
    assert (Hac : NormSquared (vsub b A) * CrossProduct (vsub a A) (vsub c A)
                  = DotProduct (vsub b A) (vsub c A)
                    * CrossProduct (vsub a A) (vsub b A)).
    { assert (X1 : CrossProduct (vsub c A) (vsub a A)
                   = - CrossProduct (vsub a A) (vsub c A)) by (vec; ring).
      assert (X2 : CrossProduct (vsub b A) (vsub a A)
                   = - CrossProduct (vsub a A) (vsub b A)) by (vec; ring).
      assert (X3 : DotProduct (vsub c A) (vsub b A)
                   = DotProduct (vsub b A) (vsub c A)) by (vec; ring).
      rewrite X1, X2, X3, F1 in I1. lia. }
    assert (Et : turn a b c
                 = CrossProduct (vsub b A) (vsub c A)
                   - CrossProduct (vsub a A) (vsub c A)
                   + CrossProduct (vsub a A) (vsub b A)) by (vec; ring).
    rewrite F1 in Et.
    assert (Hab1 : CrossProduct (vsub a A) (vsub b A) = 0) by nia.
    assert (Han : NormSquared (vsub a A) < NormSquared (vsub b A))
      by (destruct Hab as [?|[_ ?]]; lia).
    destruct (along_ray _ _ (vsub P a) Hab1 Han) as (k & Hk & Hray).
    assert (E7 : vsub (vsub b A) (vsub a A) = vsub b a)
      by (unfold vsub; simpl; f_equal; ring).
    rewrite E7 in Hray.
    pose proof (cross_through (vsub b A) (vsub a A) (vsub P A)) as I2.
    assert (X4 : CrossProduct (vsub b A) (vsub a A) = 0)
      by (assert (CrossProduct (vsub b A) (vsub a A)
                  = - CrossProduct (vsub a A) (vsub b A)) by (vec; ring); lia).
    rewrite X4 in I2.
    assert (E8 : CrossProduct (vsub b A) (vsub P a)
                 = CrossProduct (vsub b A) (vsub P A)
                   - CrossProduct (vsub b A) (vsub a A)) by (vec; ring).
    rewrite E8, X4 in Hray.
    apply (mul_nonneg_cancel (NormSquared (vsub b A))); auto.
    rewrite Hray. nia.
Qed.

(** ** The sweep builds the hull of a range without repeated points *)

Lemma before_cross anchor a b :
  before anchor a b -> 0 <= CrossProduct (vsub a anchor) (vsub b anchor).
Proof. unfold before, angle_lt. lia. Qed.

Lemma before_angle_le anchor a b :
  before anchor a b -> angle_le (vsub a anchor) (vsub b anchor).
Proof. unfold before, angle_le. apply angle_lt_asym. Qed.

Lemma angle_le_refl u : angle_le u u.
Proof. rewrite angle_le_iff. unfold CrossProduct. right. split; lia. Qed.

Lemma angle_le_cross u v : angle_le u v -> 0 <= CrossProduct u v.
Proof. rewrite angle_le_iff. lia. Qed.

Lemma StronglySorted_suffix (R : Vector2 -> Vector2 -> Prop) l m :
  StronglySorted R (l ++ m) -> StronglySorted R m.
Proof.
  induction l as [|x l IH]; simpl; intros H; [exact H|].
  inversion H; subst. auto.
Qed.

Lemma StronglySorted_across (R : Vector2 -> Vector2 -> Prop) l m x y :
  StronglySorted R (l ++ m) -> In x l -> In y m -> R x y.
Proof.
  induction l as [|z l IH]; simpl; intros H Hx Hy; [contradiction|].
  inversion H as [|? ? Hs Hall]; subst. destruct Hx as [<-|Hx].
  - rewrite Forall_forall in Hall. apply Hall. apply in_or_app. auto.
  - auto.
Qed.

Lemma hull_so_far_suffix popped st seen :
  hull_so_far (popped ++ st) seen -> hull_so_far st seen.
Proof.
  intros H q Hq l1 b a l2 E. apply (H q Hq (popped ++ l1) b a l2).
  rewrite E, app_assoc. reflexivity.
Qed.

(** While the candidate [P] pops, every seen point that is not clockwise
    of the stack top around the anchor stays to the left of the line from
    that top to [P]. *)
Lemma pop_loop_keeps_left anchor seen P :
  forall st st',
    pop_loop P st = Some st' ->
    hull_so_far st seen ->
    (forall x, In x st -> 0 <= CrossProduct (vsub x anchor) (vsub P anchor)) ->
    (forall t r, st = t :: r -> forall q, In q seen ->
       0 <= CrossProduct (vsub t anchor) (vsub q anchor) -> left_of t P q) ->
    forall t r, st' = t :: r -> forall q, In q seen ->
      0 <= CrossProduct (vsub t anchor) (vsub q anchor) -> left_of t P q.
Proof.
  induction st as [|top st IH]; intros st' H Hh HP Hc; [discriminate|].
  destruct st as [|second r0]; [discriminate|].
  rewrite pop_loop_eq in H.
  destruct (Z.geb_spec (turn second top P) 0) as [Hge|Hlt].
  - injection H as <-. exact Hc.
  - apply (IH st' H).
    + apply (hull_so_far_suffix [top]). exact Hh.
    + intros x Hx. apply HP. right. exact Hx.
    + intros t r E q Hq Htq. injection E as <- <-.
      assert (Hedge : left_of second top q)
        by (apply (Hh q Hq [] top second r0); reflexivity).
      destruct (Z.le_gt_cases 0
                  (CrossProduct (vsub top anchor) (vsub q anchor))) as [Hn|Hn].
      * apply (left_of_after_pop second top P q); auto.
        apply (Hc top (second :: r0) eq_refl q Hq Hn).
      * apply (left_of_between anchor second top P q); auto.
        -- apply HP. right. left. reflexivity.
        -- assert (CrossProduct (vsub q anchor) (vsub top anchor)
                   = - CrossProduct (vsub top anchor) (vsub q anchor))
             by (unfold CrossProduct; ring).
           lia.
Qed.

(** A candidate to the left of the newest edge of a convex, angularly
    sorted stack is to the left of all its edges. *)
Lemma chain_left_of anchor P :
  forall st,
    descending anchor st ->
    (forall x, In x st -> upper (vsub x anchor)) ->
    (forall x, In x st -> 0 <= CrossProduct (vsub x anchor) (vsub P anchor)) ->
    clockwise_free st ->
    (forall t s r, st = t :: s :: r -> left_of s t P) ->
    forall l1 b a l2, st = l1 ++ b :: a :: l2 -> left_of a b P.
Proof.
  induction st as [|t st IH]; intros Hd Hu HP Hcf Htop l1 b a l2 E.
  - destruct l1; discriminate.
  - destruct l1 as [|x l1]; simpl in E.
    + injection E as <- E. apply (Htop t a l2). rewrite E. reflexivity.
    + injection E as _ E.
      apply StronglySorted_inv in Hd as [Hd' Hall].
      apply (IH Hd') with (l1 := l1) (l2 := l2); auto.
      * intros y Hy. apply Hu. right. exact Hy.
      * intros y Hy. apply HP. right. exact Hy.
      * apply (clockwise_free_suffix [t]). exact Hcf.
      * intros s r0 r E'. clear E IH. subst st.
        apply StronglySorted_inv in Hd' as [_ Hall'].
        rewrite Forall_forall in Hall, Hall'.
        apply (left_of_lower_edge anchor r0 s t P).
        -- apply Hall'. left. reflexivity.
        -- apply Hall. left. reflexivity.
        -- apply Hu. right. left. reflexivity.
        -- apply Hu. left. reflexivity.
        -- apply HP. right. left. reflexivity.
        -- apply (Hcf [] t s r0 r). reflexivity.
        -- apply (Htop t s (r0 :: r)). reflexivity.
Qed.

Lemma upper_zero anchor : upper (vsub anchor anchor).
Proof. unfold upper, vsub; simpl. lia. Qed.

Lemma left_of_turn s t c : left_of s t c <-> 0 <= turn s t c.
Proof.
  unfold left_of.
  assert (E : CrossProduct (vsub t s) (vsub c s) = turn s t c)
    by (unfold turn, CrossProduct, vsub; simpl; ring).
  rewrite E. reflexivity.
Qed.

Lemma left_of_self t c : left_of t c c.
Proof. unfold left_of, CrossProduct. lia. Qed.

Lemma sweep_step_invariant anchor seen st c st1 :
  pop_loop c st = Some st1 ->
  before anchor anchor c ->
  (forall q, In q seen -> before anchor q c) ->
  (forall x, In x seen -> upper (vsub x anchor)) ->
  sweep_invariant anchor seen st ->
  sweep_invariant anchor (seen ++ [c]) (c :: st1).
Proof.
  intros Hpop Hac Hqc Hup (Hd & Hin & Htop & Hcf & Hh).
  destruct (pop_loop_Some _ _ _ Hpop)
    as (popped & t & s & r & E & E1 & Hturn & _).
  assert (Hd1 : descending anchor st1).
  { unfold descending in *. rewrite E in Hd.
    apply StronglySorted_suffix in Hd. exact Hd. }
  assert (Hin1 : forall x, In x st1 -> x = anchor \/ In x seen).
  { intros x Hx. apply Hin. rewrite E. apply in_or_app. auto. }
  assert (Hbc : forall x, In x st -> before anchor x c).
  { intros x Hx. destruct (Hin x Hx) as [->|Hs]; auto. }
  assert (HxP : forall x, In x st ->
                  0 <= CrossProduct (vsub x anchor) (vsub c anchor)).
  { intros x Hx. apply before_cross. auto. }
  assert (Hcf1 : clockwise_free st1).
  { rewrite E in Hcf. apply clockwise_free_suffix in Hcf. exact Hcf. }
  assert (Hh1 : hull_so_far st1 seen).
  { rewrite E in Hh. apply hull_so_far_suffix in Hh. exact Hh. }
  assert (Hst1 : forall x, In x st1 -> In x st).
  { intros x Hx. rewrite E. apply in_or_app. auto. }
  repeat split.
  - constructor; [exact Hd1|]. rewrite Forall_forall. intros y Hy.
    apply Hbc, Hst1, Hy.
  - intros x [<-|Hx].
    + right. apply in_or_app. right. left. reflexivity.
    + destruct (Hin1 x Hx) as [->|Hs]; [left; reflexivity|].
      right. apply in_or_app. auto.
  - intros q t0 r0 Hq Et. injection Et as <- _.
    apply in_app_or in Hq as [Hq|[<-|[]]].
    + apply before_angle_le. auto.
    + apply angle_le_refl.
  - rewrite E1. apply clockwise_free_push; [rewrite <- E1; exact Hcf1|exact Hturn].
  - intros q Hq l1 b a l2 Eq. destruct l1 as [|x l1]; simpl in Eq.
    + injection Eq as <- Eq.
      assert (Ea : a = t) by (rewrite E1 in Eq; injection Eq; auto).
      subst a.
      apply in_app_or in Hq as [Hq|[<-|[]]]; [|apply left_of_self].
      destruct (Z.le_gt_cases 0
                  (CrossProduct (vsub t anchor) (vsub q anchor))) as [Hn|Hn].
      * apply (pop_loop_keeps_left anchor seen c st st1 Hpop Hh HxP)
          with (r := s :: r); auto.
        intros t0 r0 Et q0 Hq0 Hn0.
        apply (left_of_same_ray anchor); auto.
        -- apply (Htop q0 t0 r0); auto.
        -- apply HxP. rewrite Et. left. reflexivity.
      * apply (left_of_before anchor s t c q).
        -- rewrite E1 in Hd1. apply StronglySorted_inv in Hd1 as [_ Hall].
           rewrite Forall_forall in Hall. apply Hall. left. reflexivity.
        -- apply (Hh1 q Hq [] t s r). exact E1.
        -- exact Hturn.
        -- apply HxP, Hst1. rewrite E1. left. reflexivity.
        -- assert (CrossProduct (vsub q anchor) (vsub t anchor)
                   = - CrossProduct (vsub t anchor) (vsub q anchor))
             by (unfold CrossProduct; ring).
           lia.
    + injection Eq as _ Eq.
      apply in_app_or in Hq as [Hq|[<-|[]]].
      * apply (Hh1 q Hq l1 b a l2 Eq).
      * apply (chain_left_of anchor c st1) with (l1 := l1) (l2 := l2); auto.
        -- intros x0 Hx0. destruct (Hin1 x0 Hx0) as [->|Hs];
             [apply upper_zero|auto].
        -- intros t0 s0 r0 Et. rewrite E1 in Et. injection Et as <- <- _.
           apply left_of_turn. exact Hturn.
Qed.

Lemma sweep_keeps_invariant anchor cs :
  forall seen st st',
    sweep cs st = Some st' ->
    StronglySorted (before anchor) (anchor :: seen ++ cs) ->
    (forall x, In x (seen ++ cs) -> upper (vsub x anchor)) ->
    sweep_invariant anchor seen st ->
    sweep_invariant anchor (seen ++ cs) st'.
Proof.
  induction cs as [|c cs IH]; intros seen st st' H Hs Hup Hinv.
  - injection H as <-. rewrite app_nil_r. exact Hinv.
  - rewrite sweep_cons in H.
    destruct (pop_loop c st) as [st1|] eqn:Hpop; [|discriminate].
    replace (seen ++ c :: cs) with ((seen ++ [c]) ++ cs) in *
      by (rewrite <- app_assoc; reflexivity).
    apply (IH _ _ _ H Hs Hup).
    apply StronglySorted_inv in Hs as [Hs Hall].
    rewrite Forall_forall in Hall.
    apply (sweep_step_invariant anchor seen st c st1); auto.
    + apply Hall. apply in_or_app. left. apply in_or_app. right. left. reflexivity.
    + intros q Hq. rewrite <- app_assoc in Hs.
      apply (StronglySorted_across _ seen ([c] ++ cs)); auto.
      left. reflexivity.
    + intros x Hx. apply Hup. apply in_or_app. left. apply in_or_app. auto.
Qed.

Lemma strictly_sorted anchor l :
  NoDup (anchor :: l) ->
  (forall x, In x l -> upper (vsub x anchor)) ->
  StronglySorted (not_after (CompareByAngle anchor)) l ->
  StronglySorted (before anchor) (anchor :: l).
Proof.
  intros Hnd Hup Hs. apply NoDup_cons_iff in Hnd as [Hna Hnd]. constructor.
  - induction Hs as [|x l Hs IH Hall]; constructor.
    + apply NoDup_cons_iff in Hnd as [_ Hnd]. apply IH; auto.
      * intros H. apply Hna. right. exact H.
      * intros y Hy. apply Hup. right. exact Hy.
    + rewrite Forall_forall in *. intros y Hy. unfold before.
      apply CompareByAngle_spec.
      destruct (CompareByAngle anchor x y) eqn:E; [reflexivity|exfalso].
      apply CompareByAngle_false in E.
      specialize (Hall y Hy). unfold not_after in Hall.
      apply CompareByAngle_false in Hall.
      apply NoDup_cons_iff in Hnd as [Hx _]. apply Hx.
      assert (Exy : x = y).
      { apply (vsub_injective anchor). apply angle_le_antisym; auto.
        - apply Hup. left. reflexivity.
        - apply Hup. right. exact Hy. }
      rewrite Exy. exact Hy.
  - rewrite Forall_forall. intros x Hx. unfold before, angle_lt. right.
    split; [unfold CrossProduct, vsub; simpl; ring|].
    assert (Hz : NormSquared (vsub anchor anchor) = 0)
      by (unfold NormSquared, vsub; simpl; ring).
    rewrite Hz. pose proof (norm_nonneg (vsub x anchor)) as Hn.
    assert (NormSquared (vsub x anchor) <> 0); [|lia].
    intros H0. apply Hna.
    assert (x = anchor); [|subst; exact Hx].
    destruct x as [x1 x2], anchor as [a1 a2].
    unfold NormSquared, vsub in H0; simpl in H0.
    pose proof (Z.square_nonneg (x1 - a1)) as S1.
    pose proof (Z.square_nonneg (x2 - a2)) as S2.
    assert (E1 : (x1 - a1) * (x1 - a1) = 0) by lia.
    assert (E2 : (x2 - a2) * (x2 - a2) = 0) by lia.
    apply Z.mul_eq_0 in E1, E2. f_equal; lia.
Qed.

Lemma edges_cases (l : list Vector2) (h a b : Vector2) :
  In (a, b) (combine l (tl l ++ [h])) ->
  (exists l1 l2, l = l1 ++ a :: b :: l2) \/
  (b = h /\ exists l1, l = l1 ++ [a]).
Proof.
  induction l as [|x l IH]; simpl; [contradiction|].
  destruct l as [|y l]; simpl.
  - intros [E|[]]. injection E as <- <-. right. split; [reflexivity|].
    exists []. reflexivity.
  - intros [E|H].
    + injection E as <- <-. left. exists [], l. reflexivity.
    + destruct (IH H) as [(l1 & l2 & E)|(Eb & l1 & E)].
      * left. exists (x :: l1), l2. rewrite E. reflexivity.
      * right. split; [exact Eb|]. exists (x :: l1). rewrite E. reflexivity.
Qed.

(** On a range of at least three points, none of them repeated, the
    output is the convex hull as the header describes it: every point of
    the range lies in the positive half-space of every edge of the output
    polygon, the edge from its last point back to the anchor included. *)
Theorem GrahamScan_hull_of_distinct_points_exact input :
  (3 <= length input)%nat ->
  NoDup input ->
  exists out,
    GrahamScan input = Some out /\
    forall q, In q input -> inside_hull out q.
Proof.
  intros Hlen Hnd.
  destruct (GrahamScan_shape input Hlen)
    as (anchor & p0 & rest & pre & _ & Hmin & _ & Hperm & Hsorted & Hsw & _
        & _ & _ & _ & Hg & _).
  exists (anchor :: p0 :: rev pre). split; [exact Hg|].
  assert (Hup : forall x, In x (p0 :: rest) -> upper (vsub x anchor)).
  { intros x Hx. apply lex_le_upper. eapply shape_lex_le; eauto. }
  assert (Hstrict : StronglySorted (before anchor) (anchor :: p0 :: rest)).
  { apply strictly_sorted; auto. eapply Permutation_NoDup; eauto. }
  assert (Hinit : sweep_invariant anchor [p0] [p0; anchor]).
  { apply StronglySorted_inv in Hstrict as [_ Hall].
    rewrite Forall_forall in Hall.
    repeat split.
    - constructor; [constructor; [constructor|constructor]|].
      constructor; [|constructor]. apply Hall. left. reflexivity.
    - intros x [<-|[<-|[]]]; [right; left; reflexivity|left; reflexivity].
    - intros q t r [<-|[]] E. injection E as <- _. apply angle_le_refl.
    - apply clockwise_free_short. simpl. lia.
    - intros q [<-|[]] l1 b a l2 E.
      destruct l1 as [|x l1]; simpl in E.
      + injection E as <- <- _. apply left_of_self.
      + apply (f_equal (@length Vector2)) in E. simpl in E.
        rewrite length_app in E. simpl in E. lia. }
  pose proof (sweep_keeps_invariant anchor rest [p0] [p0; anchor] _
                Hsw Hstrict Hup Hinit) as (Hd & _ & Htop & _ & Hh).
  simpl app in Htop, Hh.
  set (st := pre ++ [p0; anchor]) in *.
  assert (Hout : anchor :: p0 :: rev pre = rev st)
    by (unfold st; rewrite rev_app_distr; reflexivity).
  intros q Hq [a b] He. unfold positive_half_space. simpl fst. simpl snd.
  change (left_of a b q).
  assert (Hq' : q = anchor \/ In q (p0 :: rest)).
  { apply (Permutation_in _ Hperm) in Hq. destruct Hq as [<-|Hq]; auto. }
  unfold edges in He. simpl firstn in He.
  apply edges_cases in He as [(l1 & l2 & E)|(Eb & l1 & E)].
  - assert (Est : st = rev l2 ++ b :: a :: rev l1).
    { rewrite <- (rev_involutive st), <- Hout, E, rev_app_distr. simpl.
      rewrite <- !app_assoc. reflexivity. }
    destruct Hq' as [->|Hq'].
    + unfold descending in Hd. rewrite Est in Hd.
      apply StronglySorted_suffix, StronglySorted_inv in Hd as [_ Hall].
      rewrite Forall_forall in Hall.
      assert (Hab : before anchor a b) by (apply Hall; left; reflexivity).
      apply before_cross in Hab. unfold left_of.
      assert (Ec : CrossProduct (vsub b a) (vsub anchor a)
                   = CrossProduct (vsub a anchor) (vsub b anchor))
        by (unfold CrossProduct, vsub; simpl; ring).
      lia.
    + apply (Hh q Hq' (rev l2) b a (rev l1) Est).
  - subst b.
    assert (Est : st = a :: rev l1).
    { rewrite <- (rev_involutive st), <- Hout, E, rev_app_distr. reflexivity. }
    destruct Hq' as [->|Hq'].
    + unfold left_of, CrossProduct. lia.
    + pose proof (Htop q a (rev l1) Hq' Est) as Hle.
      apply angle_le_cross in Hle. unfold left_of.
      assert (Ec : CrossProduct (vsub anchor a) (vsub q a)
                   = CrossProduct (vsub q anchor) (vsub a anchor))
        by (unfold CrossProduct, vsub; simpl; ring).
      lia.
Qed.

(** ** Repeated points *)

Lemma turn_zero_edge x p : turn x x p = 0.
Proof. unfold turn, CrossProduct, vsub; simpl. ring. Qed.

Lemma turn_zero_step s x : turn s x x = 0.
Proof. unfold turn, CrossProduct, vsub; simpl. ring. Qed.

(** Two stack entries that a candidate does not turn clockwise after are
    a floor for it: the loop pops at most what lies above them. *)
Lemma pop_loop_floor p t s r pre :
  0 <= turn s t p ->
  exists popped pre',
    pre = popped ++ pre' /\
    pop_loop p (pre ++ t :: s :: r) = Some (pre' ++ t :: s :: r).
Proof.
  intros Hp. induction pre as [|y pre IH].
  - exists [], []. split; [reflexivity|]. simpl app. rewrite pop_loop_eq.
    destruct (Z.geb_spec (turn s t p) 0); [reflexivity|lia].
  - destruct IH as (popped & pre' & E & IH).
    assert (Hs : exists z r', pre ++ t :: s :: r = z :: r')
      by (destruct pre; simpl; eauto).
    destruct Hs as (z & r' & Hs).
    simpl app. rewrite Hs, pop_loop_eq.
    destruct (turn z y p >=? 0).
    + exists [], (y :: pre). split; [reflexivity|]. simpl. rewrite Hs. reflexivity.
    + rewrite <- Hs, IH. exists (y :: popped), pre'. split; [|reflexivity].
      simpl. rewrite E. reflexivity.
Qed.

(** Two equal adjacent entries are a floor for every candidate: the edge
    between them is the zero vector and its cross product is zero. *)
Lemma sweep_copies_floor x r cs :
  forall pre, exists pre',
    sweep cs (pre ++ x :: x :: r) = Some (pre' ++ x :: x :: r).
Proof.
  induction cs as [|c cs IH]; intros pre; [exists pre; reflexivity|].
  destruct (pop_loop_floor c x x r pre) as (popped & pre' & _ & E).
  { rewrite turn_zero_edge. lia. }
  destruct (IH (c :: pre')) as [pre2 IH'].
  exists pre2. rewrite sweep_cons, E. exact IH'.
Qed.

Lemma sweep_copies_floor_last x r cs c :
  forall pre, exists pre',
    sweep (cs ++ [c]) (pre ++ x :: x :: r) = Some (c :: pre' ++ x :: x :: r).
Proof.
  intros pre.
  destruct (sweep_copies_floor x r cs pre) as [pre1 E1].
  destruct (pop_loop_floor c x x r pre1) as (popped & pre' & _ & E2).
  { rewrite turn_zero_edge. lia. }
  exists pre'. rewrite sweep_app, E1, sweep_cons, E2. reflexivity.
Qed.

(** A candidate equal to the stack top pops nothing and is pushed on it;
    from then on the pair stays. *)
Lemma sweep_after_copy x s r cs c :
  exists pre,
    sweep (x :: cs ++ [c]) (x :: s :: r)
    = Some (c :: pre ++ x :: x :: s :: r).
Proof.
  destruct (sweep_copies_floor_last x (s :: r) cs c []) as [pre E].
  exists pre. rewrite sweep_cons, pop_loop_eq, turn_zero_step.
  simpl Z.geb. cbv iota. exact E.
Qed.

(** Equal points are adjacent in the sorted vector. *)
Lemma adjacent_copies anchor l x :
  (forall y, In y l -> upper (vsub y anchor)) ->
  StronglySorted (not_after (CompareByAngle anchor)) l ->
  (2 <= count l x)%nat ->
  exists l1 l3, l = l1 ++ x :: x :: l3.
Proof.
  intros Hup Hs. induction Hs as [|y l Hs IH Hall]; intros Hc.
  - simpl in Hc. lia.
  - destruct (Vector2_eq_dec y x) as [->|Hne].
    + rewrite count_occ_cons_eq in Hc by reflexivity.
      assert (Hin : In x l) by (apply (count_occ_In Vector2_eq_dec); lia).
      destruct l as [|z l]; [contradiction|].
      assert (Ez : z = x).
      { destruct Hin as [Hz|Hin]; [exact Hz|].
        rewrite Forall_forall in Hall.
        assert (H1 : not_after (CompareByAngle anchor) x z)
          by (apply Hall; left; reflexivity).
        apply StronglySorted_inv in Hs as [_ Hz]. rewrite Forall_forall in Hz.
        assert (H2 : not_after (CompareByAngle anchor) z x) by (apply Hz, Hin).
        unfold not_after in H1, H2.
        apply CompareByAngle_false in H1, H2.
        apply (vsub_injective anchor). apply angle_le_antisym; auto.
        - apply Hup. right. left. reflexivity.
        - apply Hup. left. reflexivity. }
      subst z. exists [], l. reflexivity.
    + rewrite count_occ_cons_neq in Hc by exact Hne.
      destruct IH as (l1 & l3 & ->); auto.
      * intros z Hz. apply Hup. right. exact Hz.
      * exists (y :: l1), l3. reflexivity.
Qed.

(** A point that occurs more than once in a range of at least three
    points is never dropped: the output holds it at least twice, wherever
    it lies.  Its copies are adjacent in the sorted vector; the second is
    pushed on the first without a pop, and from then on the edge between
    them is the zero vector, whose cross product with every later candidate
    is zero, so the loop stops there. *)
Theorem GrahamScan_keeps_repeated_point_exact input x :
  (3 <= length input)%nat ->
  (2 <= count input x)%nat ->
  exists out,
    GrahamScan input = Some out /\ (2 <= count out x)%nat.
Proof.
  intros Hlen Hc.
  destruct (GrahamScan_run input Hlen)
    as (anchor & p0 & rest & pre & Ha & _ & Hmin & Hs & Hperm & Hsorted
        & Hturn & Hfinal & _ & Hg & _ & _).
  exists (anchor :: p0 :: rev pre). split; [exact Hg|].
  destruct (GrahamScan_stages input anchor p0 rest Hlen Ha Hs) as (Hst & _ & _).
  rewrite Hfinal in Hst. symmetry in Hst.
  assert (Hout : count (anchor :: p0 :: rev pre) x
                 = count (pre ++ [p0; anchor]) x).
  { change (anchor :: p0 :: rev pre) with (rev [p0; anchor] ++ rev pre).
    rewrite <- rev_app_distr. apply count_occ_rev. }
  rewrite Hout.
  rewrite (proj1 (Permutation_count_occ Vector2_eq_dec _ _) Hperm) in Hc.
  assert (Hup : forall y, In y (anchor :: p0 :: rest) -> upper (vsub y anchor)).
  { intros y Hy. apply lex_le_upper, Hmin.
    apply (Permutation_in _ (Permutation_sym Hperm)), Hy. }
  assert (Hall : StronglySorted (not_after (CompareByAngle anchor))
                   (anchor :: p0 :: rest)).
  { constructor; [exact Hsorted|]. rewrite Forall_forall. intros y _.
    unfold not_after. apply CompareByAngle_false, angle_le_iff. right.
    split; [unfold CrossProduct, vsub; simpl; ring|].
    assert (Hz : NormSquared (vsub anchor anchor) = 0)
      by (unfold NormSquared, vsub; simpl; ring).
    rewrite Hz. apply norm_nonneg. }
  destruct (adjacent_copies anchor _ x Hup Hall Hc) as (l1 & l3 & E).
  destruct l1 as [|a [|b l1]]; simpl in E.
  - injection E as -> -> _.
    rewrite count_occ_app. simpl.
    destruct (Vector2_eq_dec x x); [lia|congruence].
  - injection E as _ -> ->.
    destruct (sweep_after_copy x anchor [] l3 anchor) as [pre' E'].
    change ((x :: l3) ++ [anchor]) with (x :: l3 ++ [anchor]) in Hst.
    rewrite E' in Hst. injection Hst as Hst. rewrite <- Hst.
    rewrite count_occ_app. simpl.
    destruct (Vector2_eq_dec x x); [lia|congruence].
  - injection E as _ _ ->.
    destruct (sweep_bottom_last anchor p0 l1 x) with (pre := @nil Vector2)
      as [pre1 E1].
    { intros y Hy. apply Hturn. apply in_or_app. left.
      apply in_app_or in Hy as [Hy|[<-|[]]]; apply in_or_app;
        [left; exact Hy|right; left; reflexivity]. }
    simpl app in E1.
    assert (Hb : exists s r, pre1 ++ [p0; anchor] = s :: r)
      by (destruct pre1; simpl; eauto).
    destruct Hb as (s & r & Hb).
    destruct (sweep_after_copy x s r l3 anchor) as [pre' E'].
    replace ((l1 ++ x :: x :: l3) ++ [anchor])
      with ((l1 ++ [x]) ++ x :: l3 ++ [anchor]) in Hst
      by (rewrite <- !app_assoc; reflexivity).
    rewrite sweep_app, E1, Hb, E' in Hst. injection Hst as Hst.
    rewrite <- Hst, count_occ_app. simpl.
    destruct (Vector2_eq_dec x x); [lia|congruence].
Qed.

End ExactFacts.

(** * Properties of the program on every range

    What follows holds whatever the arithmetic does: it uses the control
    flow of the function and nothing about [keeps] and the comparators. *)

Lemma pop_loop_unfold p top second rest :
  pop_loop p (top :: second :: rest) =
  if keeps second top p then Some (top :: second :: rest)
  else pop_loop p (second :: rest).
Proof. reflexivity. Qed.

Lemma pop_loop_visits_unfold p top second rest :
  pop_loop_visits p (top :: second :: rest) =
  (p, top :: second :: rest) ::
  if keeps second top p then [] else pop_loop_visits p (second :: rest).
Proof. reflexivity. Qed.

Lemma sweep_unfold c cs st :
  sweep (c :: cs) st =
  match pop_loop c st with
  | Some r => sweep cs (c :: r)
  | None => None
  end.
Proof. reflexivity. Qed.

(** What the loop leaves: a suffix of the stack whose two newest entries
    pass the test with the candidate, after popping entries that each
    failed it. *)
Lemma pop_loop_leaves p st st' :
  pop_loop p st = Some st' ->
  exists popped top second rest,
    st = popped ++ st' /\ st' = top :: second :: rest /\
    keeps second top p = true /\
    forall l1 t s l2, st = l1 ++ t :: s :: l2 ->
                      (length l1 < length popped)%nat -> keeps s t p = false.
Proof.
  revert st'. induction st as [|top st IH]; intros st' H; [discriminate|].
  destruct st as [|second rest]; [discriminate|].
  rewrite pop_loop_unfold in H.
  destruct (keeps second top p) eqn:Hk.
  - injection H as <-. exists [], top, second, rest.
    repeat split; auto. simpl. intros; lia.
  - destruct (IH _ H) as (popped & t' & s' & r' & E & E' & Hturn & Hpop).
    exists (top :: popped), t', s', r'. repeat split; auto.
    + simpl. rewrite <- E. reflexivity.
    + intros l1 t s l2 Hst Hlen.
      destruct l1 as [|x l1]; simpl in Hst.
      * injection Hst as <- <- _. exact Hk.
      * injection Hst as _ Hst. apply (Hpop l1 t s l2 Hst). simpl in Hlen. lia.
Qed.

(** When the loop runs out of the stack, no two adjacent entries passed the
    test. *)
Lemma pop_loop_underflow p st :
  pop_loop p st = None ->
  forall l1 t s l2, st = l1 ++ t :: s :: l2 -> keeps s t p = false.
Proof.
  induction st as [|top st IH]; intros H l1 t s l2 E.
  - destruct l1; discriminate.
  - destruct st as [|second rest].
    + destruct l1 as [|? [|? ?]]; discriminate.
    + rewrite pop_loop_unfold in H.
      destruct (keeps second top p) eqn:Hk; [discriminate|].
      destruct l1 as [|x l1]; simpl in E.
      * injection E as <- <- _. exact Hk.
      * injection E as _ E. exact (IH H l1 t s l2 E).
Qed.

Lemma sort_insert_rearranges comp x l :
  Permutation (sort_insert comp x l) (x :: l).
Proof.
  induction l as [|y l IH]; simpl; auto.
  destruct (comp x y); auto.
  rewrite IH. apply perm_swap.
Qed.

Lemma std_sort_rearranges comp l : Permutation (std_sort comp l) l.
Proof.
  induction l as [|x l IH]; simpl; auto.
  rewrite sort_insert_rearranges. auto.
Qed.

Lemma without_position_rearranges (input : list Vector2) i a :
  nth_error input i = Some a ->
  Permutation input (a :: without_position i input).
Proof.
  unfold without_position. revert i.
  induction input as [|x l IH]; intros [|i] H; try discriminate.
  - injection H as <-. reflexivity.
  - simpl in H. change (Permutation (x :: l)
      (a :: x :: firstn i l ++ skipn (S i) l)).
    rewrite perm_swap. constructor. apply IH. exact H.
Qed.

Lemma min_element_from_bound comp l :
  forall smallest sv i,
    (smallest < i)%nat ->
    (min_element_from comp smallest sv i l < i + length l)%nat.
Proof.
  induction l as [|x l IH]; intros smallest sv i H; simpl; [lia|].
  destruct (comp x sv).
  - specialize (IH i x (S i)). lia.
  - specialize (IH smallest sv (S i)). lia.
Qed.

Lemma min_element_bound comp l :
  l <> [] -> (min_element comp l < length l)%nat.
Proof.
  destruct l as [|x l]; [congruence|]. intros _. simpl.
  pose proof (min_element_from_bound comp l 0%nat x 1%nat). lia.
Qed.

(** The sweep pushes every candidate once and only pops. *)
Lemma pop_loop_count p st st' x :
  pop_loop p st = Some st' -> (count st' x <= count st x)%nat.
Proof.
  intros H. destruct (pop_loop_leaves _ _ _ H) as (popped & _ & _ & _ & -> & _).
  rewrite count_occ_app. lia.
Qed.

Lemma sweep_counts cs :
  forall st st' x,
    sweep cs st = Some st' ->
    (count st' x <= count cs x + count st x)%nat.
Proof.
  induction cs as [|c cs IH]; intros st st' x H.
  - injection H as <-. simpl. lia.
  - rewrite sweep_unfold in H.
    destruct (pop_loop c st) as [r|] eqn:Hp; [|discriminate].
    apply IH with (x := x) in H.
    pose proof (pop_loop_count _ _ _ x Hp) as Hc.
    simpl in *. destruct (Vector2_eq_dec c x); lia.
Qed.

(** The last candidate is on top of the stack the sweep leaves, over at
    least two entries. *)
Lemma sweep_top cs c :
  forall st st',
    sweep (cs ++ [c]) st = Some st' ->
    exists r, st' = c :: r /\ (2 <= length r)%nat.
Proof.
  induction cs as [|d cs IH]; intros st st' H.
  - simpl in H. destruct (pop_loop c st) as [r|] eqn:Hp; [|discriminate].
    injection H as <-. exists r. split; [reflexivity|].
    destruct (pop_loop_leaves _ _ _ Hp) as (_ & t & s & rr & _ & -> & _).
    simpl. lia.
  - change ((d :: cs) ++ [c]) with (d :: (cs ++ [c])) in H.
    rewrite sweep_unfold in H.
    destruct (pop_loop d st) as [r|]; [|discriminate].
    exact (IH _ _ H).
Qed.

(** A suffix of at least two entries keeps the two oldest entries. *)
Lemma suffix_keeps_bottom (a b : Vector2) popped :
  forall pre st',
    pre ++ [a; b] = popped ++ st' ->
    (2 <= length st')%nat ->
    exists pre', st' = pre' ++ [a; b].
Proof.
  induction popped as [|y popped IH]; intros pre st' E Hlen.
  - exists pre. simpl in E. congruence.
  - destruct pre as [|x pre].
    + apply (f_equal (@length Vector2)) in E. simpl in E.
      rewrite length_app in E. lia.
    + simpl in E. injection E as _ E. exact (IH pre st' E Hlen).
Qed.

(** The loop never pops the two oldest entries: it stops or runs out of
    the stack before. *)
Lemma sweep_keeps_bottom (a b : Vector2) cs :
  forall pre st,
    sweep cs (pre ++ [a; b]) = Some st ->
    exists pre', st = pre' ++ [a; b].
Proof.
  induction cs as [|c cs IH]; intros pre st H.
  - injection H as <-. eauto.
  - rewrite sweep_unfold in H.
    destruct (pop_loop c (pre ++ [a; b])) as [r|] eqn:Hp; [|discriminate].
    destruct (pop_loop_leaves _ _ _ Hp) as (popped & t & s & rr & E & E' & _).
    destruct (suffix_keeps_bottom a b popped pre r E) as [pre' ->].
    { rewrite E'. simpl. lia. }
    exact (IH (c :: pre') st H).
Qed.

(** The stages of a run on at least three points. *)
Lemma GrahamScan_unfold input :
  (3 <= length input)%nat ->
  exists anchor,
    anchor_of input = Some anchor /\
    Permutation input (anchor :: sorted_points input) /\
    sorted_points input <> [] /\
    forall p0 rest,
      sorted_points input = p0 :: rest ->
      GrahamScan_final_stack input = sweep (rest ++ [anchor]) [p0; anchor] /\
      GrahamScan_visits input = sweep_visits (rest ++ [anchor]) [p0; anchor] /\
      GrahamScan input =
      match sweep (rest ++ [anchor]) [p0; anchor] with
      | Some st => match pop_back st with
                   | Some r => Some (stack_contents r)
                   | None => None
                   end
      | None => None
      end.
Proof.
  intros Hlen.
  assert (Hlt : (length input <? 3)%nat = false) by (apply Nat.ltb_ge; exact Hlen).
  assert (Hne : input <> []) by (destruct input; simpl in Hlen; [lia|discriminate]).
  pose proof (min_element_bound CompareYCoordinates input Hne) as Hb.
  destruct (nth_error input (min_element CompareYCoordinates input))
    as [anchor|] eqn:Ha; [|apply nth_error_None in Ha; lia].
  exists anchor. split; [exact Ha|].
  assert (Hperm : Permutation input (anchor :: sorted_points input)).
  { unfold sorted_points, anchor_of. rewrite Ha.
    rewrite std_sort_rearranges. apply without_position_rearranges. exact Ha. }
  split; [exact Hperm|]. split.
  - intros E. rewrite E in Hperm. apply Permutation_length in Hperm.
    simpl in Hperm. lia.
  - intros p0 rest Hs.
    unfold GrahamScan_final_stack, GrahamScan_visits, GrahamScan.
    rewrite Hlt. unfold anchor_of. rewrite Ha, Hs. repeat split.
    cbv zeta. unfold working_sequence.
    unfold sorted_points, anchor_of in Hs. rewrite Ha in Hs. rewrite Hs.
    reflexivity.
Qed.

(** Whatever the run returns is made of points of the range, none more
    often than the range holds it. *)
Lemma GrahamScan_output_counts input out :
  GrahamScan input = Some out -> sub_multiset out input.
Proof.
  intros H x.
  destruct (Nat.ltb_spec (length input) 3) as [Hlt|Hge].
  - unfold GrahamScan in H. apply Nat.ltb_lt in Hlt. rewrite Hlt in H.
    injection H as <-. lia.
  - destruct (GrahamScan_unfold input Hge) as (anchor & _ & Hperm & Hne & Hst).
    destruct (sorted_points input) as [|p0 rest] eqn:Hs; [congruence|].
    destruct (Hst p0 rest eq_refl) as (_ & _ & Hg). rewrite Hg in H.
    destruct (sweep (rest ++ [anchor]) [p0; anchor]) as [st|] eqn:Hsw;
      [|discriminate].
    destruct (sweep_top _ _ _ _ Hsw) as (r & -> & _).
    simpl in H. injection H as <-.
    pose proof (sweep_counts _ _ _ x Hsw) as Hc.
    rewrite (Permutation_count_occ Vector2_eq_dec) in Hperm.
    rewrite (Hperm x). unfold stack_contents. rewrite count_occ_rev.
    rewrite count_occ_app in Hc. simpl in *.
    destruct (Vector2_eq_dec anchor x), (Vector2_eq_dec p0 x); lia.
Qed.

(** The shape of a run that returns: the anchor on top of the final stack,
    the first sorted point and the anchor at its bottom, the output the
    stack below its top. *)
Lemma GrahamScan_returns input out :
  (3 <= length input)%nat ->
  GrahamScan input = Some out ->
  exists anchor p0 rest pre,
    anchor_of input = Some anchor /\
    sorted_points input = p0 :: rest /\
    Permutation input (anchor :: p0 :: rest) /\
    GrahamScan_final_stack input = Some (anchor :: pre ++ [p0; anchor]) /\
    GrahamScan_visits input = sweep_visits (rest ++ [anchor]) [p0; anchor] /\
    out = anchor :: p0 :: rev pre.
Proof.
  intros Hlen H.
  destruct (GrahamScan_unfold input Hlen) as (anchor & Ha & Hperm & Hne & Hst).
  destruct (sorted_points input) as [|p0 rest] eqn:Hs; [congruence|].
  destruct (Hst p0 rest eq_refl) as (Hf & Hv & Hg). rewrite Hg in H.
  destruct (sweep (rest ++ [anchor]) [p0; anchor]) as [st|] eqn:Hsw;
    [|discriminate].
  destruct (sweep_top _ _ _ _ Hsw) as (r & -> & Hr).
  destruct (sweep_keeps_bottom p0 anchor (rest ++ [anchor]) [] _ Hsw)
    as [pre' E].
  destruct pre' as [|x pre]; simpl in E.
  - injection E as _ E. subst r. simpl in Hr. lia.
  - injection E as <- ->. simpl in H. injection H as <-.
    exists anchor, p0, rest, pre. repeat split; auto.
    unfold stack_contents. rewrite rev_app_distr. reflexivity.
Qed.

Lemma sub_multiset_elements out input p :
  sub_multiset out input -> In p out -> In p input.
Proof.
  intros H Hin. apply (count_occ_In Vector2_eq_dec) in Hin.
  apply (count_occ_In Vector2_eq_dec). specialize (H p). lia.
Qed.

(** * The program follows the exact model where no comparison is changed *)

Section Refinement.
Variable f : Vector2 -> Exact.Vector2.
Variable dom : list Vector2.
Hypothesis same_y_order :
  forall a b, In a dom -> In b dom ->
    CompareYCoordinates a b = Exact.CompareYCoordinates (f a) (f b).
Hypothesis same_angle_order :
  forall o a b, In o dom -> In a dom -> In b dom ->
    CompareByAngle o a b = Exact.CompareByAngle (f o) (f a) (f b).
Hypothesis same_turn_test :
  forall s t p, In s dom -> In t dom -> In p dom ->
    keeps s t p = (Exact.turn (f s) (f t) (f p) >=? 0).

Lemma min_element_from_refines l :
  forall smallest sv i,
    In sv dom -> incl l dom ->
    Exact.min_element_from Exact.CompareYCoordinates smallest (f sv) i (map f l)
    = min_element_from CompareYCoordinates smallest sv i l.
Proof.
  induction l as [|x l IH]; intros smallest sv i Hsv Hl; simpl; [reflexivity|].
  assert (Hx : In x dom) by (apply Hl; left; reflexivity).
  assert (Hl' : incl l dom) by (intros y Hy; apply Hl; right; exact Hy).
  rewrite <- same_y_order by assumption.
  destruct (CompareYCoordinates x sv); apply IH; assumption.
Qed.

Lemma min_element_refines l :
  incl l dom ->
  Exact.min_element Exact.CompareYCoordinates (map f l)
  = min_element CompareYCoordinates l.
Proof.
  destruct l as [|x l]; intros Hl; simpl; [reflexivity|].
  apply min_element_from_refines.
  - apply Hl. left. reflexivity.
  - intros y Hy. apply Hl. right. exact Hy.
Qed.

Lemma sort_insert_refines o x l :
  In o dom -> In x dom -> incl l dom ->
  Exact.sort_insert (Exact.CompareByAngle (f o)) (f x) (map f l)
  = map f (sort_insert (CompareByAngle o) x l).
Proof.
  intros Ho Hx. induction l as [|y l IH]; intros Hl; simpl; [reflexivity|].
  assert (Hy : In y dom) by (apply Hl; left; reflexivity).
  rewrite <- same_angle_order by assumption.
  destruct (CompareByAngle o x y); simpl.
  - reflexivity.
  - rewrite IH; [reflexivity|]. intros z Hz. apply Hl. right. exact Hz.
Qed.

Lemma std_sort_refines o l :
  In o dom -> incl l dom ->
  Exact.std_sort (Exact.CompareByAngle (f o)) (map f l)
  = map f (std_sort (CompareByAngle o) l).
Proof.
  intros Ho. induction l as [|x l IH]; intros Hl; simpl; [reflexivity|].
  assert (Hl' : incl l dom) by (intros y Hy; apply Hl; right; exact Hy).
  rewrite IH by exact Hl'. apply sort_insert_refines.
  - exact Ho.
  - apply Hl. left. reflexivity.
  - intros y Hy. apply Hl'.
    apply (Permutation_in _ (std_sort_rearranges (CompareByAngle o) l)). exact Hy.
Qed.

Lemma pop_loop_refines p st :
  In p dom -> incl st dom ->
  Exact.pop_loop (f p) (map f st) = option_map (map f) (pop_loop p st).
Proof.
  intros Hp. induction st as [|top st IH]; intros Hst; [reflexivity|].
  destruct st as [|second r]; [reflexivity|].
  change (map f (top :: second :: r))
    with (f top :: f second :: map f r).
  rewrite ExactFacts.pop_loop_eq, pop_loop_unfold, same_turn_test.
  - destruct (Exact.turn (f second) (f top) (f p) >=? 0); [reflexivity|].
    apply IH. intros y Hy. apply Hst. right. exact Hy.
  - apply Hst. right. left. reflexivity.
  - apply Hst. left. reflexivity.
  - exact Hp.
Qed.

Lemma pop_loop_incl p st st' :
  pop_loop p st = Some st' -> incl st' st.
Proof.
  intros H. destruct (pop_loop_leaves _ _ _ H) as (popped & _ & _ & _ & -> & _).
  apply incl_appr, incl_refl.
Qed.

Lemma sweep_refines cs :
  forall st, incl cs dom -> incl st dom ->
    Exact.sweep (map f cs) (map f st) = option_map (map f) (sweep cs st).
Proof.
  induction cs as [|c cs IH]; intros st Hcs Hst; [reflexivity|].
  assert (Hc : In c dom) by (apply Hcs; left; reflexivity).
  assert (Hcs' : incl cs dom) by (intros y Hy; apply Hcs; right; exact Hy).
  change (map f (c :: cs)) with (f c :: map f cs).
  rewrite ExactFacts.sweep_cons, sweep_unfold, pop_loop_refines by assumption.
  destruct (pop_loop c st) as [r|] eqn:Hp; [|reflexivity].
  simpl option_map. apply (IH (c :: r)); [exact Hcs'|].
  intros y [<-|Hy]; [exact Hc|]. apply Hst. exact (pop_loop_incl _ _ _ Hp y Hy).
Qed.

Lemma pop_loop_visits_refines p st :
  In p dom -> incl st dom ->
  Exact.pop_loop_visits (f p) (map f st)
  = map (visit_value f) (pop_loop_visits p st).
Proof.
  intros Hp. induction st as [|top st IH]; intros Hst; [reflexivity|].
  destruct st as [|second r]; [reflexivity|].
  change (map f (top :: second :: r))
    with (f top :: f second :: map f r).
  rewrite ExactFacts.pop_loop_visits_eq, pop_loop_visits_unfold, same_turn_test.
  - change (map f (top :: second :: r))
      with (f top :: f second :: map f r) in IH.
    simpl map. unfold visit_value at 1. simpl fst. simpl snd. f_equal.
    destruct (Exact.turn (f second) (f top) (f p) >=? 0); [reflexivity|].
    apply IH. intros y Hy. apply Hst. right. exact Hy.
  - apply Hst. right. left. reflexivity.
  - apply Hst. left. reflexivity.
  - exact Hp.
Qed.

Lemma sweep_visits_refines cs :
  forall st, incl cs dom -> incl st dom ->
    Exact.sweep_visits (map f cs) (map f st)
    = map (visit_value f) (sweep_visits cs st).
Proof.
  induction cs as [|c cs IH]; intros st Hcs Hst; [reflexivity|].
  assert (Hc : In c dom) by (apply Hcs; left; reflexivity).
  assert (Hcs' : incl cs dom) by (intros y Hy; apply Hcs; right; exact Hy).
  simpl. rewrite map_app, pop_loop_visits_refines, pop_loop_refines by assumption.
  f_equal.
  destruct (pop_loop c st) as [r|] eqn:Hp; [|reflexivity].
  simpl option_map. apply (IH (c :: r)); [exact Hcs'|].
  intros y [<-|Hy]; [exact Hc|]. apply Hst. exact (pop_loop_incl _ _ _ Hp y Hy).
Qed.

Lemma without_position_refines i (l : list Vector2) :
  Exact.without_position i (map f l) = map f (without_position i l).
Proof.
  unfold Exact.without_position, without_position.
  rewrite firstn_map, skipn_map, map_app. reflexivity.
Qed.

Lemma without_position_incl i (l : list Vector2) :
  incl (without_position i l) l.
Proof.
  unfold without_position. intros x Hx. apply in_app_or in Hx as [Hx|Hx].
  - rewrite <- (firstn_skipn i l). apply in_or_app. left. exact Hx.
  - rewrite <- (firstn_skipn (S i) l). apply in_or_app. right. exact Hx.
Qed.

Lemma anchor_of_refines input :
  incl input dom ->
  Exact.anchor_of (map f input) = option_map f (anchor_of input).
Proof.
  intros Hd. unfold Exact.anchor_of, anchor_of.
  rewrite min_element_refines by exact Hd. apply nth_error_map.
Qed.

Lemma sorted_points_refines input :
  incl input dom ->
  Exact.sorted_points (map f input) = map f (sorted_points input).
Proof.
  intros Hd. unfold Exact.sorted_points, sorted_points.
  rewrite anchor_of_refines by exact Hd.
  destruct (anchor_of input) as [anchor|] eqn:Ha; [|reflexivity].
  simpl option_map. cbv iota.
  rewrite min_element_refines, without_position_refines by exact Hd.
  apply std_sort_refines.
  - apply Hd. unfold anchor_of in Ha. exact (nth_error_In _ _ Ha).
  - intros y Hy. apply Hd. exact (without_position_incl _ _ y Hy).
Qed.

Lemma run_incl input anchor p0 rest :
  incl input dom ->
  anchor_of input = Some anchor ->
  sorted_points input = p0 :: rest ->
  incl (rest ++ [anchor]) dom /\ incl [p0; anchor] dom.
Proof.
  intros Hd Ha Hs.
  assert (HA : In anchor dom).
  { apply Hd. unfold anchor_of in Ha. exact (nth_error_In _ _ Ha). }
  assert (HS : incl (p0 :: rest) dom).
  { rewrite <- Hs. unfold sorted_points. rewrite Ha. intros y Hy. apply Hd.
    apply (Permutation_in _ (std_sort_rearranges (CompareByAngle anchor) _)) in Hy.
    exact (without_position_incl _ _ y Hy). }
  split.
  - intros y Hy. apply in_app_or in Hy as [Hy|[<-|[]]]; [|exact HA].
    apply HS. right. exact Hy.
  - intros y [<-|[<-|[]]]; [|exact HA]. apply HS. left. reflexivity.
Qed.

(** The program returns what the exact model returns on the values, point
    for point, and visits the same stacks. *)
Lemma GrahamScan_refines input :
  incl input dom ->
  Exact.GrahamScan (map f input) = option_map (map f) (GrahamScan input) /\
  Exact.GrahamScan_visits (map f input)
  = map (visit_value f) (GrahamScan_visits input) /\
  Exact.GrahamScan_final_stack (map f input)
  = option_map (map f) (GrahamScan_final_stack input).
Proof.
  intros Hd.
  pose proof (anchor_of_refines input Hd) as HA.
  pose proof (sorted_points_refines input Hd) as HS.
  unfold Exact.GrahamScan_visits, GrahamScan_visits,
    Exact.GrahamScan_final_stack, GrahamScan_final_stack.
  rewrite HA, HS, length_map.
  assert (HG : Exact.GrahamScan (map f input)
               = option_map (map f) (GrahamScan input)).
  { unfold Exact.GrahamScan, GrahamScan. rewrite length_map.
    destruct (length input <? 3)%nat; [reflexivity|].
    unfold Exact.anchor_of, anchor_of in HA. rewrite HA.
    destruct (nth_error input (min_element CompareYCoordinates input))
      as [anchor|] eqn:Ha; [|reflexivity].
    simpl option_map at 1. cbv zeta.
    unfold Exact.working_sequence, working_sequence.
    unfold Exact.sorted_points, sorted_points in HS.
    unfold Exact.anchor_of, anchor_of in HS. rewrite HA, Ha in HS.
    simpl option_map in HS. cbv iota in HS. rewrite HS.
    destruct (std_sort (CompareByAngle anchor)
                (without_position (min_element CompareYCoordinates input) input))
      as [|p0 rest] eqn:Hsort; [reflexivity|].
    destruct (run_incl input anchor p0 rest Hd) as [Hc Hst].
    { exact Ha. }
    { unfold sorted_points, anchor_of. rewrite Ha. exact Hsort. }
    unfold Exact.push_back, push_back.
    change (map f (p0 :: rest) ++ [f anchor])
      with (f p0 :: (map f rest ++ map f [anchor])).
    change ((p0 :: rest) ++ [anchor]) with (p0 :: (rest ++ [anchor])).
    cbv iota. rewrite <- (map_app f rest [anchor]).
    change [f p0; f anchor] with (map f [p0; anchor]).
    rewrite sweep_refines by assumption.
    destruct (sweep (rest ++ [anchor]) [p0; anchor]) as [[|t st]|];
      try reflexivity.
    simpl. unfold Exact.stack_contents, stack_contents. rewrite map_rev.
    reflexivity. }
  split; [exact HG|].
  destruct (length input <? 3)%nat; [split; reflexivity|].
  destruct (anchor_of input) as [anchor|] eqn:Ha; [|split; reflexivity].
  destruct (sorted_points input) as [|p0 rest] eqn:Hs; [split; reflexivity|].
  destruct (run_incl input anchor p0 rest Hd Ha Hs) as [Hc Hst].
  simpl option_map. simpl map at 1 3. cbv iota.
  unfold Exact.push_back, push_back.
  change [f p0; f anchor] with (map f [p0; anchor]).
  change [f anchor] with (map f [anchor]).
  rewrite <- map_app.
  split; [apply sweep_visits_refines|apply sweep_refines]; assumption.
Qed.
End Refinement.

(** * The run on a range on which rounding changes no comparison *)

Lemma exact_on_answers k input :
  exact_on k input = true ->
  (forall a b, In a input -> In b input ->
     CompareYCoordinates a b
     = Exact.CompareYCoordinates (value k a) (value k b)) /\
  (forall o a b, In o input -> In a input -> In b input ->
     CompareByAngle o a b
     = Exact.CompareByAngle (value k o) (value k a) (value k b)) /\
  (forall s t p, In s input -> In t input -> In p input ->
     keeps s t p = (Exact.turn (value k s) (value k t) (value k p) >=? 0)).
Proof.
  unfold exact_on. intros H. apply andb_prop in H as [_ H].
  rewrite forallb_forall in H.
  assert (A : forall o a b, In o input -> In a input -> In b input ->
                same_answers k o a b = true).
  { intros o a b Ho Ha Hb. specialize (H o Ho).
    rewrite forallb_forall in H. specialize (H a Ha).
    rewrite forallb_forall in H. exact (H b Hb). }
  split; [|split].
  - intros a b Ha Hb. specialize (A a a b Ha Ha Hb). unfold same_answers in A.
    apply andb_prop in A as [A _]. apply andb_prop in A as [A _].
    apply eqb_prop. exact A.
  - intros o a b Ho Ha Hb. specialize (A o a b Ho Ha Hb).
    unfold same_answers in A.
    apply andb_prop in A as [A _]. apply andb_prop in A as [_ A].
    apply eqb_prop. exact A.
  - intros s t p Hs Ht Hp. specialize (A s t p Hs Ht Hp).
    unfold same_answers in A. apply andb_prop in A as [_ A].
    apply eqb_prop. exact A.
Qed.

(** On such a range the run of the program is the run of the exact model
    on the values: the same anchor, the same sorted vector, the same stacks
    at every pass of the loop, the same output. *)
Lemma exact_run k input :
  exact_on k input = true ->
  Exact.GrahamScan (values k input) = option_map (values k) (GrahamScan input) /\
  Exact.GrahamScan_visits (values k input)
  = map (visit_value (value k)) (GrahamScan_visits input) /\
  Exact.GrahamScan_final_stack (values k input)
  = option_map (values k) (GrahamScan_final_stack input) /\
  Exact.anchor_of (values k input) = option_map (value k) (anchor_of input) /\
  Exact.sorted_points (values k input) = values k (sorted_points input).
Proof.
  intros H. destruct (exact_on_answers k input H) as (HY & HA & HK).
  destruct (GrahamScan_refines (value k) input HY HA HK input (incl_refl _))
    as (H1 & H2 & H3).
  repeat split; try assumption.
  - apply (anchor_of_refines (value k) input HY). apply incl_refl.
  - apply (sorted_points_refines (value k) input HY HA). apply incl_refl.
Qed.

Lemma exact_output k input :
  (3 <= length input)%nat ->
  exact_on k input = true ->
  exists out,
    GrahamScan input = Some out /\
    Exact.GrahamScan (values k input) = Some (values k out).
Proof.
  intros Hlen H. destruct (exact_run k input H) as (HG & _).
  destruct (ExactFacts.output_counts (values k input)) as (outZ & Hz & _).
  { unfold values. rewrite length_map. exact Hlen. }
  rewrite Hz in HG. destruct (GrahamScan input) as [out|]; [|discriminate].
  exists out. split; [reflexivity|]. rewrite Hz, HG. reflexivity.
Qed.

Lemma values_length k l : length (values k l) = length l.
Proof. apply length_map. Qed.

(** * The claims *)

(** ** The scenarios of the spec, run on the program *)

Lemma scenario_A :
  GrahamScan [point 0 0; point 1 0; point 1 1; point 0 1;
              mkVector (double_of 1 (-1)) (double_of 1 (-1))]
  = Some [point 0 0; point 1 0; point 1 1; point 0 1].
Proof. vm_compute. reflexivity. Qed.

Lemma scenario_B :
  GrahamScan [point 0 0; point 2 0; point 1 0; point 1 2]
  = Some [point 0 0; point 1 0; point 2 0; point 1 2].
Proof. vm_compute. reflexivity. Qed.

Lemma scenario_D :
  GrahamScan (repeat (point 2 2) 4) = Some (repeat (point 2 2) 4).
Proof. vm_compute. reflexivity. Qed.

(** ** Ranges of fewer than three points *)

(** C4: a range of fewer than three points is copied to the output as it
    is, in its order; no stack is built and the loop condition is never
    evaluated. *)
Theorem GrahamScan_small_range input :
  (length input < 3)%nat ->
  GrahamScan input = Some input /\
  GrahamScan_visits input = [] /\
  GrahamScan_final_stack input = None.
Proof.
  intros H. apply Nat.ltb_lt in H.
  unfold GrahamScan, GrahamScan_visits, GrahamScan_final_stack.
  rewrite H. auto.
Qed.

Lemma GrahamScan_small_range_witness :
  (length [point 5 5; point 1 1] < 3)%nat /\
  GrahamScan [point 5 5; point 1 1] = Some [point 5 5; point 1 1].
Proof.
  split; [simpl; lia|].
  apply (GrahamScan_small_range [point 5 5; point 1 1]). simpl; lia.
Defined.

(** ** The output is made of points of the range *)

(** C3 fails as stated: on the collinear points (0,0), (3,5) and
    (3 * 2^53, 5 * 2^53) the cross product of line 167 is computed as -16,
    the first sorted point is popped, and the next subscript is out of
    bounds: there is no output. *)
Lemma collinear_range_without_output :
  GrahamScan [point 0 0; point 3 5; point (3 * 2 ^ 53) (5 * 2 ^ 53)] = None /\
  CrossProduct (vsub (point 3 5) (point 0 0))
               (vsub (point (3 * 2 ^ 53) (5 * 2 ^ 53)) (point 3 5))
  = of_int (-16) /\
  Exact.turn (Exact.mkVector 0 0) (Exact.mkVector 3 5)
             (Exact.mkVector (3 * 2 ^ 53) (5 * 2 ^ 53)) = 0.
Proof. vm_compute. repeat split. Qed.

(** C3: whatever the function returns is a sub-multiset of the range: no
    point occurs in the output more often than in the range, so every
    output point is a point of the range; and on a range of at least three
    points on which rounding changes no comparison it does return. *)
Theorem GrahamScan_sub_multiset k input :
  (3 <= length input)%nat ->
  (forall out,
      GrahamScan input = Some out ->
      sub_multiset out input /\ forall p, In p out -> In p input) /\
  (exact_on k input = true -> exists out, GrahamScan input = Some out).
Proof.
  intros Hlen. split.
  - intros out H. pose proof (GrahamScan_output_counts input out H) as Hsub.
    split; [exact Hsub|]. intros p. apply sub_multiset_elements. exact Hsub.
  - intros H. destruct (exact_output k input Hlen H) as (out & Hg & _).
    exists out. exact Hg.
Qed.

Lemma GrahamScan_sub_multiset_witness :
  exists out,
    GrahamScan [point 0 0; point 1 0; point 1 1; point 0 1;
                mkVector (double_of 1 (-1)) (double_of 1 (-1))] = Some out /\
    sub_multiset out [point 0 0; point 1 0; point 1 1; point 0 1;
                      mkVector (double_of 1 (-1)) (double_of 1 (-1))].
Proof.
  destruct (GrahamScan_sub_multiset (-1)
              [point 0 0; point 1 0; point 1 1; point 0 1;
               mkVector (double_of 1 (-1)) (double_of 1 (-1))])
    as [Hsub Hex].
  - simpl; lia.
  - destruct Hex as [out Hout]; [vm_compute; reflexivity|].
    exists out. split; [exact Hout|]. apply Hsub. exact Hout.
Defined.

(** ** The anchor *)




(** ** Turns of the output polygon *)

(** C2 fails as stated: on this range the exact cross product of the
    triple (0,0), (134217758,134217757), (268435515,268435513) is -1, a
    clockwise turn, but the two products of line 167 round to the same
    [double], the computed cross product is zero, nothing is popped and
    the triple is in the output. *)
Lemma rounding_keeps_clockwise_turn :
  GrahamScan [point 0 0; point 134217758 134217757;
              point 268435515 268435513; point 3 402653184]
  = Some [point 0 0; point 134217758 134217757;
          point 268435515 268435513; point 3 402653184] /\
  CrossProduct (vsub (point 134217758 134217757) (point 0 0))
               (vsub (point 268435515 268435513) (point 134217758 134217757))
  = zero /\
  Exact.turn (value 0 (point 0 0)) (value 0 (point 134217758 134217757))
             (value 0 (point 268435515 268435513)) = -1.
Proof. vm_compute. repeat split. Qed.

(** C2: on a range of at least three points on which rounding changes no
    comparison, no three consecutive points of the output, read as a
    closed polygon (indices modulo the length, so also the triples through
    the anchor), turn clockwise: the exact cross product of the two edge
    vectors of each triple is non-negative. *)
Theorem GrahamScan_no_clockwise_turn k input :
  (3 <= length input)%nat ->
  exact_on k input = true ->
  exists out,
    GrahamScan input = Some out /\
    Exact.no_clockwise_turn (values k out) /\
    forall i, (i < length out)%nat ->
      0 <= Exact.CrossProduct
             (Exact.vsub
                (nth i (values k out) Exact.zero_vector)
                (nth ((i + length out - 1) mod length out) (values k out)
                     Exact.zero_vector))
             (Exact.vsub
                (nth ((i + 1) mod length out) (values k out)
                     Exact.zero_vector)
                (nth i (values k out) Exact.zero_vector)).
Proof.
  intros Hlen H.
  destruct (exact_output k input Hlen H) as (out & Hg & Hz).
  destruct (ExactFacts.GrahamScan_no_clockwise_turn_exact (values k input))
    as (outZ & HgZ & Hn & Hc).
  { rewrite values_length. exact Hlen. }
  rewrite Hz in HgZ. injection HgZ as <-.
  exists out. split; [exact Hg|]. split; [exact Hn|].
  intros i Hi. specialize (Hc i). rewrite values_length in Hc. apply Hc, Hi.
Qed.

Lemma GrahamScan_no_clockwise_turn_witness :
  exists out,
    GrahamScan [point 0 0; point 4 0; point 3 1; point 3 1; point 4 4;
                point 0 4] = Some out /\
    Exact.no_clockwise_turn (values 0 out).
Proof.
  destruct (GrahamScan_no_clockwise_turn 0
              [point 0 0; point 4 0; point 3 1; point 3 1; point 4 4;
               point 0 4]) as (out & H1 & H2 & _).
  - simpl; lia.
  - vm_compute; reflexivity.
  - exists out. split; assumption.
Defined.

(** ** The function returns *)

(** C8 fails as stated: on (0,0), (2^512, 2^512), (2^513, 3 * 2^512) the
    two products of line 167 overflow, their difference is NaN, [NaN >= 0]
    is false, the first sorted point is popped and the next subscript is
    out of bounds. *)
Lemma overflow_range_without_output :
  GrahamScan [point 0 0; point (2 ^ 512) (2 ^ 512);
              point (2 ^ 513) (3 * 2 ^ 512)] = None /\
  CrossProduct (vsub (point (2 ^ 512) (2 ^ 512)) (point 0 0))
               (vsub (point (2 ^ 513) (3 * 2 ^ 512))
                     (point (2 ^ 512) (2 ^ 512)))
  = S754_nan.
Proof. vm_compute. split; reflexivity. Qed.

(** C8: on every range of at least three points on which rounding changes
    no comparison the function returns an output; a range whose points all
    coincide gives an output whose points all coincide with them; four
    copies of (2,2) give four copies of (2,2). *)
Theorem GrahamScan_total k input :
  (3 <= length input)%nat ->
  exact_on k input = true ->
  (exists out,
      GrahamScan input = Some out /\
      forall c, (forall p, In p input -> p = c) ->
                forall p, In p out -> p = c) /\
  (exists out,
      GrahamScan (repeat (point 2 2) 4) = Some out /\
      forall p, In p out -> p = point 2 2).
Proof.
  intros Hlen H. split.
  - destruct (exact_output k input Hlen H) as (out & Hg & _).
    exists out. split; [exact Hg|]. intros c Hc p Hp.
    apply Hc.
    exact (sub_multiset_elements _ _ _ (GrahamScan_output_counts _ _ Hg) Hp).
  - exists (repeat (point 2 2) 4). split; [vm_compute; reflexivity|].
    intros p Hp. apply repeat_spec in Hp. exact Hp.
Qed.

Lemma GrahamScan_total_witness :
  exists out,
    GrahamScan [point 0 0; point 1 0; point 2 0; point 3 0] = Some out.
Proof.
  destruct (GrahamScan_total 0 [point 0 0; point 1 0; point 2 0; point 3 0])
    as [(out & H & _) _].
  - simpl; lia.
  - vm_compute; reflexivity.
  - exists out. exact H.
Defined.

(** ** The stack stays in bounds *)

(** C9 fails as stated: on the collinear points (0,0), (7,9) and
    (7 * 2^53, 9 * 2^53) the second pass of the loop body finds a stack of
    one entry, [result[result.size() - 2]] is out of bounds, and the final
    [pop_back] is not reached. *)
Lemma loop_body_on_stack_of_one :
  GrahamScan_visits [point 0 0; point 7 9; point (7 * 2 ^ 53) (9 * 2 ^ 53)]
  = [(point (7 * 2 ^ 53) (9 * 2 ^ 53), [point 7 9; point 0 0]);
     (point (7 * 2 ^ 53) (9 * 2 ^ 53), [point 0 0])] /\
  GrahamScan_final_stack
    [point 0 0; point 7 9; point (7 * 2 ^ 53) (9 * 2 ^ 53)] = None /\
  GrahamScan [point 0 0; point 7 9; point (7 * 2 ^ 53) (9 * 2 ^ 53)] = None.
Proof. vm_compute. repeat split. Qed.

(** C9: on a range of at least three points on which rounding changes no
    comparison, whenever the loop body starts the stack holds at least two
    entries, so both subscripts are in bounds and a [pop_back] in the loop
    has an entry to remove; the final [pop_back] finds the anchor on top of
    at least two more entries; the function does not leave through an
    out-of-bounds access. *)
Theorem GrahamScan_stack_in_bounds k input :
  (3 <= length input)%nat ->
  exact_on k input = true ->
  Forall (fun v => (2 <= length (snd v))%nat) (GrahamScan_visits input) /\
  (exists anchor st,
      anchor_of input = Some anchor /\
      GrahamScan_final_stack input = Some (anchor :: st) /\
      (2 <= length st)%nat /\
      GrahamScan input = Some (stack_contents st)) /\
  GrahamScan input <> None.
Proof.
  intros Hlen H.
  destruct (exact_run k input H) as (_ & HV & _).
  destruct (exact_output k input Hlen H) as (out & Hg & _).
  destruct (ExactFacts.GrahamScan_stack_in_bounds_exact (values k input))
    as (Hvis & _).
  { rewrite values_length. exact Hlen. }
  split; [|split].
  - rewrite HV in Hvis. rewrite Forall_forall in *. intros v Hv.
    specialize (Hvis (visit_value (value k) v) (in_map _ _ _ Hv)).
    unfold visit_value in Hvis. simpl in Hvis. rewrite length_map in Hvis.
    exact Hvis.
  - destruct (GrahamScan_returns input out Hlen Hg)
      as (anchor & p0 & rest & pre & Ha & _ & _ & Hf & _ & ->).
    exists anchor, (pre ++ [p0; anchor]). repeat split; auto.
    + rewrite length_app. simpl. lia.
    + rewrite Hg. unfold stack_contents. rewrite rev_app_distr. reflexivity.
  - rewrite Hg. discriminate.
Qed.

Lemma GrahamScan_stack_in_bounds_witness :
  Forall (fun v => (2 <= length (snd v))%nat)
         (GrahamScan_visits [point 0 0; point 2 0; point 1 1; point 0 2;
                             point 0 3]).
Proof.
  apply (GrahamScan_stack_in_bounds 0
           [point 0 0; point 2 0; point 1 1; point 0 2; point 0 3]).
  - simpl; lia.
  - vm_compute; reflexivity.
Defined.

(** ** The angular order of the working sequence *)




(** ** Collinear points in the sweep *)






(** ** A duplicated point *)

(** C1 fails on a range with a duplicated point: the output is not the
    convex hull.  Every operation of the run is exact.  After the second
    (3,1) is pushed the last hull edge has length zero, its cross product
    with every later candidate is zero, and nothing below is popped any
    more.  So (3,1) stays in the output, twice, although it lies strictly
    inside the square that is the hull, and the input point (4,4) lies
    strictly on the negative side of the output edge from (4,0) to (3,1):
    it is outside the intersection of the positive half-spaces of the
    output's edges. *)
Theorem GrahamScan_duplicate_point_not_hull :
  GrahamScan [point 0 0; point 4 0; point 3 1; point 3 1; point 4 4;
              point 0 4]
  = Some [point 0 0; point 4 0; point 3 1; point 3 1; point 4 4;
          point 0 4] /\
  exact_on 0 [point 0 0; point 4 0; point 3 1; point 3 1; point 4 4;
              point 0 4] = true /\
  values 0 [point 0 0; point 4 0; point 3 1; point 3 1; point 4 4;
            point 0 4]
  = [Exact.mkVector 0 0; Exact.mkVector 4 0; Exact.mkVector 3 1;
     Exact.mkVector 3 1; Exact.mkVector 4 4; Exact.mkVector 0 4] /\
  CrossProduct (vsub (point 3 1) (point 4 0)) (vsub (point 4 4) (point 4 0))
  = of_int (-4) /\
  In (Exact.mkVector 4 0, Exact.mkVector 3 1)
     (Exact.edges [Exact.mkVector 0 0; Exact.mkVector 4 0; Exact.mkVector 3 1;
                   Exact.mkVector 3 1; Exact.mkVector 4 4;
                   Exact.mkVector 0 4]) /\
  Exact.CrossProduct
    (Exact.vsub (Exact.mkVector 3 1) (Exact.mkVector 4 0))
    (Exact.vsub (Exact.mkVector 4 4) (Exact.mkVector 4 0)) = -4 /\
  ~ Exact.inside_hull
      [Exact.mkVector 0 0; Exact.mkVector 4 0; Exact.mkVector 3 1;
       Exact.mkVector 3 1; Exact.mkVector 4 4; Exact.mkVector 0 4]
      (Exact.mkVector 4 4) /\
  (forall q, In q [Exact.mkVector 0 0; Exact.mkVector 4 0;
                   Exact.mkVector 3 1; Exact.mkVector 3 1;
                   Exact.mkVector 4 4; Exact.mkVector 0 4] ->
             Exact.inside_hull [Exact.mkVector 0 0; Exact.mkVector 4 0;
                                Exact.mkVector 4 4; Exact.mkVector 0 4] q) /\
  (forall e, In e (Exact.edges [Exact.mkVector 0 0; Exact.mkVector 4 0;
                                Exact.mkVector 4 4; Exact.mkVector 0 4]) ->
             0 < Exact.CrossProduct
                   (Exact.vsub (snd e) (fst e))
                   (Exact.vsub (Exact.mkVector 3 1) (fst e))).
Proof.
  split; [vm_compute; reflexivity|]. split; [vm_compute; reflexivity|].
  split; [vm_compute; reflexivity|]. split; [vm_compute; reflexivity|].
  exact (proj2 ExactFacts.GrahamScan_duplicate_point_not_hull_exact).
Qed.


(** * The statements on the store *)

(** Runs the first statement [c] of a sequence of commands on the store. *)
Ltac run_statement c :=
  unfold bind at 1; unfold c at 1; cbv beta iota;
  unfold set_points, set_result;
  cbn [memory points result out_pos].

Lemma set_result_same s : set_result s (result s) = s.
Proof. destruct s; reflexivity. Qed.

Lemma result_from_back_1 s top r :
  result s = top :: r -> result_from_back 1 s = Some (top, s).
Proof.
  intros E. unfold result_from_back, stack_contents. rewrite E.
  replace (length (top :: r) - 1)%nat with (length (rev r))
    by (rewrite length_rev; simpl; lia).
  simpl rev. rewrite nth_error_app2, Nat.sub_diag by lia. reflexivity.
Qed.

Lemma result_from_back_2 s top second r :
  result s = top :: second :: r -> result_from_back 2 s = Some (second, s).
Proof.
  intros E. unfold result_from_back, stack_contents. rewrite E.
  replace (length (top :: second :: r) - 2)%nat with (length (rev r))
    by (rewrite length_rev; simpl; lia).
  simpl rev. rewrite <- app_assoc.
  rewrite nth_error_app2, Nat.sub_diag by lia. reflexivity.
Qed.

Lemma while_true_pop_loop i p :
  forall fuel s,
    nth_error (points s) i = Some p ->
    (length (result s) < fuel)%nat ->
    while_true fuel (pop_loop_body i) s =
    match pop_loop p (result s) with
    | Some st' => Some (tt, set_result s st')
    | None => None
    end.
Proof.
  induction fuel as [|fuel IH]; intros s Hp Hfuel; [lia|].
  simpl while_true. unfold bind at 1. unfold pop_loop_body.
  destruct (result s) as [|top [|second r]] eqn:E.
  - unfold bind, result_from_back. rewrite E. reflexivity.
  - unfold bind at 1. rewrite (result_from_back_1 s top [] E).
    unfold bind, result_from_back. rewrite E. reflexivity.
  - unfold bind at 1. rewrite (result_from_back_1 s top _ E).
    unfold bind at 1. rewrite (result_from_back_2 s top second r E).
    unfold bind at 1. unfold points_at. rewrite Hp.
    unfold bind at 1. rewrite (result_from_back_1 s top _ E).
    rewrite pop_loop_unfold. unfold keeps.
    destruct (fge (fsub (fmul (vx (vsub top second)) (vy (vsub p top)))
                        (fmul (vy (vsub top second)) (vx (vsub p top))))
                  zero).
    + unfold ret. rewrite <- E, set_result_same. reflexivity.
    + unfold bind, result_pop_back, ret. rewrite E. simpl pop_back. cbv iota beta.
      rewrite IH.
      * reflexivity.
      * exact Hp.
      * simpl result. simpl in Hfuel. simpl. lia.
Qed.

Lemma refine_hull_step i p s :
  nth_error (points s) i = Some p ->
  refine_hull i s =
  match pop_loop p (result s) with
  | Some st' => Some (tt, set_result s (push_back st' p))
  | None => None
  end.
Proof.
  intros Hp. unfold refine_hull. unfold bind at 1. unfold result_size.
  unfold bind at 1. rewrite (while_true_pop_loop i p) by (auto; lia).
  destruct (pop_loop p (result s)) as [st'|]; [|reflexivity].
  unfold bind, points_at, result_push_back. simpl points. rewrite Hp.
  reflexivity.
Qed.

Lemma for_loop_sweep cs :
  forall s i pre,
    points s = pre ++ cs -> length pre = i ->
    for_loop i (length cs) refine_hull s =
    match sweep cs (result s) with
    | Some st' => Some (tt, set_result s st')
    | None => None
    end.
Proof.
  induction cs as [|c cs IH]; intros s i pre Hpts Hi; simpl.
  - unfold ret. rewrite set_result_same. reflexivity.
  - unfold bind. rewrite (refine_hull_step i c).
    + destruct (pop_loop c (result s)) as [st'|]; [|reflexivity].
      rewrite (IH _ (S i) (pre ++ [c])).
      * reflexivity.
      * simpl. rewrite Hpts, <- app_assoc. reflexivity.
      * rewrite length_app. simpl. lia.
    + rewrite Hpts, nth_error_app2, <- Hi, Nat.sub_diag by lia. reflexivity.
Qed.

(** ** Cells and slices *)

Lemma slice_nth l a b i :
  nth_error (slice l a b) i
  = if (i <? b - a)%nat then nth_error l (a + i) else None.
Proof.
  unfold slice. rewrite nth_error_firstn, nth_error_skipn. reflexivity.
Qed.

Lemma slice_length l a b :
  (b <= length l)%nat -> length (slice l a b) = (b - a)%nat.
Proof.
  intros H. unfold slice. rewrite length_firstn, length_skipn. lia.
Qed.

Lemma slice_without_position mem b e m :
  (b + m < e)%nat -> (e <= length mem)%nat ->
  slice mem b (b + m) ++ slice mem (S (b + m)) e
  = without_position m (slice mem b e).
Proof.
  intros Hm He. unfold without_position, slice.
  rewrite firstn_firstn, skipn_firstn_comm, skipn_skipn.
  replace (b + m - b)%nat with m by lia.
  replace (Nat.min m (e - b)) with m by lia.
  replace (e - S (b + m))%nat with (e - b - S m)%nat by lia.
  replace (S (b + m)) with (S m + b)%nat by lia.
  reflexivity.
Qed.

Lemma store_at_length i v l : length (store_at i v l) = length l.
Proof.
  revert i. induction l as [|x l IH]; intros [|i]; simpl; auto.
Qed.

Lemma store_at_nth i v l a :
  nth_error (store_at i v l) a
  = if (a =? i)%nat then (if (i <? length l)%nat then Some v else None)
    else nth_error l a.
Proof.
  revert i a. induction l as [|x l IH]; intros i a.
  - simpl. destruct a, i; simpl; try reflexivity;
      destruct (a =? i)%nat; reflexivity.
  - destruct i as [|i], a as [|a]; simpl; try reflexivity.
    rewrite IH. reflexivity.
Qed.

(** Cells that agree at every position of a slice give the same slice. *)
Lemma slice_same l l' a b :
  (forall i, (a <= i < b)%nat -> nth_error l' i = nth_error l i) ->
  slice l' a b = slice l a b.
Proof.
  intros H. apply nth_error_ext. intros i. rewrite !slice_nth.
  destruct (Nat.ltb_spec i (b - a)); [|reflexivity].
  apply H. lia.
Qed.

(** ** The two copies *)

Lemma write_all_frame vs :
  forall o mem mem',
    write_all o vs mem = Some mem' ->
    length mem' = length mem /\
    (forall a, (a < o \/ o + length vs <= a)%nat ->
               nth_error mem' a = nth_error mem a) /\
    slice mem' o (o + length vs) = vs.
Proof.
  induction vs as [|v vs IH]; intros o mem mem' H.
  - injection H as <-. repeat split.
    unfold slice. replace (o + length (@nil Vector2) - o)%nat with 0%nat
      by (simpl; lia). reflexivity.
  - simpl in H. destruct (Nat.ltb_spec o (length mem)) as [Ho|]; [|discriminate].
    destruct (IH _ _ _ H) as (Hl & Hf & Hs). rewrite store_at_length in Hl.
    split; [exact Hl|]. split.
    + intros a Ha. rewrite Hf by (simpl in Ha; lia).
      rewrite store_at_nth. destruct (Nat.eqb_spec a o); [simpl in Ha; lia|].
      reflexivity.
    + apply nth_error_ext. intros i. rewrite slice_nth.
      simpl length. replace (o + S (length vs) - o)%nat with (S (length vs)) by lia.
      destruct i as [|i].
      * simpl. rewrite Nat.add_0_r, Hf by lia.
        rewrite store_at_nth, Nat.eqb_refl.
        destruct (Nat.ltb_spec o (length mem)); [reflexivity|lia].
      * simpl nth_error.
        assert (Hi : nth_error vs i
                     = nth_error (slice mem' (S o) (S o + length vs)) i)
          by (rewrite Hs; reflexivity).
        rewrite Hi, slice_nth.
        replace (S o + length vs - S o)%nat with (length vs) by lia.
        change (S i <? S (length vs))%nat with (i <? length vs)%nat.
        replace (o + S i)%nat with (S o + i)%nat by lia. reflexivity.
Qed.

Lemma write_all_room vs :
  forall o mem,
    (o + length vs <= length mem)%nat ->
    exists mem', write_all o vs mem = Some mem'.
Proof.
  induction vs as [|v vs IH]; intros o mem H; simpl; [eauto|].
  simpl in H. destruct (Nat.ltb_spec o (length mem)); [|lia].
  apply IH. rewrite store_at_length. lia.
Qed.

Lemma copy_cells_frame n :
  forall src dst mem mem',
    copy_cells src dst n mem = Some mem' ->
    length mem' = length mem /\
    (forall a, (a < dst \/ dst + n <= a)%nat ->
               nth_error mem' a = nth_error mem a).
Proof.
  induction n as [|n IH]; intros src dst mem mem' H.
  - injection H as <-. auto.
  - simpl in H. destruct (nth_error mem src) as [v|]; [|discriminate].
    destruct (Nat.ltb_spec dst (length mem)); [|discriminate].
    destruct (IH _ _ _ _ H) as (Hl & Hf). rewrite store_at_length in Hl.
    split; [exact Hl|]. intros a Ha. rewrite Hf by lia.
    rewrite store_at_nth. destruct (Nat.eqb_spec a dst); [lia|reflexivity].
Qed.

Lemma copy_cells_room n :
  forall src dst mem,
    (src + n <= length mem)%nat -> (dst + n <= length mem)%nat ->
    exists mem', copy_cells src dst n mem = Some mem'.
Proof.
  induction n as [|n IH]; intros src dst mem Hs Hd; simpl; [eauto|].
  destruct (nth_error mem src) as [v|] eqn:E;
    [|apply nth_error_None in E; lia].
  destruct (Nat.ltb_spec dst (length mem)); [|lia].
  apply IH; rewrite store_at_length; lia.
Qed.

Lemma copy_entry_step i v s :
  nth_error (stack_contents (result s)) i = Some v ->
  copy_entry i s =
  if (out_pos s <? length (memory s))%nat
  then Some (tt, mkStore (store_at (out_pos s) v (memory s))
                         (points s) (result s) (S (out_pos s)))
  else None.
Proof.
  intros H. unfold copy_entry, bind, result_at. rewrite H. reflexivity.
Qed.

Lemma copy_result_runs vs :
  forall s i pre,
    stack_contents (result s) = pre ++ vs -> length pre = i ->
    for_loop i (length vs) copy_entry s =
    match write_all (out_pos s) vs (memory s) with
    | Some m => Some (tt, mkStore m (points s) (result s)
                                  (out_pos s + length vs))
    | None => None
    end.
Proof.
  induction vs as [|v vs IH]; intros s i pre Hst Hi; simpl.
  - unfold ret. rewrite Nat.add_0_r. destruct s; reflexivity.
  - unfold bind at 1. rewrite (copy_entry_step i v)
      by (rewrite Hst, nth_error_app2, <- Hi, Nat.sub_diag by lia; reflexivity).
    destruct (out_pos s <? length (memory s))%nat; [|reflexivity].
    rewrite (IH _ (S i) (pre ++ [v])).
    + cbn [memory points result out_pos].
      replace (S (out_pos s) + length vs)%nat
        with (out_pos s + S (length vs))%nat by lia.
      reflexivity.
    + cbn [result]. rewrite Hst, <- app_assoc. reflexivity.
    + rewrite length_app. simpl. lia.
Qed.

Lemma copy_range_runs n :
  forall s first,
    for_loop first n copy_cell s =
    match copy_cells first (out_pos s) n (memory s) with
    | Some m => Some (tt, mkStore m (points s) (result s) (out_pos s + n))
    | None => None
    end.
Proof.
  induction n as [|n IH]; intros s first; simpl.
  - unfold ret. rewrite Nat.add_0_r. destruct s; reflexivity.
  - unfold bind at 1. unfold copy_cell at 1. unfold bind at 1. unfold deref.
    destruct (nth_error (memory s) first) as [v|]; [|reflexivity].
    unfold write_out.
    destruct (out_pos s <? length (memory s))%nat; [|reflexivity].
    rewrite IH. cbn [memory points result out_pos].
    replace (S (out_pos s) + n)%nat with (out_pos s + S n)%nat by lia.
    reflexivity.
Qed.

(** ** The statements compute the function *)

Lemma GrahamScan_cmd_small mem b e o :
  (e - b < 3)%nat ->
  GrahamScan_cmd b e (initial_store mem o) =
  match copy_cells b o (e - b) mem with
  | Some m => Some ((o + (e - b))%nat, mkStore m [] [] (o + (e - b)))
  | None => None
  end.
Proof.
  intros H. apply Nat.ltb_lt in H.
  unfold GrahamScan_cmd, initial_store.
  run_statement range_distance. rewrite H.
  unfold bind, copy_range_to_out. rewrite copy_range_runs.
  cbn [memory points result out_pos].
  destruct (copy_cells b o (e - b) mem); reflexivity.
Qed.

(** On at least three cells the statements return what [GrahamScan]
    returns on the range, written from [out] on; they stop where it has no
    output and where the cells from [out] on do not suffice. *)
Lemma GrahamScan_cmd_large mem b e o :
  (3 <= e - b)%nat -> (e <= length mem)%nat ->
  option_map (fun rs => (fst rs, memory (snd rs)))
             (GrahamScan_cmd b e (initial_store mem o)) =
  match GrahamScan (slice mem b e) with
  | Some hull =>
      option_map (fun m => ((o + length hull)%nat, m)) (write_all o hull mem)
  | None => None
  end.
Proof.
  intros Hn He.
  assert (Hlen : length (slice mem b e) = (e - b)%nat)
    by (apply slice_length; exact He).
  assert (Hlt : (e - b <? 3)%nat = false) by (apply Nat.ltb_ge; exact Hn).
  unfold GrahamScan_cmd, initial_store.
  run_statement range_distance. rewrite Hlt.
  run_statement range_min_element.
  set (input := slice mem b e) in *.
  set (m := min_element CompareYCoordinates input).
  assert (Hm : (m < e - b)%nat).
  { rewrite <- Hlen. apply min_element_bound.
    intros E. rewrite E in Hlen. simpl in Hlen. lia. }
  destruct (nth_error input m) as [anchor|] eqn:Ha;
    [|apply nth_error_None in Ha; lia].
  assert (Hmem : nth_error mem (b + m) = Some anchor).
  { unfold input in Ha. rewrite slice_nth in Ha.
    destruct (Nat.ltb_spec m (e - b)); [exact Ha|lia]. }
  run_statement points_insert_range.
  run_statement points_insert_range.
  rewrite app_nil_l, slice_without_position by lia. fold input.
  run_statement deref. rewrite Hmem.
  run_statement points_sort.
  run_statement deref. rewrite Hmem.
  run_statement points_push_back.
  run_statement deref. rewrite Hmem.
  run_statement result_push_back.
  unfold GrahamScan. rewrite Hlen, Hlt. fold m. rewrite Ha.
  cbv zeta. unfold working_sequence.
  destruct (std_sort (CompareByAngle anchor) (without_position m input)
            ++ [anchor]) as [|p0 cands] eqn:Hw.
  { destruct (std_sort (CompareByAngle anchor) (without_position m input));
      discriminate. }
  run_statement points_at. cbn [nth_error].
  run_statement result_push_back.
  run_statement points_size.
  unfold bind at 1.
  replace (length (p0 :: cands) - 1)%nat with (length cands) by (simpl; lia).
  rewrite (for_loop_sweep cands _ 1%nat [p0]); [|reflexivity|reflexivity].
  cbn [result]. unfold push_back.
  destruct (sweep cands [p0; anchor]) as [st|]; [|reflexivity].
  run_statement result_pop_back.
  destruct st as [|t st]; [reflexivity|]. cbn [pop_back].
  unfold bind at 1. unfold copy_result_to_out.
  run_statement result_size.
  replace (length st) with (length (stack_contents st))
    by (unfold stack_contents; apply length_rev).
  rewrite (copy_result_runs (stack_contents st) _ 0%nat []);
    [|reflexivity|reflexivity].
  cbn [memory points result out_pos].
  destruct (write_all o (stack_contents st) mem); reflexivity.
Qed.

(** The sweep leaves at most the entries it was given. *)
Lemma sweep_length cs :
  forall st st',
    sweep cs st = Some st' -> (length st' <= length cs + length st)%nat.
Proof.
  induction cs as [|c cs IH]; intros st st' H.
  - injection H as <-. simpl. lia.
  - rewrite sweep_unfold in H.
    destruct (pop_loop c st) as [r|] eqn:Hp; [|discriminate].
    apply IH in H.
    destruct (pop_loop_leaves _ _ _ Hp) as (popped & _ & _ & _ & E & _).
    apply (f_equal (@length Vector2)) in E. rewrite length_app in E.
    simpl in *. lia.
Qed.

Lemma GrahamScan_output_size input hull :
  GrahamScan input = Some hull -> (length hull <= length input)%nat.
Proof.
  intros H.
  destruct (Nat.ltb_spec (length input) 3) as [Hlt|Hge].
  - unfold GrahamScan in H. apply Nat.ltb_lt in Hlt. rewrite Hlt in H.
    injection H as <-. lia.
  - destruct (GrahamScan_returns input hull Hge H)
      as (anchor & p0 & rest & pre & _ & Hs & Hperm & Hf & _ & ->).
    destruct (GrahamScan_unfold input Hge) as (anchor' & _ & _ & _ & Hst).
    destruct (Hst p0 rest Hs) as (Hf' & _ & _). rewrite Hf in Hf'.
    symmetry in Hf'. apply sweep_length in Hf'.
    apply Permutation_length in Hperm.
    simpl in *. rewrite !length_app in Hf'. rewrite length_rev.
    simpl in Hf'. lia.
Qed.

(** ** The caller's memory *)

(** C10 fails as stated: called with [out = begin] on the four points
    (1,1), (0,0), (2,0), (1,3), the function writes the three points of the
    hull over the first three cells of the range. *)
Lemma output_overwrites_range :
  option_map (fun rs => (fst rs, memory (snd rs)))
    (GrahamScan_cmd 0 4
       (initial_store [point 1 1; point 0 0; point 2 0; point 1 3] 0))
  = Some (3%nat, [point 0 0; point 2 0; point 1 3; point 1 3]) /\
  nth_error [point 1 1; point 0 0; point 2 0; point 1 3] 0
  = Some (point 1 1) /\
  nth_error [point 0 0; point 2 0; point 1 3; point 1 3] 0
  = Some (point 0 0).
Proof. vm_compute. repeat split. Qed.

(** C10: the function changes the caller's memory only by writing the
    output through [out]: whenever the call returns, every cell before the
    position of [out] and from the returned iterator on is as it was, so
    the range [begin, end) holds the same points in the same order when the
    written cells lie outside it; on at least three points the written
    cells hold the output.  And the call returns when rounding changes no
    comparison on the range and the cells from [out] on suffice. *)
Theorem GrahamScan_writes_only_through_out k mem b e o :
  (b <= e <= length mem)%nat ->
  (forall r s',
      GrahamScan_cmd b e (initial_store mem o) = Some (r, s') ->
      length (memory s') = length mem /\
      (o <= r)%nat /\
      (forall a, (a < o \/ r <= a)%nat ->
                 nth_error (memory s') a = nth_error mem a) /\
      ((e <= o \/ r <= b)%nat -> slice (memory s') b e = slice mem b e) /\
      ((3 <= e - b)%nat ->
       GrahamScan (slice mem b e) = Some (slice (memory s') o r))) /\
  (exact_on k (slice mem b e) = true ->
   (o + (e - b) <= length mem)%nat ->
   exists r s', GrahamScan_cmd b e (initial_store mem o) = Some (r, s')).
Proof.
  intros Hbe. split.
  - intros r s' Hrun.
    assert (Hframe : length (memory s') = length mem /\ (o <= r)%nat /\
              (forall a, (a < o \/ r <= a)%nat ->
                         nth_error (memory s') a = nth_error mem a) /\
              ((3 <= e - b)%nat ->
               GrahamScan (slice mem b e) = Some (slice (memory s') o r))).
    { destruct (Nat.ltb_spec (e - b) 3) as [Hlt|Hge].
      - rewrite GrahamScan_cmd_small in Hrun by exact Hlt.
        destruct (copy_cells b o (e - b) mem) as [m|] eqn:Hc; [|discriminate].
        injection Hrun as <- <-. cbn [memory].
        destruct (copy_cells_frame _ _ _ _ _ Hc) as (Hl & Hf).
        repeat split; auto; lia.
      - pose proof (GrahamScan_cmd_large mem b e o Hge (proj2 Hbe)) as Hspec.
        rewrite Hrun in Hspec. simpl in Hspec.
        destruct (GrahamScan (slice mem b e)) as [hull|]; [|discriminate].
        destruct (write_all o hull mem) as [m|] eqn:Hw; [|discriminate].
        simpl in Hspec. injection Hspec as -> ->.
        destruct (write_all_frame _ _ _ _ Hw) as (Hl & Hf & Hs).
        repeat split; auto; try lia.
        intros _. rewrite Hs. reflexivity. }
    destruct Hframe as (Hl & Hor & Hf & Hout).
    repeat split; auto.
    intros Hdis. apply slice_same. intros i Hi. apply Hf. lia.
  - intros Hex Hroom.
    destruct (Nat.ltb_spec (e - b) 3) as [Hlt|Hge].
    + rewrite GrahamScan_cmd_small by exact Hlt.
      destruct (copy_cells_room (e - b) b o mem) as [m ->]; [lia|lia|].
      eauto.
    + pose proof (GrahamScan_cmd_large mem b e o Hge (proj2 Hbe)) as Hspec.
      destruct (exact_output k (slice mem b e)) as (hull & Hg & _).
      { rewrite slice_length by lia. exact Hge. }
      { exact Hex. }
      rewrite Hg in Hspec.
      pose proof (GrahamScan_output_size _ _ Hg) as Hsize.
      rewrite slice_length in Hsize by lia.
      destruct (write_all_room hull o mem) as [m Hw]; [lia|].
      rewrite Hw in Hspec.
      destruct (GrahamScan_cmd b e (initial_store mem o)) as [[r s']|];
        [eauto|discriminate].
Qed.

Lemma GrahamScan_writes_only_through_out_witness :
  exists r s',
    GrahamScan_cmd 0 4
      (initial_store [point 1 1; point 0 0; point 2 0; point 1 3;
                      point 9 9; point 9 9; point 9 9; point 9 9] 4)
    = Some (r, s') /\
    slice (memory s') 0 4 = [point 1 1; point 0 0; point 2 0; point 1 3].
Proof.
  destruct (GrahamScan_writes_only_through_out 0
              [point 1 1; point 0 0; point 2 0; point 1 3;
               point 9 9; point 9 9; point 9 9; point 9 9] 0 4 4)
    as [Hframe Hruns].
  - simpl; lia.
  - destruct Hruns as (r & s' & Hrun).
    + vm_compute; reflexivity.
    + simpl; lia.
    + exists r, s'. split; [exact Hrun|].
      destruct (Hframe r s' Hrun) as (_ & _ & _ & Hsame & _).
      rewrite Hsame; [reflexivity|]. left. lia.
Defined.

(** * Further properties of the run where rounding changes no comparison *)

Lemma exact_on_incl k l l' :
  incl l' l -> exact_on k l = true -> exact_on k l' = true.
Proof.
  unfold exact_on. intros Hi H. apply andb_prop in H as [H1 H2].
  rewrite forallb_forall in H1, H2.
  apply andb_true_intro. split; apply forallb_forall.
  - intros x Hx. apply H1, Hi, Hx.
  - intros o Ho. specialize (H2 o (Hi o Ho)). rewrite forallb_forall in H2.
    apply forallb_forall. intros a Ha. specialize (H2 a (Hi a Ha)).
    rewrite forallb_forall in H2. apply forallb_forall. intros b Hb.
    apply H2, Hi, Hb.
Qed.

(** The run of the program beside the run of the exact model. *)
Lemma exact_transfer k input :
  (3 <= length input)%nat ->
  exact_on k input = true ->
  exists anchor out,
    anchor_of input = Some anchor /\
    GrahamScan input = Some (anchor :: out) /\
    Exact.anchor_of (values k input) = Some (value k anchor) /\
    Exact.GrahamScan (values k input)
    = Some (value k anchor :: values k out) /\
    Exact.sorted_points (values k input) = values k (sorted_points input) /\
    Exact.GrahamScan_visits (values k input)
    = map (visit_value (value k)) (GrahamScan_visits input) /\
    hd anchor out = hd anchor (sorted_points input) /\
    Permutation input (anchor :: sorted_points input).
Proof.
  intros Hlen H.
  destruct (exact_run k input H) as (_ & HV & _ & HA & HS).
  destruct (exact_output k input Hlen H) as (out0 & Hg & Hz).
  destruct (GrahamScan_returns input out0 Hlen Hg)
    as (anchor & p0 & rest & pre & Ha & Hs & Hperm & _ & _ & ->).
  exists anchor, (p0 :: rev pre). rewrite Ha in HA. rewrite Hs in *.
  repeat split; auto.
Qed.

(** X1: on a range of at least three points on which rounding changes no
    comparison, the output is the anchor followed by points in the order
    of the sorted working sequence: by value, the rest of the output is a
    subsequence of the sorted points, beginning with the first of them and
    ending with the last. *)
Theorem GrahamScan_output_order k input :
  (3 <= length input)%nat ->
  exact_on k input = true ->
  exists anchor out,
    anchor_of input = Some anchor /\
    GrahamScan input = Some (anchor :: out) /\
    Exact.subsequence (values k out) (values k (sorted_points input)) /\
    hd anchor out = hd anchor (sorted_points input) /\
    last (values k out) (value k anchor)
    = last (values k (sorted_points input)) (value k anchor).
Proof.
  intros Hlen H.
  destruct (exact_transfer k input Hlen H)
    as (anchor & out & Ha & Hg & HaZ & HgZ & HsZ & _ & Hhd & _).
  destruct (ExactFacts.GrahamScan_output_order_exact (values k input))
    as (aZ & outZ & Ha' & Hg' & Hsub & _ & Hlast).
  { rewrite values_length. exact Hlen. }
  rewrite HaZ in Ha'. injection Ha' as <-.
  rewrite HgZ in Hg'. injection Hg' as <-.
  rewrite HsZ in Hsub, Hlast.
  exists anchor, out. repeat split; auto.
Qed.

Lemma GrahamScan_output_order_witness :
  exists anchor out,
    GrahamScan [point 0 0; point 2 0; point 1 1; point 0 2; point 0 3]
    = Some (anchor :: out) /\
    Exact.subsequence
      (values 0 out)
      (values 0 (sorted_points [point 0 0; point 2 0; point 1 1; point 0 2;
                                point 0 3])).
Proof.
  destruct (GrahamScan_output_order 0
              [point 0 0; point 2 0; point 1 1; point 0 2; point 0 3])
    as (anchor & out & _ & Hg & Hsub & _).
  - simpl; lia.
  - vm_compute; reflexivity.
  - exists anchor, out. split; assumption.
Defined.

(** X2: on a range of at least three points on which rounding changes no
    comparison, the output has at least three points and at most as many
    as the range. *)
Theorem GrahamScan_output_length k input :
  (3 <= length input)%nat ->
  exact_on k input = true ->
  exists out,
    GrahamScan input = Some out /\
    (3 <= length out <= length input)%nat.
Proof.
  intros Hlen H.
  destruct (exact_output k input Hlen H) as (out & Hg & Hz).
  destruct (ExactFacts.GrahamScan_output_length_exact (values k input))
    as (outZ & Hg' & Hb).
  { rewrite values_length. exact Hlen. }
  rewrite Hz in Hg'. injection Hg' as <-.
  rewrite !values_length in Hb. exists out. split; assumption.
Qed.

Lemma GrahamScan_output_length_witness :
  exists out,
    GrahamScan [point 0 0; point 2 0; point 1 1; point 1 3] = Some out /\
    (3 <= length out <= 4)%nat.
Proof.
  apply (GrahamScan_output_length 0
           [point 0 0; point 2 0; point 1 1; point 1 3]).
  - simpl; lia.
  - vm_compute; reflexivity.
Defined.

(** X3: whatever the function returns on a range without a repeated point
    has no repeated point; and it returns on a range of at least three
    points on which rounding changes no comparison. *)
Theorem GrahamScan_output_NoDup k input :
  NoDup input ->
  (forall out, GrahamScan input = Some out -> NoDup out) /\
  ((3 <= length input)%nat -> exact_on k input = true ->
   exists out, GrahamScan input = Some out /\ NoDup out).
Proof.
  intros Hnd.
  assert (G : forall out, GrahamScan input = Some out -> NoDup out).
  { intros out Hg. apply (NoDup_count_occ Vector2_eq_dec). intros x.
    pose proof (GrahamScan_output_counts _ _ Hg x) as Hc.
    rewrite (NoDup_count_occ Vector2_eq_dec) in Hnd. specialize (Hnd x). lia. }
  split; [exact G|].
  intros Hlen H. destruct (exact_output k input Hlen H) as (out & Hg & _).
  exists out. split; [exact Hg|apply G, Hg].
Qed.

Lemma GrahamScan_output_NoDup_witness :
  exists out,
    GrahamScan [point 0 0; point 2 0; point 1 1; point 1 3] = Some out /\
    NoDup out.
Proof.
  destruct (GrahamScan_output_NoDup 0
              [point 0 0; point 2 0; point 1 1; point 1 3]) as [_ H].
  - repeat constructor; simpl; intuition discriminate.
  - apply H; [simpl; lia|vm_compute; reflexivity].
Defined.

(** X4: on a range of n >= 3 points on which rounding changes no
    comparison the sweep is linear: the loop body runs as often as
    2n - 1 minus the number of output points, at most 2n - 4 times. *)
Theorem GrahamScan_visits_linear k input :
  (3 <= length input)%nat ->
  exact_on k input = true ->
  exists out,
    GrahamScan input = Some out /\
    (length (GrahamScan_visits input) + length out + 1
     = 2 * length input)%nat /\
    (length (GrahamScan_visits input) <= 2 * length input - 4)%nat.
Proof.
  intros Hlen H.
  destruct (exact_run k input H) as (_ & HV & _).
  destruct (exact_output k input Hlen H) as (out & Hg & Hz).
  destruct (ExactFacts.GrahamScan_visits_linear_exact (values k input))
    as (outZ & Hg' & Hb).
  { rewrite values_length. exact Hlen. }
  rewrite Hz in Hg'. injection Hg' as <-.
  rewrite HV, length_map, !values_length in Hb.
  exists out. split; assumption.
Qed.

Lemma GrahamScan_visits_linear_witness :
  exists out,
    GrahamScan [point 0 0; point 2 0; point 1 1; point 0 2; point 0 3]
    = Some out /\
    (length (GrahamScan_visits [point 0 0; point 2 0; point 1 1; point 0 2;
                                point 0 3]) <= 6)%nat.
Proof.
  destruct (GrahamScan_visits_linear 0
              [point 0 0; point 2 0; point 1 1; point 0 2; point 0 3])
    as (out & Hg & _ & Hb).
  - simpl; lia.
  - vm_compute; reflexivity.
  - exists out. split; [exact Hg|exact Hb].
Defined.

(** X5: run on its own output, the function returns the same points by
    value, in the same order, when rounding changes no comparison on the
    range. *)
Theorem GrahamScan_idempotent k input out :
  exact_on k input = true ->
  GrahamScan input = Some out ->
  exists out',
    GrahamScan out = Some out' /\ values k out' = values k out.
Proof.
  intros H Hg.
  assert (Hin : incl out input).
  { intros p. apply sub_multiset_elements.
    exact (GrahamScan_output_counts _ _ Hg). }
  pose proof (exact_on_incl k input out Hin H) as Hout.
  destruct (exact_run k input H) as (HG & _).
  destruct (exact_run k out Hout) as (HG' & _).
  rewrite Hg in HG. simpl in HG.
  apply ExactFacts.GrahamScan_idempotent_exact in HG.
  rewrite HG in HG'.
  destruct (GrahamScan out) as [out'|]; [|discriminate].
  exists out'. split; [reflexivity|]. simpl in HG'. congruence.
Qed.

Lemma GrahamScan_idempotent_witness :
  exists out',
    GrahamScan [point 0 0; point 2 0; point 1 3] = Some out' /\
    values 0 out' = values 0 [point 0 0; point 2 0; point 1 3].
Proof.
  apply (GrahamScan_idempotent 0 [point 1 1; point 0 0; point 2 0; point 1 3]).
  - vm_compute; reflexivity.
  - vm_compute; reflexivity.
Defined.

(** X6: the output does not depend on the order of the points in the
    range: two ranges of at least three points that are rearrangements of
    each other, on which rounding changes no comparison, give the same
    points by value in the same order. *)
Theorem GrahamScan_order_independent k input input' :
  (3 <= length input)%nat ->
  exact_on k input = true ->
  Permutation input input' ->
  exists out out',
    GrahamScan input = Some out /\
    GrahamScan input' = Some out' /\
    values k out' = values k out.
Proof.
  intros Hlen H Hperm.
  assert (Hlen' : (3 <= length input')%nat)
    by (rewrite <- (Permutation_length Hperm); exact Hlen).
  assert (H' : exact_on k input' = true).
  { apply (exact_on_incl k input); [|exact H].
    intros p Hp. exact (Permutation_in _ (Permutation_sym Hperm) Hp). }
  destruct (exact_output k input Hlen H) as (out & Hg & Hz).
  destruct (exact_output k input' Hlen' H') as (out' & Hg' & Hz').
  exists out, out'. split; [exact Hg|]. split; [exact Hg'|].
  assert (E : Exact.GrahamScan (values k input')
              = Exact.GrahamScan (values k input)).
  { apply ExactFacts.GrahamScan_order_independent_exact.
    - rewrite values_length. exact Hlen.
    - unfold values. apply Permutation_map. exact Hperm. }
  rewrite Hz, Hz' in E. congruence.
Qed.

Lemma GrahamScan_order_independent_witness :
  exists out out',
    GrahamScan [point 0 0; point 2 0; point 1 1; point 1 3] = Some out /\
    GrahamScan [point 2 0; point 0 0; point 1 1; point 1 3] = Some out' /\
    values 0 out' = values 0 out.
Proof.
  apply GrahamScan_order_independent.
  - simpl; lia.
  - vm_compute; reflexivity.
  - apply perm_swap.
Defined.

(** X7: on a range of at least three points on which rounding changes no
    comparison, the output keeps every point of the range (by value, the
    anchor followed by all sorted points) exactly when the closed polygon
    through the anchor and the sorted points makes no clockwise turn. *)
Theorem GrahamScan_keeps_all_iff k input :
  (3 <= length input)%nat ->
  exact_on k input = true ->
  exists anchor out,
    anchor_of input = Some anchor /\
    GrahamScan input = Some (anchor :: out) /\
    Permutation input (anchor :: sorted_points input) /\
    (values k out = values k (sorted_points input) <->
     Exact.clockwise_free
       (value k anchor :: rev (values k (sorted_points input))
        ++ [value k anchor])).
Proof.
  intros Hlen H.
  destruct (exact_transfer k input Hlen H)
    as (anchor & out & Ha & Hg & HaZ & HgZ & HsZ & _ & _ & Hperm).
  destruct (ExactFacts.GrahamScan_keeps_all_iff_exact (values k input))
    as (aZ & Ha' & _ & Hiff).
  { rewrite values_length. exact Hlen. }
  rewrite HaZ in Ha'. injection Ha' as <-.
  rewrite HgZ, HsZ in Hiff.
  exists anchor, out. repeat split; auto.
  - intros E. apply Hiff. rewrite E. reflexivity.
  - intros E. apply Hiff in E. congruence.
Qed.

Lemma GrahamScan_keeps_all_iff_witness :
  exists anchor out,
    GrahamScan [point 0 0; point 1 0; point 1 1; point 0 1]
    = Some (anchor :: out) /\
    Permutation [point 0 0; point 1 0; point 1 1; point 0 1]
                (anchor :: sorted_points [point 0 0; point 1 0; point 1 1;
                                          point 0 1]).
Proof.
  destruct (GrahamScan_keeps_all_iff 0
              [point 0 0; point 1 0; point 1 1; point 0 1])
    as (anchor & out & _ & Hg & Hp & _).
  - simpl; lia.
  - vm_compute; reflexivity.
  - exists anchor, out. split; assumption.
Defined.

(** X8: when all points of a range of at least three points lie on one
    line and rounding changes no comparison, nothing is popped: the output
    has as many points as the range, by value the anchor followed by the
    other points in sorted order. *)
Theorem GrahamScan_collinear k input :
  (3 <= length input)%nat ->
  exact_on k input = true ->
  Exact.collinear (values k input) ->
  exists anchor out,
    anchor_of input = Some anchor /\
    GrahamScan input = Some (anchor :: out) /\
    values k out = values k (sorted_points input) /\
    length (anchor :: out) = length input.
Proof.
  intros Hlen H Hcol.
  destruct (exact_transfer k input Hlen H)
    as (anchor & out & Ha & Hg & HaZ & HgZ & HsZ & _ & _ & Hperm).
  destruct (ExactFacts.GrahamScan_collinear_exact (values k input))
    as (aZ & Ha' & Hg' & _).
  { rewrite values_length. exact Hlen. }
  { exact Hcol. }
  rewrite HaZ in Ha'. injection Ha' as <-.
  rewrite HgZ, HsZ in Hg'. injection Hg' as E.
  exists anchor, out. repeat split; auto.
  apply Permutation_length in Hperm. rewrite Hperm. simpl. f_equal.
  rewrite <- (values_length k out), E. apply values_length.
Qed.

Lemma GrahamScan_collinear_witness :
  exists anchor out,
    GrahamScan [point 2 2; point 0 0; point 3 3; point 1 1]
    = Some (anchor :: out) /\
    length (anchor :: out) = 4%nat.
Proof.
  destruct (GrahamScan_collinear 0
              [point 2 2; point 0 0; point 3 3; point 1 1])
    as (anchor & out & _ & Hg & _ & Hl).
  - simpl; lia.
  - vm_compute; reflexivity.
  - intros a b c Ha Hb Hc. vm_compute in Ha, Hb, Hc.
    repeat (destruct Ha as [<-|Ha]; [|]); try contradiction;
      repeat (destruct Hb as [<-|Hb]; [|]); try contradiction;
        repeat (destruct Hc as [<-|Hc]; [|]); try contradiction;
          reflexivity.
  - exists anchor, out. split; assumption.
Defined.

(** X9: on a range of at least three points on which rounding changes no
    comparison and no two points have the same coordinates, the output is
    the convex hull as the header describes it: every point of the range
    lies in the positive half-space of every edge of the output polygon,
    the edge from its last point back to the anchor included. *)
Theorem GrahamScan_hull_of_distinct_points k input :
  (3 <= length input)%nat ->
  exact_on k input = true ->
  NoDup (values k input) ->
  exists out,
    GrahamScan input = Some out /\
    forall q, In q input -> Exact.inside_hull (values k out) (value k q).
Proof.
  intros Hlen H Hnd.
  destruct (exact_output k input Hlen H) as (out & Hg & Hz).
  destruct (ExactFacts.GrahamScan_hull_of_distinct_points_exact
              (values k input)) as (outZ & Hg' & Hin).
  { rewrite values_length. exact Hlen. }
  { exact Hnd. }
  rewrite Hz in Hg'. injection Hg' as <-.
  exists out. split; [exact Hg|].
  intros q Hq. apply Hin. unfold values. apply in_map. exact Hq.
Qed.

Lemma GrahamScan_hull_of_distinct_points_witness :
  exists out,
    GrahamScan [point 0 0; point 1 0; point 1 1; point 0 1;
                mkVector (double_of 1 (-1)) (double_of 1 (-1))] = Some out /\
    Exact.inside_hull (values (-1) out)
                      (value (-1) (mkVector (double_of 1 (-1))
                                            (double_of 1 (-1)))).
Proof.
  destruct (GrahamScan_hull_of_distinct_points (-1)
              [point 0 0; point 1 0; point 1 1; point 0 1;
               mkVector (double_of 1 (-1)) (double_of 1 (-1))])
    as (out & Hg & Hin).
  - simpl; lia.
  - vm_compute; reflexivity.
  - vm_compute. repeat constructor; simpl; intuition discriminate.
  - exists out. split; [exact Hg|]. apply Hin.
    simpl. right. right. right. right. left. reflexivity.
Defined.

(** X10: on a range of at least three points on which rounding changes no
    comparison, a point whose coordinates occur more than once in the range
    is never dropped: the output holds these coordinates at least twice,
    wherever the point lies.  The copies are adjacent in the sorted vector;
    the second is pushed on the first without a pop, and from then on the
    edge between them is the zero vector, whose cross product with every
    later candidate is zero, so the loop stops there. *)
Theorem GrahamScan_keeps_repeated_point k input x :
  (3 <= length input)%nat ->
  exact_on k input = true ->
  (2 <= Exact.count (values k input) x)%nat ->
  exists out,
    GrahamScan input = Some out /\
    (2 <= Exact.count (values k out) x)%nat.
Proof.
  intros Hlen H Hc.
  destruct (exact_output k input Hlen H) as (out & Hg & Hz).
  destruct (ExactFacts.GrahamScan_keeps_repeated_point_exact
              (values k input) x) as (outZ & Hg' & Hc').
  { rewrite values_length. exact Hlen. }
  { exact Hc. }
  rewrite Hz in Hg'. injection Hg' as <-.
  exists out. split; assumption.
Qed.

Lemma GrahamScan_keeps_repeated_point_witness :
  exists out,
    GrahamScan [point 0 0; point 4 0; point 1 1; point 1 1; point 4 4;
                point 0 4] = Some out /\
    (2 <= Exact.count (values 0 out) (Exact.mkVector 1 1))%nat.
Proof.
  apply GrahamScan_keeps_repeated_point.
  - simpl; lia.
  - vm_compute; reflexivity.
  - vm_compute. lia.
Defined.

(** * Integer coordinates of moderate size are computed exactly *)

(** ** Digits *)

Lemma digits2_pos_bounds p :
  2 ^ (Zpos (digits2_pos p) - 1) <= Zpos p < 2 ^ Zpos (digits2_pos p).
Proof.
  induction p as [p IH|p IH|]; simpl digits2_pos.
  - rewrite Pos2Z.inj_succ.
    replace (Z.succ (Zpos (digits2_pos p)) - 1) with (Zpos (digits2_pos p)) by lia.
    rewrite Z.pow_succ_r by lia.
    assert (E : 2 ^ Zpos (digits2_pos p) = 2 * 2 ^ (Zpos (digits2_pos p) - 1)).
    { rewrite <- Z.pow_succ_r by lia. f_equal. lia. }
    lia.
  - rewrite Pos2Z.inj_succ.
    replace (Z.succ (Zpos (digits2_pos p)) - 1) with (Zpos (digits2_pos p)) by lia.
    rewrite Z.pow_succ_r by lia.
    assert (E : 2 ^ Zpos (digits2_pos p) = 2 * 2 ^ (Zpos (digits2_pos p) - 1)).
    { rewrite <- Z.pow_succ_r by lia. f_equal. lia. }
    lia.
  - simpl. lia.
Qed.

Lemma digits_unique x a b :
  2 ^ (a - 1) <= x < 2 ^ a -> 2 ^ (b - 1) <= x < 2 ^ b ->
  0 < a -> 0 < b -> a = b.
Proof.
  intros Ha Hb Pa Pb.
  destruct (Z.lt_trichotomy a b) as [H|[H|H]]; [|exact H|].
  - assert (2 ^ a <= 2 ^ (b - 1)) by (apply Z.pow_le_mono_r; lia). lia.
  - assert (2 ^ b <= 2 ^ (a - 1)) by (apply Z.pow_le_mono_r; lia). lia.
Qed.

Lemma digits2_pos_shift p j :
  0 <= j ->
  forall q, Zpos q = Zpos p * 2 ^ j ->
            Zpos (digits2_pos q) = Zpos (digits2_pos p) + j.
Proof.
  intros Hj q E.
  pose proof (digits2_pos_bounds p) as Bp.
  pose proof (digits2_pos_bounds q) as Bq.
  apply (digits_unique (Zpos q)); try lia.
  rewrite E.
  replace (Zpos (digits2_pos p) + j - 1) with ((Zpos (digits2_pos p) - 1) + j) by lia.
  rewrite !Z.pow_add_r by lia.
  assert (0 < 2 ^ j) by (apply Z.pow_pos_nonneg; lia).
  nia.
Qed.

Lemma digits2_pos_mono p q :
  Zpos (digits2_pos p) < Zpos (digits2_pos q) -> Zpos p < Zpos q.
Proof.
  intros H.
  pose proof (digits2_pos_bounds p) as Bp.
  pose proof (digits2_pos_bounds q) as Bq.
  assert (2 ^ Zpos (digits2_pos p) <= 2 ^ (Zpos (digits2_pos q) - 1))
    by (apply Z.pow_le_mono_r; lia).
  lia.
Qed.

(** ** Shifts *)

Lemma iter_xO_value m d :
  Zpos (Pos.iter xO m d) = Zpos m * 2 ^ Zpos d.
Proof.
  induction d as [|d IH] using Pos.peano_ind.
  - simpl. lia.
  - rewrite Pos.iter_succ, Pos2Z.inj_succ, Z.pow_succ_r by lia.
    rewrite Pos2Z.inj_xO, IH. ring.
Qed.

Lemma shr_1_even p :
  shr_1 (exact_record (Zpos (xO p))) = exact_record (Zpos p).
Proof. reflexivity. Qed.

Lemma iter_pos_xI {A} (f : A -> A) n x :
  iter_pos f (xI n) x = iter_pos f n (iter_pos f n (f x)).
Proof. reflexivity. Qed.

Lemma iter_pos_xO {A} (f : A -> A) n x :
  iter_pos f (xO n) x = iter_pos f n (iter_pos f n x).
Proof. reflexivity. Qed.

Lemma iter_pos_xH {A} (f : A -> A) x : iter_pos f xH x = f x.
Proof. reflexivity. Qed.

Lemma iter_shr_1_exact n :
  forall p q, Zpos q = Zpos p * 2 ^ Zpos n ->
    iter_pos shr_1 n (exact_record (Zpos q)) = exact_record (Zpos p).
Proof.
  induction n as [n IH|n IH|]; intros p q E.
  - rewrite Pos2Z.inj_xI in E.
    replace (2 * Zpos n + 1) with (Z.succ (Zpos n + Zpos n)) in E by lia.
    rewrite Z.pow_succ_r, Z.pow_add_r in E by lia.
    assert (Hq : exists q', q = xO q' /\ Zpos q' = Zpos p * 2 ^ Zpos n * 2 ^ Zpos n).
    { assert (0 < 2 ^ Zpos n) by (apply Z.pow_pos_nonneg; lia).
      destruct q as [q'|q'|]; [lia|exists q'; split; [reflexivity|lia]|nia]. }
    destruct Hq as (q' & -> & E').
    rewrite iter_pos_xI, shr_1_even.
    assert (Hr : exists r, Zpos r = Zpos p * 2 ^ Zpos n).
    { assert (0 < 2 ^ Zpos n) by (apply Z.pow_pos_nonneg; lia).
      exists (Z.to_pos (Zpos p * 2 ^ Zpos n)). rewrite Z2Pos.id; nia. }
    destruct Hr as (r & Er).
    rewrite (IH r q') by (rewrite Er; exact E').
    apply IH. exact Er.
  - assert (En : Zpos n~0 = Zpos n + Zpos n) by lia.
    rewrite En, Z.pow_add_r in E by lia.
    assert (Hr : exists r, Zpos r = Zpos p * 2 ^ Zpos n).
    { assert (0 < 2 ^ Zpos n) by (apply Z.pow_pos_nonneg; lia).
      exists (Z.to_pos (Zpos p * 2 ^ Zpos n)). rewrite Z2Pos.id; nia. }
    destruct Hr as (r & Er).
    rewrite iter_pos_xO.
    rewrite (IH r q) by (rewrite Er, E; ring).
    apply IH. exact Er.
  - rewrite iter_pos_xH. change (2 ^ 1) with 2 in E.
    destruct q as [q'|q'|]; try lia.
    rewrite shr_1_even. f_equal. lia.
Qed.

(** ** Rounding a value that needs no rounding *)

Lemma fexp_of_digits d : -1021 <= d -> fexp prec emax d = d - 53.
Proof. intros H. unfold fexp, emin, prec, emax. lia. Qed.

Lemma positive_product N j :
  0 < N -> 0 <= j -> exists q, Zpos q = N * 2 ^ j.
Proof.
  intros HN Hj. assert (0 < 2 ^ j) by (apply Z.pow_pos_nonneg; lia).
  exists (Z.to_pos (N * 2 ^ j)). rewrite Z2Pos.id; nia.
Qed.

Lemma Zdigits2_shift N j q :
  0 < N -> 0 <= j -> Zpos q = N * 2 ^ j ->
  Zpos (digits2_pos q) = Zdigits2 N + j.
Proof.
  intros HN Hj E. destruct N as [|p|p]; try lia.
  simpl Zdigits2. apply digits2_pos_shift; assumption.
Qed.

Lemma Zdigits2_pos N : 0 < N -> 0 < Zdigits2 N.
Proof. destruct N; simpl; lia. Qed.

(** [binary_round_aux] on a mantissa of at least 53 digits whose value is
    an integer below [2^53] gives the normal form of that integer. *)
Lemma round_exact s M E N :
  0 < N -> Zdigits2 N <= 53 -> E <= 0 ->
  Zpos M = N * 2 ^ (- E) ->
  53 <= Zpos (digits2_pos M) ->
  exists m,
    binary_round_aux prec emax s (Zpos M) E loc_Exact
    = S754_finite s m (Zdigits2 N - 53) /\
    Zpos m = N * 2 ^ (53 - Zdigits2 N).
Proof.
  intros HN Hd HE HM H53.
  pose proof (Zdigits2_pos N HN) as Hd0.
  pose proof (Zdigits2_shift N (- E) M HN ltac:(lia) HM) as HdM.
  unfold binary_round_aux, shr_fexp.
  change (Zdigits2 (Zpos M)) with (Zpos (digits2_pos M)).
  rewrite HdM, fexp_of_digits by lia.
  replace (Zdigits2 N + - E + E - 53 - E) with (Zdigits2 N - 53 - E) by lia.
  destruct (Zdigits2 N - 53 - E) as [|n|n] eqn:Hn; try lia.
  - cbn [shr shr_record_of_loc shr_m loc_of_shr_record round_nearest_even].
    change (Zdigits2 (Zpos M)) with (Zpos (digits2_pos M)).
    rewrite HdM, fexp_of_digits by lia.
    replace (Zdigits2 N + - E + E - 53 - E) with 0 by lia.
    cbn [shr shr_record_of_loc shr_m].
    assert (HEm : (E <=? emax - prec) = true)
      by (apply Z.leb_le; unfold emax, prec; lia).
    rewrite HEm. exists M. split.
    + f_equal. lia.
    + rewrite HM. f_equal. f_equal. lia.
  - destruct (positive_product N (53 - Zdigits2 N) HN ltac:(lia)) as [q Hq].
    assert (HMq : Zpos M = Zpos q * 2 ^ Zpos n).
    { rewrite HM, Hq, <- Z.mul_assoc, <- Z.pow_add_r by lia.
      f_equal. f_equal. lia. }
    cbn [shr shr_record_of_loc].
    change (Build_shr_record (Zpos M) false false) with (exact_record (Zpos M)).
    rewrite (iter_shr_1_exact n q M HMq).
    cbn [exact_record shr_m loc_of_shr_record round_nearest_even].
    change (Zdigits2 (Zpos q)) with (Zpos (digits2_pos q)).
    rewrite (Zdigits2_shift N (53 - Zdigits2 N) q HN ltac:(lia) Hq).
    rewrite fexp_of_digits by lia.
    replace (Zdigits2 N + (53 - Zdigits2 N) + (E + Zpos n) - 53 - (E + Zpos n))
      with 0 by lia.
    cbn [shr shr_record_of_loc shr_m].
    assert (HEm : (E + Zpos n <=? emax - prec) = true)
      by (apply Z.leb_le; unfold emax, prec; lia).
    rewrite HEm. exists q. split; [|exact Hq].
    f_equal. lia.
Qed.

Lemma normalize_exact s M E N :
  0 < N -> Zdigits2 N <= 53 -> E <= 0 ->
  Zpos M = N * 2 ^ (- E) ->
  exists m,
    binary_round prec emax s M E = S754_finite s m (Zdigits2 N - 53) /\
    Zpos m = N * 2 ^ (53 - Zdigits2 N).
Proof.
  intros HN Hd HE HM.
  pose proof (Zdigits2_pos N HN) as Hd0.
  pose proof (Zdigits2_shift N (- E) M HN ltac:(lia) HM) as HdM.
  unfold binary_round. rewrite HdM, fexp_of_digits by lia.
  unfold shl_align.
  destruct (Zdigits2 N + - E + E - 53 - E) as [|n|n] eqn:Hn.
  - apply round_exact; auto. lia.
  - apply round_exact; auto. lia.
  - assert (HM' : Zpos (Pos.iter xO M n)
                  = N * 2 ^ (- (Zdigits2 N + - E + E - 53))).
    { rewrite iter_xO_value, HM, <- Z.mul_assoc, <- Z.pow_add_r by lia.
      f_equal. f_equal. lia. }
    apply round_exact; auto; try lia.
    rewrite (Zdigits2_shift N (- (Zdigits2 N + - E + E - 53)) _ HN
               ltac:(lia) HM'). lia.
Qed.

(** ** Doubles that hold integers *)

Lemma Zdigits2_abs n : Zdigits2 (Z.abs n) = Zdigits2 n.
Proof. destruct n; reflexivity. Qed.

Lemma Zdigits2_opp n : Zdigits2 (- n) = Zdigits2 n.
Proof. destruct n; reflexivity. Qed.

Lemma Zdigits2_bounds n :
  n <> 0 -> 2 ^ (Zdigits2 n - 1) <= Z.abs n < 2 ^ Zdigits2 n.
Proof.
  destruct n as [|p|p]; intros H; [congruence| |];
    apply digits2_pos_bounds.
Qed.

Lemma Zdigits2_small n : Z.abs n < 2 ^ 53 -> Zdigits2 n <= 53.
Proof.
  intros H. destruct (Z.eq_dec n 0) as [->|Hn]; [simpl; lia|].
  pose proof (Zdigits2_bounds n Hn) as B.
  destruct (Z.le_gt_cases (Zdigits2 n) 53) as [|G]; [assumption|].
  assert (2 ^ 53 <= 2 ^ (Zdigits2 n - 1)) by (apply Z.pow_le_mono_r; lia).
  lia.
Qed.

Lemma represents_digits s m e n :
  represents (S754_finite s m e) n -> Zdigits2 n <= 53.
Proof.
  intros (Hn & _ & _ & Hm).
  destruct (Z.le_gt_cases (Zdigits2 n) 53) as [|G]; [assumption|].
  rewrite Z.pow_neg_r in Hm by lia. lia.
Qed.

Lemma round_represents s M E n :
  0 < n -> Z.abs n < 2 ^ 53 -> E <= 0 -> Zpos M = n * 2 ^ (- E) ->
  represents (binary_round prec emax s M E) (if s then - n else n).
Proof.
  intros Hn Hb HE HM.
  destruct (normalize_exact s M E n Hn) as (m & -> & Hm); auto.
  { apply Zdigits2_small. exact Hb. }
  unfold represents. destruct s.
  - rewrite Zdigits2_opp, Z.abs_opp, Z.abs_eq by lia.
    repeat split; auto; lia.
  - rewrite Z.abs_eq by lia.
    repeat split; auto; lia.
Qed.

Lemma normalize_represents D E n :
  Z.abs n < 2 ^ 53 -> E <= 0 -> D = n * 2 ^ (- E) ->
  represents (binary_normalize prec emax D E false) n.
Proof.
  intros Hb HE HD.
  assert (P : 0 < 2 ^ (- E)) by (apply Z.pow_pos_nonneg; lia).
  unfold binary_normalize. destruct D as [|p|p].
  - simpl. nia.
  - apply (round_represents false p E n); auto. nia.
  - replace n with (- (- n)) by lia.
    apply (round_represents true p E (- n)); lia.
Qed.

Lemma of_int_represents n : Z.abs n < 2 ^ 53 -> represents (of_int n) n.
Proof.
  intros H. unfold of_int, double_of.
  apply normalize_represents; auto; lia.
Qed.

Lemma shl_align_value m e e' :
  e' <= e -> Zpos (fst (shl_align m e e')) = Zpos m * 2 ^ (e - e').
Proof.
  intros H. unfold shl_align. destruct (e' - e) as [|d|d] eqn:E; try lia.
  - simpl fst. replace (e - e') with 0 by lia. lia.
  - simpl fst. rewrite iter_xO_value. f_equal. f_equal. lia.
Qed.

Lemma represents_aligned s m e n ez :
  represents (S754_finite s m e) n -> ez <= e ->
  cond_Zopp s (Zpos (fst (shl_align m e ez))) = n * 2 ^ (- ez).
Proof.
  intros H Hez. pose proof (represents_digits _ _ _ _ H) as Hd.
  destruct H as (Hn & -> & -> & Hm).
  rewrite shl_align_value, Hm, <- Z.mul_assoc, <- Z.pow_add_r by lia.
  replace (53 - Zdigits2 n + (Zdigits2 n - 53 - ez)) with (- ez) by lia.
  unfold cond_Zopp. destruct (Z.ltb_spec n 0); lia.
Qed.

Lemma represents_opp s m e n :
  represents (S754_finite s m e) n ->
  represents (S754_finite (negb s) m e) (- n).
Proof.
  intros (Hn & -> & -> & Hm). unfold represents.
  rewrite Zdigits2_opp, Z.abs_opp. repeat split; auto; lia.
Qed.

Lemma fsub_represents x y a b :
  represents x a -> represents y b -> Z.abs (a - b) < 2 ^ 53 ->
  represents (fsub x y) (a - b).
Proof.
  intros Hx Hy Hb.
  destruct x as [sx|sx| |sx mx ex], y as [sy|sy| |sy my ey];
    unfold represents in Hx, Hy; try contradiction.
  - subst. simpl. destruct sx, sy; simpl; lia.
  - subst a. replace (0 - b) with (- b) by lia.
    apply (represents_opp sy my ey b). exact Hy.
  - subst b. replace (a - 0) with a by lia. exact Hx.
  - pose proof (represents_digits _ _ _ _ Hx) as Hda.
    pose proof (represents_digits _ _ _ _ Hy) as Hdb.
    assert (Hex : ex <= 0) by (destruct Hx as (_ & _ & -> & _); lia).
    assert (Hey : ey <= 0) by (destruct Hy as (_ & _ & -> & _); lia).
    unfold fsub, SFsub. cbv zeta.
    apply normalize_represents; auto; try lia.
    rewrite (represents_aligned sx mx ex a) by (auto; lia).
    rewrite (represents_aligned sy my ey b) by (auto; lia).
    ring.
Qed.

Lemma fadd_represents x y a b :
  represents x a -> represents y b -> Z.abs (a + b) < 2 ^ 53 ->
  represents (fadd x y) (a + b).
Proof.
  intros Hx Hy Hb.
  destruct x as [sx|sx| |sx mx ex], y as [sy|sy| |sy my ey];
    unfold represents in Hx, Hy; try contradiction.
  - subst. simpl. destruct sx, sy; simpl; lia.
  - subst a. replace (0 + b) with b by lia. exact Hy.
  - subst b. replace (a + 0) with a by lia. exact Hx.
  - pose proof (represents_digits _ _ _ _ Hx) as Hda.
    pose proof (represents_digits _ _ _ _ Hy) as Hdb.
    assert (Hex : ex <= 0) by (destruct Hx as (_ & _ & -> & _); lia).
    assert (Hey : ey <= 0) by (destruct Hy as (_ & _ & -> & _); lia).
    unfold fadd, SFadd. cbv zeta.
    apply normalize_represents; auto; try lia.
    rewrite (represents_aligned sx mx ex a) by (auto; lia).
    rewrite (represents_aligned sy my ey b) by (auto; lia).
    ring.
Qed.

Lemma Zdigits2_mul a b :
  a <> 0 -> b <> 0 -> Zdigits2 a + Zdigits2 b - 1 <= Zdigits2 (a * b).
Proof.
  intros Ha Hb.
  pose proof (Zdigits2_bounds a Ha) as Ba.
  pose proof (Zdigits2_bounds b Hb) as Bb.
  assert (Hab : a * b <> 0) by nia.
  pose proof (Zdigits2_bounds (a * b) Hab) as Bab.
  assert (Pa : 0 < Zdigits2 a) by (destruct a; simpl; lia).
  assert (Pb : 0 < Zdigits2 b) by (destruct b; simpl; lia).
  destruct (Z.le_gt_cases (Zdigits2 a + Zdigits2 b - 1) (Zdigits2 (a * b)))
    as [|G]; [assumption|exfalso].
  assert (L : 2 ^ (Zdigits2 a - 1) * 2 ^ (Zdigits2 b - 1) <= Z.abs (a * b)).
  { rewrite Z.abs_mul. apply Z.mul_le_mono_nonneg; try lia;
      apply Z.pow_nonneg; lia. }
  rewrite <- Z.pow_add_r in L by lia.
  assert (2 ^ Zdigits2 (a * b) <= 2 ^ (Zdigits2 a - 1 + (Zdigits2 b - 1)))
    by (apply Z.pow_le_mono_r; lia).
  lia.
Qed.

Lemma fmul_represents x y a b :
  represents x a -> represents y b -> Z.abs (a * b) < 2 ^ 53 ->
  represents (fmul x y) (a * b).
Proof.
  intros Hx Hy Hb.
  destruct x as [sx|sx| |sx mx ex], y as [sy|sy| |sy my ey];
    unfold represents in Hx, Hy; try contradiction; try (subst; simpl; lia).
  pose proof (represents_digits _ _ _ _ Hx) as Hda.
  pose proof (represents_digits _ _ _ _ Hy) as Hdb.
  destruct Hx as (Ha & -> & -> & Hmx), Hy as (Hb0 & -> & -> & Hmy).
  assert (Hab : a * b <> 0) by nia.
  pose proof (Zdigits2_mul a b Ha Hb0) as Hdm.
  pose proof (Zdigits2_small _ Hb) as Hdab.
  assert (HM : Zpos (mx * my)
               = Z.abs (a * b)
                 * 2 ^ (- (Zdigits2 a - 53 + (Zdigits2 b - 53)))).
  { rewrite Pos2Z.inj_mul, Hmx, Hmy, Z.abs_mul.
    replace (- (Zdigits2 a - 53 + (Zdigits2 b - 53)))
      with ((53 - Zdigits2 a) + (53 - Zdigits2 b)) by lia.
    rewrite Z.pow_add_r by lia. ring. }
  assert (H1 : 0 < Z.abs (a * b)) by lia.
  assert (H2 : Zdigits2 (Z.abs (a * b)) <= 53)
    by (rewrite Zdigits2_abs; exact Hdab).
  assert (H3 : Zdigits2 a - 53 + (Zdigits2 b - 53) <= 0) by lia.
  assert (H5 : 53 <= Zpos (digits2_pos (mx * my))).
  { rewrite (Zdigits2_shift (Z.abs (a * b))
               (- (Zdigits2 a - 53 + (Zdigits2 b - 53))) _ H1
               ltac:(lia) HM).
    rewrite Zdigits2_abs. lia. }
  unfold fmul, SFmul.
  destruct (round_exact (xorb (a <? 0) (b <? 0)) (mx * my)%positive
              (Zdigits2 a - 53 + (Zdigits2 b - 53)) (Z.abs (a * b))
              H1 H2 H3 HM H5)
    as (m & -> & Hm).
  rewrite Zdigits2_abs in *. unfold represents.
  repeat split; auto.
  destruct (Z.ltb_spec a 0), (Z.ltb_spec b 0), (Z.ltb_spec (a * b) 0);
    simpl; auto; nia.
Qed.

Lemma compare_scaled x y c : 0 < c -> (x * c ?= y * c) = (x ?= y).
Proof.
  intros Hc.
  destruct (Z.compare_spec x y), (Z.compare_spec (x * c) (y * c));
    try reflexivity; nia.
Qed.

Lemma compare_represents x y a b :
  represents x a -> represents y b -> SFcompare x y = Some (a ?= b).
Proof.
  intros Hx Hy.
  destruct x as [sx|sx| |sx mx ex], y as [sy|sy| |sy my ey];
    unfold represents in Hx, Hy; try contradiction.
  - subst. reflexivity.
  - subst a. destruct Hy as (Hb & -> & _). unfold SFcompare. f_equal.
    destruct (Z.ltb_spec b 0); symmetry;
      [apply Z.compare_gt_iff|apply Z.compare_lt_iff]; lia.
  - subst b. destruct Hx as (Ha & -> & _). unfold SFcompare. f_equal.
    destruct (Z.ltb_spec a 0); symmetry;
      [apply Z.compare_lt_iff|apply Z.compare_gt_iff]; lia.
  - pose proof (represents_digits _ _ _ _ Hx) as Hda.
    pose proof (represents_digits _ _ _ _ Hy) as Hdb.
    destruct Hx as (Ha & -> & -> & Hmx), Hy as (Hb & -> & -> & Hmy).
    pose proof (Zdigits2_bounds a Ha) as Ba.
    pose proof (Zdigits2_bounds b Hb) as Bb.
    assert (Pa : 0 < Zdigits2 a) by (destruct a; simpl; lia).
    assert (Pb : 0 < Zdigits2 b) by (destruct b; simpl; lia).
    assert (Lt_digits : Zdigits2 a < Zdigits2 b -> Z.abs a < Z.abs b).
    { intros H.
      assert (2 ^ Zdigits2 a <= 2 ^ (Zdigits2 b - 1))
        by (apply Z.pow_le_mono_r; lia). lia. }
    assert (Gt_digits : Zdigits2 b < Zdigits2 a -> Z.abs b < Z.abs a).
    { intros H.
      assert (2 ^ Zdigits2 b <= 2 ^ (Zdigits2 a - 1))
        by (apply Z.pow_le_mono_r; lia). lia. }
    assert (Eq_digits : Zdigits2 a = Zdigits2 b ->
                        (mx ?= my)%positive = (Z.abs a ?= Z.abs b)).
    { intros E. rewrite Pos2Z.inj_compare, Hmx, Hmy, E.
      assert (0 < 2 ^ (53 - Zdigits2 b)) by (apply Z.pow_pos_nonneg; lia).
      apply compare_scaled. assumption. }
    unfold SFcompare. f_equal.
    destruct (Z.ltb_spec a 0) as [Na|Na], (Z.ltb_spec b 0) as [Nb|Nb].
    + destruct (Z.compare_spec (Zdigits2 a - 53) (Zdigits2 b - 53)) as [E|L|G].
      * change (Pos.compare_cont Eq mx my) with (mx ?= my)%positive.
        rewrite Eq_digits by lia.
        destruct (Z.compare_spec (Z.abs a) (Z.abs b)); simpl; symmetry;
          [apply Z.compare_eq_iff|apply Z.compare_gt_iff
           |apply Z.compare_lt_iff]; lia.
      * symmetry. apply Z.compare_gt_iff. specialize (Lt_digits ltac:(lia)).
        lia.
      * symmetry. apply Z.compare_lt_iff. specialize (Gt_digits ltac:(lia)).
        lia.
    + symmetry. apply Z.compare_lt_iff. lia.
    + symmetry. apply Z.compare_gt_iff. lia.
    + destruct (Z.compare_spec (Zdigits2 a - 53) (Zdigits2 b - 53)) as [E|L|G].
      * change (Pos.compare_cont Eq mx my) with (mx ?= my)%positive.
        rewrite Eq_digits by lia.
        destruct (Z.compare_spec (Z.abs a) (Z.abs b)); symmetry;
          [apply Z.compare_eq_iff|apply Z.compare_lt_iff
           |apply Z.compare_gt_iff]; lia.
      * symmetry. apply Z.compare_lt_iff. specialize (Lt_digits ltac:(lia)).
        lia.
      * symmetry. apply Z.compare_gt_iff. specialize (Gt_digits ltac:(lia)).
        lia.
Qed.

Lemma feq_represents x y a b :
  represents x a -> represents y b -> feq x y = (a =? b).
Proof.
  intros Hx Hy. unfold feq, SFeqb. rewrite (compare_represents x y a b Hx Hy).
  rewrite Z.eqb_compare. destruct (a ?= b); reflexivity.
Qed.

Lemma flt_represents x y a b :
  represents x a -> represents y b -> flt x y = (a <? b).
Proof.
  intros Hx Hy. unfold flt, SFltb. rewrite (compare_represents x y a b Hx Hy).
  unfold Z.ltb. destruct (a ?= b); reflexivity.
Qed.

Lemma fge_represents x y a b :
  represents x a -> represents y b -> fge x y = (a >=? b).
Proof.
  intros Hx Hy. unfold fge, SFleb. rewrite (compare_represents y x b a Hy Hx).
  rewrite Z.geb_leb. unfold Z.leb. destruct (b ?= a); reflexivity.
Qed.

Lemma zero_represents : represents zero 0.
Proof. reflexivity. Qed.

Lemma represents_value x n :
  represents x n -> scaled 0 x = n /\ on_grid 0 x = true.
Proof.
  intros H. destruct x as [s|s| |s m e]; unfold represents in H;
    try contradiction.
  - subst. split; reflexivity.
  - pose proof (represents_digits _ _ _ _ H) as Hd.
    destruct H as (Hn & -> & -> & Hm).
    assert (P : 0 < 2 ^ (53 - Zdigits2 n)) by (apply Z.pow_pos_nonneg; lia).
    assert (S : Z.shiftl (Zpos m) (Zdigits2 n - 53 - 0) = Z.abs n).
    { replace (Zdigits2 n - 53 - 0) with (- (53 - Zdigits2 n)) by lia.
      rewrite Z.shiftl_opp_r, Z.shiftr_div_pow2, Hm by lia.
      apply Z.div_mul. lia. }
    unfold scaled, on_grid. rewrite S. split.
    + unfold cond_Zopp. destruct (Z.ltb_spec n 0); lia.
    + apply Z.eqb_eq.
      replace (0 - (Zdigits2 n - 53)) with (53 - Zdigits2 n) by lia.
      rewrite Z.shiftl_mul_pow2 by lia. lia.
Qed.

(** ** Points with integer coordinates *)

Lemma product_bound x y B :
  Z.abs x <= B -> Z.abs y <= B -> Z.abs (x * y) <= B * B.
Proof.
  intros Hx Hy. rewrite Z.abs_mul.
  apply Z.mul_le_mono_nonneg; lia.
Qed.

Lemma vsub_holds a b az bz B :
  holds a az B -> holds b bz B -> 2 * B < 2 ^ 53 ->
  holds (vsub a b) (Exact.vsub az bz) (2 * B).
Proof.
  intros (Ha1 & Ha2 & Ha3 & Ha4) (Hb1 & Hb2 & Hb3 & Hb4) HB.
  unfold holds, vsub, Exact.vsub. cbn [vx vy Exact.vx Exact.vy].
  repeat split; try lia; apply fsub_represents; auto; lia.
Qed.

Lemma CrossProduct_holds u w uz wz B :
  holds u uz B -> holds w wz B -> 2 * (B * B) < 2 ^ 53 ->
  represents (CrossProduct u w) (Exact.CrossProduct uz wz).
Proof.
  intros (Hu1 & Hu2 & Hu3 & Hu4) (Hw1 & Hw2 & Hw3 & Hw4) HB.
  pose proof (product_bound _ _ B Hu3 Hw4) as P1.
  pose proof (product_bound _ _ B Hu4 Hw3) as P2.
  unfold CrossProduct, Exact.CrossProduct.
  apply fsub_represents; [apply fmul_represents|apply fmul_represents|];
    auto; lia.
Qed.

Lemma NormSquared_holds u uz B :
  holds u uz B -> 2 * (B * B) < 2 ^ 53 ->
  represents (NormSquared u) (Exact.NormSquared uz).
Proof.
  intros (Hu1 & Hu2 & Hu3 & Hu4) HB.
  pose proof (product_bound _ _ B Hu3 Hu3) as P1.
  pose proof (product_bound _ _ B Hu4 Hu4) as P2.
  unfold NormSquared, Exact.NormSquared.
  apply fadd_represents; [apply fmul_represents|apply fmul_represents|];
    auto; lia.
Qed.

Lemma CompareYCoordinates_holds a b az bz B :
  holds a az B -> holds b bz B ->
  CompareYCoordinates a b = Exact.CompareYCoordinates az bz.
Proof.
  intros (Ha1 & Ha2 & _) (Hb1 & Hb2 & _).
  unfold CompareYCoordinates, Exact.CompareYCoordinates.
  rewrite (feq_represents _ _ _ _ Ha2 Hb2), (flt_represents _ _ _ _ Ha1 Hb1),
    (flt_represents _ _ _ _ Ha2 Hb2).
  reflexivity.
Qed.

Lemma CompareByAngle_holds o a b oz az bz B :
  holds o oz B -> holds a az B -> holds b bz B ->
  8 * (B * B) < 2 ^ 53 ->
  CompareByAngle o a b = Exact.CompareByAngle oz az bz.
Proof.
  intros Ho Ha Hb HB.
  assert (H2 : 2 * B < 2 ^ 53).
  { destruct Ho as (_ & _ & Hb1 & _). nia. }
  pose proof (vsub_holds a o az oz B Ha Ho H2) as H1.
  pose proof (vsub_holds b o bz oz B Hb Ho H2) as H3.
  assert (H4 : 2 * (2 * B * (2 * B)) < 2 ^ 53) by lia.
  unfold CompareByAngle, Exact.CompareByAngle. cbv zeta.
  rewrite (feq_represents _ _ _ 0
             (CrossProduct_holds _ _ _ _ _ H1 H3 H4) zero_represents).
  rewrite (flt_represents _ _ _ _
             (NormSquared_holds _ _ _ H1 H4) (NormSquared_holds _ _ _ H3 H4)).
  rewrite (flt_represents _ _ 0 _
             zero_represents (CrossProduct_holds _ _ _ _ _ H1 H3 H4)).
  reflexivity.
Qed.

Lemma keeps_holds s t p sz tz pz B :
  holds s sz B -> holds t tz B -> holds p pz B ->
  8 * (B * B) < 2 ^ 53 ->
  keeps s t p = (Exact.turn sz tz pz >=? 0).
Proof.
  intros Hs Ht Hp HB.
  assert (H2 : 2 * B < 2 ^ 53).
  { destruct Hs as (_ & _ & Hb1 & _). nia. }
  pose proof (vsub_holds t s tz sz B Ht Hs H2) as H1.
  pose proof (vsub_holds p t pz tz B Hp Ht H2) as H3.
  assert (H4 : 2 * (2 * B * (2 * B)) < 2 ^ 53) by lia.
  unfold keeps. cbv zeta.
  change (fsub (fmul (vx (vsub t s)) (vy (vsub p t)))
               (fmul (vy (vsub t s)) (vx (vsub p t))))
    with (CrossProduct (vsub t s) (vsub p t)).
  rewrite (fge_represents _ _ _ 0
             (CrossProduct_holds _ _ _ _ _ H1 H3 H4) zero_represents).
  reflexivity.
Qed.

Lemma holds_value v z B : holds v z B -> value 0 v = z /\ point_on_grid 0 v = true.
Proof.
  intros (H1 & H2 & _).
  destruct (represents_value _ _ H1) as [E1 G1].
  destruct (represents_value _ _ H2) as [E2 G2].
  unfold value, point_on_grid. rewrite E1, E2, G1, G2.
  destruct z; split; reflexivity.
Qed.

Lemma integer_point_holds z :
  Z.abs (Exact.vx z) <= 2 ^ 24 -> Z.abs (Exact.vy z) <= 2 ^ 24 ->
  holds (integer_point z) z (2 ^ 24).
Proof.
  intros Hx Hy. unfold holds, integer_point, point. cbn [vx vy].
  repeat split; auto; apply of_int_represents; lia.
Qed.

(** X11: points with integer coordinates of magnitude at most 2^24 are
    computed without rounding: every difference, product, sum and
    comparison of lines 145-167 and of the comparators is exact, so on
    every range of such points rounding changes no comparison, and the
    values of the points are their coordinates. *)
Theorem integer_coordinates_exact zs :
  (forall z, In z zs ->
             Z.abs (Exact.vx z) <= 2 ^ 24 /\ Z.abs (Exact.vy z) <= 2 ^ 24) ->
  exact_on 0 (map integer_point zs) = true /\
  values 0 (map integer_point zs) = zs.
Proof.
  intros Hb.
  assert (Hh : forall v, In v (map integer_point zs) ->
                 exists z, holds v z (2 ^ 24)).
  { intros v Hv. apply in_map_iff in Hv as (z & <- & Hz).
    exists z. destruct (Hb z Hz). apply integer_point_holds; assumption. }
  split.
  - unfold exact_on. apply andb_true_intro. split; apply forallb_forall.
    + intros v Hv. destruct (Hh v Hv) as [z Hz].
      exact (proj2 (holds_value _ _ _ Hz)).
    + intros o Ho. apply forallb_forall. intros a Ha.
      apply forallb_forall. intros b Hb'.
      destruct (Hh o Ho) as [oz Hoz], (Hh a Ha) as [az Haz],
        (Hh b Hb') as [bz Hbz].
      unfold same_answers.
      rewrite (proj1 (holds_value _ _ _ Hoz)), (proj1 (holds_value _ _ _ Haz)),
        (proj1 (holds_value _ _ _ Hbz)).
      rewrite (CompareYCoordinates_holds a b az bz _ Haz Hbz).
      rewrite (CompareByAngle_holds o a b oz az bz _ Hoz Haz Hbz)
        by (vm_compute; reflexivity).
      rewrite (keeps_holds o a b oz az bz _ Hoz Haz Hbz)
        by (vm_compute; reflexivity).
      rewrite !eqb_reflx. reflexivity.
  - unfold values. rewrite map_map. rewrite <- (map_id zs) at 2.
    apply map_ext_in. intros z Hz. destruct (Hb z Hz).
    exact (proj1 (holds_value _ _ _ (integer_point_holds z H H0))).
Qed.

Lemma integer_coordinates_exact_witness :
  exact_on 0 (map integer_point
                [Exact.mkVector 0 0; Exact.mkVector 16777216 (-16777216);
                 Exact.mkVector (-5) 7]) = true.
Proof.
  apply (integer_coordinates_exact
           [Exact.mkVector 0 0; Exact.mkVector 16777216 (-16777216);
            Exact.mkVector (-5) 7]).
  intros z [<-|[<-|[<-|[]]]]; simpl; lia.
Defined.

(** X12: on points with integer coordinates of magnitude at most 2^24 the
    program computes what the exact model computes: it returns exactly
    when the exact run returns, and then the same points in the same
    order. *)
Theorem GrahamScan_integer_points zs :
  (forall z, In z zs ->
             Z.abs (Exact.vx z) <= 2 ^ 24 /\ Z.abs (Exact.vy z) <= 2 ^ 24) ->
  GrahamScan (map integer_point zs)
  = option_map (map integer_point) (Exact.GrahamScan zs).
Proof.
  intros Hb.
  destruct (integer_coordinates_exact zs Hb) as [Hex Hval].
  destruct (exact_run 0 (map integer_point zs) Hex) as (HG & _).
  rewrite Hval in HG. rewrite HG.
  destruct (GrahamScan (map integer_point zs)) as [out|] eqn:Hout;
    [|reflexivity].
  simpl. f_equal. unfold values. rewrite map_map.
  rewrite <- (map_id out) at 1. apply map_ext_in. intros v Hv.
  apply (sub_multiset_elements _ _ _ (GrahamScan_output_counts _ _ Hout)) in Hv.
  apply in_map_iff in Hv as (z & <- & Hz). destruct (Hb z Hz) as [Hx Hy].
  rewrite (proj1 (holds_value _ _ _ (integer_point_holds z Hx Hy))).
  reflexivity.
Qed.

Lemma GrahamScan_integer_points_witness :
  GrahamScan (map integer_point
                [Exact.mkVector 1 1; Exact.mkVector 0 0; Exact.mkVector 2 0;
                 Exact.mkVector 1 3])
  = Some (map integer_point
            [Exact.mkVector 0 0; Exact.mkVector 2 0; Exact.mkVector 1 3]).
Proof.
  rewrite GrahamScan_integer_points.
  - reflexivity.
  - intros z [<-|[<-|[<-|[<-|[]]]]]; simpl; lia.
Defined.

(** ** What the loop has tested *)

Lemma kept_chain_suffix l st : kept_chain (l ++ st) -> kept_chain st.
Proof.
  intros H l1 c b a l2 E. apply (H (l ++ l1) c b a l2).
  rewrite E, app_assoc. reflexivity.
Qed.

Lemma kept_chain_push p top second rest :
  keeps second top p = true ->
  kept_chain (top :: second :: rest) ->
  kept_chain (p :: top :: second :: rest).
Proof.
  intros Hk H l1 c b a l2 E. destruct l1 as [|x l1]; simpl in E.
  - injection E as <- <- <- _. exact Hk.
  - injection E as _ E. exact (H l1 c b a l2 E).
Qed.

Lemma sweep_kept_chain cs :
  forall st st',
    sweep cs st = Some st' -> kept_chain st -> kept_chain st'.
Proof.
  induction cs as [|p cs IH]; intros st st' H Hst.
  - injection H as <-. exact Hst.
  - rewrite sweep_unfold in H.
    destruct (pop_loop p st) as [r|] eqn:Hp; [|discriminate].
    apply (IH _ _ H).
    destruct (pop_loop_leaves _ _ _ Hp)
      as (popped & top & second & rest & E & E' & Hk & _).
    subst st. rewrite E' in *. apply kept_chain_push; [exact Hk|].
    exact (kept_chain_suffix _ _ Hst).
Qed.

(** X13: whatever the function returns on at least three points, every
    three consecutive points of the output, and its last two points with
    the anchor, have passed the test of line 167: their cross product as
    computed is [>= 0].  Only the turn at the anchor itself, from the last
    output point to the second, is never tested.  And the function returns
    on a range on which rounding changes no comparison. *)
Theorem GrahamScan_output_passed_test k input :
  (3 <= length input)%nat ->
  (forall out,
      GrahamScan input = Some out ->
      exists anchor rest,
        out = anchor :: rest /\
        forall l1 a b c l2,
          out ++ [anchor] = l1 ++ a :: b :: c :: l2 ->
          fge (CrossProduct (vsub b a) (vsub c b)) zero = true) /\
  (exact_on k input = true -> exists out, GrahamScan input = Some out).
Proof.
  intros Hlen. split.
  - intros out Hg.
    destruct (GrahamScan_returns input out Hlen Hg)
      as (anchor & p0 & rest & pre & _ & Hs & _ & Hf & _ & ->).
    destruct (GrahamScan_unfold input Hlen) as (anchor' & _ & _ & _ & Hst).
    destruct (Hst p0 rest Hs) as (Hf' & _ & _). rewrite Hf in Hf'.
    symmetry in Hf'.
    assert (Hchain : kept_chain (anchor :: pre ++ [p0; anchor])).
    { apply (sweep_kept_chain _ _ _ Hf').
      intros l1 c b a l2 E. apply (f_equal (@length Vector2)) in E.
      rewrite length_app in E. simpl in E. lia. }
    exists anchor, (p0 :: rev pre). split; [reflexivity|].
    intros l1 a b c l2 E.
    apply (Hchain (rev l2) c b a (rev l1)).
    apply (f_equal (@rev Vector2)) in E.
    assert (L : rev ((anchor :: p0 :: rev pre) ++ [anchor])
                = anchor :: pre ++ [p0; anchor]).
    { rewrite rev_app_distr. simpl. rewrite rev_involutive, <- app_assoc.
      reflexivity. }
    assert (R : rev (l1 ++ a :: b :: c :: l2)
                = rev l2 ++ c :: b :: a :: rev l1).
    { rewrite rev_app_distr. simpl. rewrite <- !app_assoc. reflexivity. }
    rewrite L, R in E. exact E.
  - intros H. destruct (exact_output k input Hlen H) as (out & Hg & _).
    exists out. exact Hg.
Qed.

Lemma GrahamScan_output_passed_test_witness :
  fge (CrossProduct (vsub (point 134217758 134217757) (point 0 0))
                    (vsub (point 268435515 268435513)
                          (point 134217758 134217757))) zero = true.
Proof.
  destruct (GrahamScan_output_passed_test 0
              [point 0 0; point 134217758 134217757;
               point 268435515 268435513; point 3 402653184]) as [H _].
  - simpl; lia.
  - destruct (H [point 0 0; point 134217758 134217757;
                 point 268435515 268435513; point 3 402653184])
      as (anchor & rest & E & Hc).
    + vm_compute; reflexivity.
    + injection E as <- _.
      apply (Hc [] (point 0 0) (point 134217758 134217757)
                (point 268435515 268435513)
                [point 3 402653184; point 0 0]).
      reflexivity.
Defined.

